(** * QPF backend: field dynamics, event graph store and semantic retriever

    A shallow embedding of the core of the QPF backend
    ([symbolic_modules/math_core.py], [q_core_modules/memory_graph.py],
    [q_core_modules/contextual_retriever.py] and the state loader of
    [main.py]) together with the properties its specification states.

    Conventions of the embedding.
    - numpy [float64] arrays are lists of real numbers: rounding is idealised
      away, the order of operations of the source is kept.  A chat turn is
      the exception: rounding decides which activation [np.argmax] takes,
      so the computed sigmoid is a parameter of the turn.
    - A numpy operation on shapes that do not fit raises [ValueError]; the
      shapes are checked as numpy checks them.
    - [np.argsort] is a parameter of the retriever, known by what numpy
      documents of it: its default sort fixes no order among equal values.
    - Python exceptions are the [None] of an [option] result, or a named
      exception of an [outcome]; a method that mutates its object returns
      the outcome together with the new state.
    - Python dictionaries and the adjacency of [networkx.DiGraph] keep
      insertion order, so they are association lists. *)

From Stdlib Require Import Reals Lra Lia List ZArith Bool Arith.
From Stdlib Require Import String Ascii Sorted Permutation DecimalString.
Import ListNotations.

Set Implicit Arguments.
Set Warnings "-register-all".

(* ================================================================== *)
(** * Field dynamics engine ([symbolic_modules/math_core.py])          *)
(* ================================================================== *)

Module MathCore.
Local Open Scope R_scope.

(** [EPS = 1e-12] *)
Definition EPS : R := / 10 ^ 12.

(** [np.sum] over a one-dimensional array. *)
Definition np_sum (l : list R) : R := fold_right Rplus 0 l.

(** [np.dot] of two vectors of equal length. *)
Definition np_dot (u v : list R) : R :=
  np_sum (map (fun p => fst p * snd p) (combine u v)).

(** [np.max]: raises [ValueError] on an empty array. *)
Definition np_max (l : list R) : option R :=
  match l with
  | [] => None
  | x :: xs => Some (fold_left Rmax xs x)
  end.

(** [np.argmax]: index of the first occurrence of the maximum; raises
    [ValueError] on an empty array.  [argmax_from] scans the tail keeping
    the best index seen so far and only moves on a strictly larger value. *)
Fixpoint argmax_from (best : nat) (bv : R) (i : nat) (l : list R) : nat :=
  match l with
  | [] => best
  | x :: xs =>
      if Rlt_dec bv x then argmax_from i x (S i) xs
      else argmax_from best bv (S i) xs
  end.

Definition np_argmax (l : list R) : option nat :=
  match l with
  | [] => None
  | x :: xs => Some (argmax_from 0%nat x 1%nat xs)
  end.

(** [activation(w) = 1.0 / (1.0 + np.exp(-w))] *)
Definition activation (w : list R) : list R :=
  map (fun wi => 1 / (1 + exp (- wi))) w.

(** The sum over axis 0 of the rows [c * row], for a list of pairs
    [(c, row)] whose rows have [D] items. *)
Definition weighted_rows (D : nat) (l : list (R * list R)) : list R :=
  fold_right (fun row acc => map (fun p => fst p + snd p) (combine row acc))
             (repeat 0 D)
             (map (fun p => map (Rmult (fst p)) (snd p)) l).

(** [project_state(a, psi) = np.sum(a[:, None] * psi_vectors, axis=0)] for
    an array [psi] of shape [(M, D)], given by its rows; [D] says how many
    columns an array without rows has.  The product broadcasts the column
    [a[:, None]] of shape [(N, 1)] against [psi]: the shapes fit when
    [N = M], when [N = 1] (the one activation scales every row) and when
    [M = 1] (the one row is scaled by every activation); otherwise numpy
    raises [ValueError], the [None] of the result.  [None] also stands for
    rows that do not all have [D] items, which is no array of that
    shape. *)
Definition project_state (D : nat) (a : list R) (psi : list (list R))
  : option (list R) :=
  if forallb (fun row => (List.length row =? D)%nat) psi then
    if (List.length a =? List.length psi)%nat
    then Some (weighted_rows D (combine a psi))
    else match a, psi with
         | [a0], _ => Some (weighted_rows D (map (fun row => (a0, row)) psi))
         | _, [row] => Some (weighted_rows D (map (fun ai => (ai, row)) a))
         | _, _ => None
         end
  else None.

(** [entropy(a)]: [p2 = a ** 2; return -np.sum(p2 * np.log(p2 + EPS))] *)
Definition entropy (a : list R) : R :=
  let p2 := map (fun ai => ai ^ 2) a in
  - np_sum (map (fun p => p * ln (p + EPS)) p2).

(** Index normalisation of a numpy subscript: a negative index counts from
    the end, anything outside [-n, n) raises [IndexError]. *)
Definition np_index (n : nat) (i : Z) : option nat :=
  if (0 <=? i)%Z then
    (if (i <? Z.of_nat n)%Z then Some (Z.to_nat i) else None)
  else
    (if (- Z.of_nat n <=? i)%Z then Some (Z.to_nat (Z.of_nat n + i)) else None).

Fixpoint add_at (l : list R) (i : nat) (d : R) : list R :=
  match l, i with
  | [], _ => []
  | x :: xs, O => (x + d) :: xs
  | x :: xs, S j => x :: add_at xs j d
  end.

(** [collapse_weights(w, collapsed_index, alpha)]:
    [w_new = (1.0 - alpha) * w; w_new[collapsed_index] += alpha] *)
Definition collapse_weights (w : list R) (collapsed_index : Z) (alpha : R)
  : option (list R) :=
  let w_new := map (Rmult (1 - alpha)) w in
  match np_index (List.length w_new) collapsed_index with
  | Some i => Some (add_at w_new i alpha)
  | None => None
  end.

(** [resonance(a, W) = float(a.T @ W @ a)]: the vector-matrix product
    [a @ W] needs as many rows in [W] as [a] has items, and its product with
    [a] needs as many columns; otherwise [@] raises [ValueError], the [None]
    of the result (which also stands for rows of unequal length, and takes
    an array without rows to have the columns wanted). *)
Definition resonance (a : list R) (W : list (list R)) : option R :=
  let n := List.length a in
  if (List.length W =? n)%nat && forallb (fun row => (List.length row =? n)%nat) W
  then Some (np_dot (weighted_rows n (combine a W)) a)
  else None.

(** [feedback_modulation(lambda_vec, F) = float(np.dot(lambda_vec, F))]:
    [np.dot] raises [ValueError] on vectors of different lengths. *)
Definition feedback_modulation (lambda_vec F : list R) : option R :=
  if (List.length lambda_vec =? List.length F)%nat
  then Some (np_dot lambda_vec F)
  else None.

(** [softmax(x)]: [z = x - np.max(x); exp_z = np.exp(z);
    return exp_z / (np.sum(exp_z) + EPS)] *)
Definition softmax (x : list R) : option (list R) :=
  match np_max x with
  | None => None
  | Some m =>
      let z := map (fun xi => xi - m) x in
      let exp_z := map exp z in
      Some (map (fun e => e / (np_sum exp_z + EPS)) exp_z)
  end.

(** [check_collapse(S, S_crit) = S > S_crit] *)
Definition check_collapse (S S_crit : R) : bool :=
  if Rlt_dec S_crit S then true else false.

(** The numeric part of [QPFAssistant.chat] (main.py): the observables of a
    turn and the weight update on collapse. *)
Record FieldState := {
  fs_w : list R;
  fs_psi : list (list R);
  fs_W : list (list R);
  fs_lambda : list R;
  fs_F : list R;
  fs_alpha : R;
  fs_S_crit : R
}.

Record Turn := {
  t_activation : list R;
  t_entropy : R;
  t_resonance : R;
  t_projected : list R;
  t_feedback : R;
  t_softmax : list R;
  t_collapsed : bool;
  t_collapsed_index : nat;
  t_prev_w : list R;
  t_new_w : list R
}.

(** The activations of a turn are the float64 values of
    [1.0 / (1.0 + np.exp(-w_i))].  Their rounding is not idealised away
    here, because it decides [np.argmax]: the activations of two large
    weights both round to [1.0], and the first of them is taken.  So the
    turn is given for any function [fl] that maps a weight to its computed
    activation; [1 / (1 + exp (- x))] is the case without rounding.
    [None] is the [ValueError] of a shape that does not fit or of an empty
    weight vector. *)
Definition chat_field (fl : R -> R) (D : nat) (st : FieldState) : option Turn :=
  let a := map fl st.(fs_w) in
  let S := entropy a in
  match resonance a st.(fs_W), project_state D a st.(fs_psi),
        feedback_modulation st.(fs_lambda) st.(fs_F),
        softmax st.(fs_w), np_argmax a with
  | Some E, Some p, Some f, Some sm, Some idx =>
      if check_collapse S st.(fs_S_crit) then
        match collapse_weights st.(fs_w) (Z.of_nat idx) st.(fs_alpha) with
        | Some w' => Some (Build_Turn a S E p f sm true idx st.(fs_w) w')
        | None => None
        end
      else Some (Build_Turn a S E p f sm false idx st.(fs_w) st.(fs_w))
  | _, _, _, _, _ => None
  end.

End MathCore.

(* ================================================================== *)
(** * Certified lower bounds on the exponential                        *)
(* ================================================================== *)

(** Numeric bounds on [exp] and [ln] are obtained from
    [(1 + x / 2^k) ^ (2^k) <= exp x], the power being computed by [k]
    squarings on integers scaled by [10^18], each rounded down. *)
Module ExpBounds.
Local Open Scope R_scope.

Definition fx_scale : Z := 10 ^ 18.

Definition fx_sq (y : Z) : Z := (y * y / fx_scale)%Z.

Fixpoint fx_sq_iter (k : nat) (y : Z) : Z :=
  match k with
  | O => y
  | S k' => fx_sq_iter k' (fx_sq y)
  end.

Definition fx_val (y : Z) : R := IZR y / IZR fx_scale.

End ExpBounds.

(* ================================================================== *)
(** * Python values and JSON documents                                 *)
(* ================================================================== *)

Module Py.

(** Exceptions the modelled code can raise. *)
Inductive exn := KeyError | TypeError | ValueError | IndexError.

(** Result of a call that may raise. *)
Inductive outcome (A : Type) :=
| Returns (a : A)
| Raises (e : exn).
Arguments Returns {A} a.
Arguments Raises {A} e.

Definition bind {A B} (m : outcome A) (f : A -> outcome B) : outcome B :=
  match m with
  | Returns a => f a
  | Raises e => Raises e
  end.

(** Keys of a dictionary: strings, integers, or some other hashable object
    (a tuple, say) that [json.dump] refuses as a key. *)
Inductive pykey :=
| KStr (s : string)
| KInt (z : Z)
| KOther (tag : string).

(** The Python values an event payload may hold ([Dict[str, Any]]): the
    JSON-native ones, tuples, and opaque objects of any other class, which
    [json.dump] cannot serialise. *)
Inductive pyval :=
| PNone
| PBool (b : bool)
| PInt (z : Z)
| PFloat (r : R)
| PStr (s : string)
| PList (l : list pyval)
| PTuple (l : list pyval)
| PDict (d : list (pykey * pyval))
| PObject (cls : string).

Definition pydict := list (pykey * pyval).

(** A JSON document, as [json.dump] writes it and [json.load] reads it. *)
Inductive json :=
| JNull
| JBool (b : bool)
| JInt (z : Z)
| JFloat (r : R)
| JStr (s : string)
| JArr (l : list json)
| JObj (members : list (string * json)).

(** Dictionary lookup and assignment on insertion-ordered association lists:
    assignment to a present key keeps its position, a new key goes last. *)
Section Assoc.
Variables (K V : Type) (eqb : K -> K -> bool).

Fixpoint assoc_get (k : K) (d : list (K * V)) : option V :=
  match d with
  | [] => None
  | (k', v) :: d' => if eqb k k' then Some v else assoc_get k d'
  end.

Fixpoint assoc_set (k : K) (v : V) (d : list (K * V)) : list (K * V) :=
  match d with
  | [] => [(k, v)]
  | (k', v') :: d' =>
      if eqb k k' then (k, v) :: d' else (k', v') :: assoc_set k v d'
  end.

Definition assoc_mem (k : K) (d : list (K * V)) : bool :=
  match assoc_get k d with Some _ => true | None => false end.
End Assoc.

Definition pykey_eqb (a b : pykey) : bool :=
  match a, b with
  | KStr s, KStr t => String.eqb s t
  | KInt x, KInt y => Z.eqb x y
  | KOther s, KOther t => String.eqb s t
  | _, _ => false
  end.

(** [d.get(key)] for a string key. *)
Definition dict_get (key : string) (d : pydict) : option pyval :=
  assoc_get pykey_eqb (KStr key) d.

(** [str(int)] *)
Definition str_of_int (z : Z) : string := NilZero.string_of_int (Z.to_int z).

(** Key coercion of [json.dump] (with the default [skipkeys=False]). *)
Definition json_key (k : pykey) : option string :=
  match k with
  | KStr s => Some s
  | KInt z => Some (str_of_int z)
  | KOther _ => None
  end.

(** [json.dump]: [None] stands for the [TypeError] of a value that is not
    JSON serialisable. *)
Fixpoint json_dump (v : pyval) : option json :=
  let dump_all :=
    fix go (l : list pyval) : option (list json) :=
      match l with
      | [] => Some []
      | x :: t =>
          match json_dump x, go t with
          | Some j, Some js => Some (j :: js)
          | _, _ => None
          end
      end in
  match v with
  | PNone => Some JNull
  | PBool b => Some (JBool b)
  | PInt z => Some (JInt z)
  | PFloat r => Some (JFloat r)
  | PStr s => Some (JStr s)
  | PList l | PTuple l =>
      match dump_all l with Some js => Some (JArr js) | None => None end
  | PDict d =>
      match (fix go (d : list (pykey * pyval)) : option (list (string * json)) :=
               match d with
               | [] => Some []
               | (k, x) :: t =>
                   match json_key k, json_dump x, go t with
                   | Some s, Some j, Some js => Some ((s, j) :: js)
                   | _, _, _ => None
                   end
               end) d with
      | Some ms => Some (JObj ms)
      | None => None
      end
  | PObject _ => None
  end.

(** [json.load]: arrays become lists, objects become dictionaries with string
    keys; a repeated member name overwrites the earlier value. *)
Fixpoint json_load (j : json) : pyval :=
  match j with
  | JNull => PNone
  | JBool b => PBool b
  | JInt z => PInt z
  | JFloat r => PFloat r
  | JStr s => PStr s
  | JArr l => PList (map json_load l)
  | JObj ms =>
      PDict ((fix go (ms : list (string * json)) (acc : pydict) : pydict :=
                match ms with
                | [] => acc
                | (s, x) :: t => go t (assoc_set pykey_eqb (KStr s) (json_load x) acc)
                end) ms [])
  end.

(** The list traversals of [json_dump] and [json_load], by name. *)
Definition dump_all : list pyval -> option (list json) :=
  fix go (l : list pyval) : option (list json) :=
    match l with
    | [] => Some []
    | x :: t =>
        match json_dump x, go t with
        | Some j, Some js => Some (j :: js)
        | _, _ => None
        end
    end.

Definition dump_members : list (pykey * pyval) -> option (list (string * json)) :=
  fix go (d : list (pykey * pyval)) : option (list (string * json)) :=
    match d with
    | [] => Some []
    | (k, x) :: t =>
        match json_key k, json_dump x, go t with
        | Some s, Some j, Some js => Some ((s, j) :: js)
        | _, _, _ => None
        end
    end.

Definition load_members : list (string * json) -> pydict -> pydict :=
  fix go (ms : list (string * json)) (acc : pydict) : pydict :=
    match ms with
    | [] => acc
    | (s, x) :: t => go t (assoc_set pykey_eqb (KStr s) (json_load x) acc)
    end.

(** Structural induction on Python values, through lists and dictionaries. *)
Section PyvalInduction.
Variable P : pyval -> Prop.
Hypothesis HNone : P PNone.
Hypothesis HBool : forall b, P (PBool b).
Hypothesis HInt : forall z, P (PInt z).
Hypothesis HFloat : forall r, P (PFloat r).
Hypothesis HStr : forall s, P (PStr s).
Hypothesis HList : forall l, Forall P l -> P (PList l).
Hypothesis HTuple : forall l, Forall P l -> P (PTuple l).
Hypothesis HDict : forall d, Forall (fun kv => P (snd kv)) d -> P (PDict d).
Hypothesis HObject : forall c, P (PObject c).

Fixpoint pyval_nested_ind (v : pyval) : P v :=
  match v with
  | PNone => HNone
  | PBool b => HBool b
  | PInt z => HInt z
  | PFloat r => HFloat r
  | PStr s => HStr s
  | PList l =>
      HList ((fix go (l : list pyval) : Forall P l :=
                match l with
                | [] => Forall_nil P
                | x :: t => Forall_cons x (pyval_nested_ind x) (go t)
                end) l)
  | PTuple l =>
      HTuple ((fix go (l : list pyval) : Forall P l :=
                 match l with
                 | [] => Forall_nil P
                 | x :: t => Forall_cons x (pyval_nested_ind x) (go t)
                 end) l)
  | PDict d =>
      HDict ((fix go (d : list (pykey * pyval)) : Forall (fun kv => P (snd kv)) d :=
                match d with
                | [] => Forall_nil _
                | kv :: t => Forall_cons kv (pyval_nested_ind (snd kv)) (go t)
                end) d)
  | PObject c => HObject c
  end.
End PyvalInduction.

(** The values that [json.dump] followed by [json.load] gives back
    unchanged: no tuple, no foreign object, dictionaries keyed by distinct
    strings. *)
Fixpoint str_keys (d : pydict) : option (list string) :=
  match d with
  | [] => Some []
  | (KStr s, _) :: t =>
      match str_keys t with Some ks => Some (s :: ks) | None => None end
  | _ :: _ => None
  end.

Fixpoint distinct (l : list string) : bool :=
  match l with
  | [] => true
  | s :: t => negb (existsb (String.eqb s) t) && distinct t
  end.

Definition dict_keys_ok (d : pydict) : bool :=
  match str_keys d with Some ks => distinct ks | None => false end.

Fixpoint json_native (v : pyval) : bool :=
  match v with
  | PNone | PBool _ | PInt _ | PFloat _ | PStr _ => true
  | PList l => forallb json_native l
  | PTuple _ => false
  | PDict d => dict_keys_ok d && forallb (fun kv => json_native (snd kv)) d
  | PObject _ => false
  end.

End Py.

(* ================================================================== *)
(** * Timestamps ([datetime.datetime], [isoformat], [dateutil] [isoparse]) *)
(* ================================================================== *)

Module DateTime.
Import Py.
Local Open Scope string_scope.

(** A [datetime.datetime]: the calendar fields and the UTC offset of its
    [tzinfo] in seconds ([None] for a naive value, as [utcnow()] gives). *)
Record datetime := {
  year : Z;
  month : Z;
  day : Z;
  hour : Z;
  minute : Z;
  second : Z;
  microsecond : Z;
  utcoffset : option Z
}.

Local Open Scope Z_scope.

Definition is_leap (y : Z) : bool :=
  (y mod 4 =? 0) && (negb (y mod 100 =? 0) || (y mod 400 =? 0)).

Definition days_in_month (y m : Z) : Z :=
  match m with
  | 2 => if is_leap y then 29 else 28
  | 4 | 6 | 9 | 11 => 30
  | _ => 31
  end.

(** The range checks of the [datetime] constructor and of [tzinfo]. *)
Definition valid_datetime (t : datetime) : bool :=
  (1 <=? year t) && (year t <=? 9999) &&
  (1 <=? month t) && (month t <=? 12) &&
  (1 <=? day t) && (day t <=? days_in_month (year t) (month t)) &&
  (0 <=? hour t) && (hour t <? 24) &&
  (0 <=? minute t) && (minute t <? 60) &&
  (0 <=? second t) && (second t <? 60) &&
  (0 <=? microsecond t) && (microsecond t <? 1000000) &&
  match utcoffset t with
  | None => true
  | Some o => (-86400 <? o) && (o <? 86400)
  end.

(** [_days_before_year], [_days_before_month] and [toordinal]. *)
Definition days_before_year (y : Z) : Z :=
  let p := y - 1 in p * 365 + p / 4 - p / 100 + p / 400.

Definition days_before_month (y m : Z) : Z :=
  fold_right Z.add 0
    (map (days_in_month y) (map Z.of_nat (seq 1 (Z.to_nat (m - 1))))).

Definition toordinal (t : datetime) : Z :=
  days_before_year (year t) + days_before_month (year t) (month t) + day t.

(** Microseconds of the wall-clock reading since the start of the calendar. *)
Definition wall_micros (t : datetime) : Z :=
  (((toordinal t * 24 + hour t) * 60 + minute t) * 60 + second t) * 1000000
  + microsecond t.

(** The instant two datetimes of the same kind are ordered by: aware values
    are compared after subtracting their offsets. *)
Definition sort_instant (t : datetime) : Z :=
  match utcoffset t with
  | None => wall_micros t
  | Some o => wall_micros t - o * 1000000
  end.

(** [a < b] on datetimes: ordering a naive against an aware value raises
    [TypeError]. *)
Definition dt_lt (a b : datetime) : outcome bool :=
  match utcoffset a, utcoffset b with
  | None, None | Some _, Some _ => Returns (sort_instant a <? sort_instant b)
  | _, _ => Raises TypeError
  end.

(** ** Formatting *)

Definition digit_char (d : Z) : ascii := ascii_of_nat (48 + Z.to_nat d).

Definition digit_val (c : ascii) : option Z :=
  let n := Z.of_nat (nat_of_ascii c) in
  if (48 <=? n) && (n <=? 57) then Some (n - 48) else None.

(** ["%0wd" % n] followed by [rest] (for [0 <= n < 10^w]). *)
Fixpoint put_digits (w : nat) (n : Z) (rest : string) : string :=
  match w with
  | O => rest
  | S w' => String (digit_char ((n / 10 ^ Z.of_nat w') mod 10)) (put_digits w' n rest)
  end.

(** The digits [put_digits] writes, most significant first. *)
Fixpoint digits_of (w : nat) (n : Z) : list Z :=
  match w with
  | O => []
  | S w' => (n / 10 ^ Z.of_nat w') mod 10 :: digits_of w' n
  end.

(** [_format_offset]: ["+HH:MM"], with [":SS"] appended when the offset is
    not a whole number of minutes. *)
Definition format_offset (off : option Z) : string :=
  match off with
  | None => ""
  | Some o =>
      let sign := if o <? 0 then "-"%char else "+"%char in
      let a := Z.abs o in
      let hh := a / 3600 in
      let mm := (a mod 3600) / 60 in
      let ss := a mod 60 in
      String sign
        (put_digits 2 hh
           (String ":"
              (put_digits 2 mm
                 (if ss =? 0 then "" else String ":" (put_digits 2 ss "")))))
  end.

(** [_format_time] with [timespec='auto']: the fraction is printed only when
    the microseconds are non-zero. *)
Definition format_time (t : datetime) (rest : string) : string :=
  put_digits 2 (hour t)
    (String ":"
       (put_digits 2 (minute t)
          (String ":"
             (put_digits 2 (second t)
                (if microsecond t =? 0 then rest
                 else String "." (put_digits 6 (microsecond t) rest)))))).

(** [datetime.isoformat()] *)
Definition isoformat (t : datetime) : string :=
  put_digits 4 (year t)
    (String "-"
       (put_digits 2 (month t)
          (String "-"
             (put_digits 2 (day t)
                (String "T" (format_time t (format_offset (utcoffset t)))))))).

(** ** Parsing

    [dateutil.parser.isoparse] on the extended format
    [YYYY-MM-DD[THH:MM:SS[.f+][Z|±HH[[:]MM]]]], which is what [isoformat]
    writes.  The other ISO-8601 spellings that [isoparse] also reads (basic
    dates, week dates, reduced precision, [24:00]) are not modelled and are
    rejected here; [None] is the [ValueError] of [isoparse]. *)

Fixpoint parse_digits (w : nat) (acc : Z) (s : string) : option (Z * string) :=
  match w with
  | O => Some (acc, s)
  | S w' =>
      match s with
      | String c s' =>
          match digit_val c with
          | Some d => parse_digits w' (acc * 10 + d) s'
          | None => None
          end
      | EmptyString => None
      end
  end.

Definition expect (c : ascii) (s : string) : option string :=
  match s with
  | String c' s' => if Ascii.eqb c c' then Some s' else None
  | EmptyString => None
  end.

(** The longest run of digits at the head of [s]. *)
Fixpoint take_digits (s : string) : list Z * string :=
  match s with
  | String c s' =>
      match digit_val c with
      | Some d => let (ds, r) := take_digits s' in (d :: ds, r)
      | None => ([], s)
      end
  | EmptyString => ([], s)
  end.

(** Fraction of a second: at most six digits count. *)
Definition parse_fraction (s : string) : option (Z * string) :=
  match s with
  | String c s' =>
      if Ascii.eqb c "." || Ascii.eqb c "," then
        let (ds, r) := take_digits s' in
        match ds with
        | [] => None
        | _ =>
            let ds6 := firstn 6 ds in
            Some (fold_left (fun a d => a * 10 + d) ds6 0
                  * 10 ^ Z.of_nat (6 - List.length ds6), r)
        end
      else Some (0, s)
  | EmptyString => Some (0, s)
  end.

(** [_parse_tzstr]: ["Z"], ["±HH"], ["±HHMM"] or ["±HH:MM"]; any longer
    offset is an error.  The result is [None] for a naive time. *)
Definition parse_tzstr (s : string) : option (option Z) :=
  match s with
  | EmptyString => Some None
  | String c s' =>
      if (Ascii.eqb c "Z" || Ascii.eqb c "z") then
        match s' with EmptyString => Some (Some 0) | _ => None end
      else
        let mult :=
          if Ascii.eqb c "-" then Some (-1)
          else if Ascii.eqb c "+" then Some 1 else None in
        match mult, parse_digits 2 0 s' with
        | Some sg, Some (hh, r) =>
            let minutes :=
              match r with
              | EmptyString => Some 0
              | String ":" r' =>
                  match parse_digits 2 0 r' with
                  | Some (mm, EmptyString) => Some mm
                  | _ => None
                  end
              | _ =>
                  match parse_digits 2 0 r with
                  | Some (mm, EmptyString) => Some mm
                  | _ => None
                  end
              end in
            match minutes with
            | Some mm =>
                if (hh =? 0) && (mm =? 0) then Some (Some 0)
                else if (mm <=? 59) && (hh <=? 23)
                     then Some (Some (sg * ((hh * 60 + mm) * 60)))
                     else None
            | None => None
            end
        | _, _ => None
        end
  end.

Definition opt_bind {A B} (m : option A) (f : A -> option B) : option B :=
  match m with Some a => f a | None => None end.

Definition isoparse (s : string) : option datetime :=
  opt_bind (parse_digits 4 0 s) (fun '(y, s) =>
  opt_bind (expect "-" s) (fun s =>
  opt_bind (parse_digits 2 0 s) (fun '(mo, s) =>
  opt_bind (expect "-" s) (fun s =>
  opt_bind (parse_digits 2 0 s) (fun '(d, s) =>
  let checked t := if valid_datetime t then Some t else None in
  match s with
  | EmptyString => checked (Build_datetime y mo d 0 0 0 0 None)
  | String c s =>
      if Ascii.eqb c "T" then
        opt_bind (parse_digits 2 0 s) (fun '(h, s) =>
        opt_bind (expect ":" s) (fun s =>
        opt_bind (parse_digits 2 0 s) (fun '(mi, s) =>
        opt_bind (expect ":" s) (fun s =>
        opt_bind (parse_digits 2 0 s) (fun '(sec, s) =>
        opt_bind (parse_fraction s) (fun '(us, s) =>
        opt_bind (parse_tzstr s) (fun tz =>
        checked (Build_datetime y mo d h mi sec us tz))))))))
      else None
  end))))).

(** A string that does not go on with a digit. *)
Definition no_digit_ahead (s : string) : Prop :=
  match s with
  | EmptyString => True
  | String c _ => digit_val c = None
  end.

(** An offset [isoparse] reads back: a whole number of minutes. *)
Definition whole_minutes (off : option Z) : bool :=
  match off with
  | None => true
  | Some o => o mod 60 =? 0
  end.

End DateTime.

(* ================================================================== *)
(** * Event graph store ([q_core_modules/memory_graph.py])             *)
(* ================================================================== *)

Module MemoryGraph.
Import Py DateTime.
Local Open Scope string_scope.

(** [@dataclass class MemoryEvent] *)
Record MemoryEvent := {
  id : string;
  timestamp : datetime;
  type : string;
  payload : pydict
}.

(** The [networkx.DiGraph] held in [self.graph], as the store uses it: the
    node table [G._node] maps a node id to its ['event'] attribute, in
    insertion order; the edge table maps an ordered pair of node ids to its
    ['relation'] attribute (one entry per ordered pair, as [G._adj[u][v]]),
    in the order the pairs were first linked. *)
Record DiGraph := {
  nodes : list (string * MemoryEvent);
  edges : list ((string * string) * string)
}.

(** [nx.DiGraph()] *)
Definition empty_graph : DiGraph := {| nodes := []; edges := [] |}.

Definition pair_eqb (a b : string * string) : bool :=
  String.eqb (fst a) (fst b) && String.eqb (snd a) (snd b).

(** [n in G] *)
Definition has_node (g : DiGraph) (n : string) : bool :=
  assoc_mem String.eqb n (nodes g).

(** [G.add_node(n, event=ev)]: a new node goes last, an existing node keeps
    its place and has its attribute overwritten. *)
Definition add_node (g : DiGraph) (n : string) (ev : MemoryEvent) : DiGraph :=
  {| nodes := assoc_set String.eqb n ev (nodes g); edges := edges g |}.

(** [G.add_edge(u, v, relation=r)] between two nodes of the graph: an
    existing edge [u -> v] has its attribute overwritten. *)
Definition add_edge (g : DiGraph) (u v r : string) : DiGraph :=
  {| nodes := nodes g; edges := assoc_set pair_eqb (u, v) r (edges g) |}.

Definition node_count (g : DiGraph) : nat := List.length (nodes g).
Definition edge_count (g : DiGraph) : nat := List.length (edges g).

(** [link_events(src_id, dst_id, relation)]: the outcome of the call and the
    graph it leaves behind. *)
Definition link_events (g : DiGraph) (src_id dst_id relation : string)
  : outcome unit * DiGraph :=
  if has_node g src_id && has_node g dst_id
  then (Returns tt, add_edge g src_id dst_id relation)
  else (Raises KeyError, g).

(** [prior.sort(key=lambda x: x[1], reverse=True)]: a stable descending sort
    that only uses [<] on the keys; entries with equal keys keep their
    order.  Each entry is inserted in front of the first one that is
    smaller than it. *)
Fixpoint insert_desc (x : string * datetime) (l : list (string * datetime))
  : outcome (list (string * datetime)) :=
  match l with
  | [] => Returns [x]
  | y :: l' =>
      bind (dt_lt (snd y) (snd x)) (fun smaller =>
        if smaller then Returns (x :: y :: l')
        else bind (insert_desc x l') (fun r => Returns (y :: r)))
  end.

Definition sort_desc (l : list (string * datetime))
  : outcome (list (string * datetime)) :=
  fold_left (fun acc x => bind acc (insert_desc x)) l (Returns []).

(** [add_event(event)]: the node is added first, so the graph keeps it even
    when the linking step raises. *)
Definition add_event (g : DiGraph) (event : MemoryEvent) : outcome unit * DiGraph :=
  let g1 := add_node g (id event) event in
  let all_nodes := map fst (nodes g1) in
  if (1 <? List.length all_nodes)%nat then
    let prior :=
      map (fun p => (fst p, timestamp (snd p)))
          (filter (fun p => negb (String.eqb (fst p) (id event))) (nodes g1)) in
    match sort_desc prior with
    | Raises e => (Raises e, g1)
    | Returns [] => (Raises IndexError, g1)
    | Returns ((last_id, _) :: _) =>
        link_events g1 last_id (id event) "next_in_time"
    end
  else (Returns tt, g1).

(** ** Persistence: [save_json] and [load_json] *)

(** The dictionary [save_json] puts in place of a [MemoryEvent]. *)
Definition event_to_py (ev : MemoryEvent) : pyval :=
  PDict [ (KStr "id", PStr (id ev));
          (KStr "timestamp", PStr (isoformat (timestamp ev)));
          (KStr "type", PStr (type ev));
          (KStr "payload", PDict (payload ev)) ].

(** [{**G.nodes[n], "id": n}] *)
Definition node_to_py (p : string * MemoryEvent) : pyval :=
  PDict [ (KStr "event", event_to_py (snd p)); (KStr "id", PStr (fst p)) ].

(** [{**d, "source": u, "target": v}] *)
Definition edge_to_py (e : (string * string) * string) : pyval :=
  PDict [ (KStr "relation", PStr (snd e));
          (KStr "source", PStr (fst (fst e)));
          (KStr "target", PStr (snd (fst e))) ].

(** [json_graph.node_link_data(self.graph)] after the loop of [save_json]
    has replaced every event by its dictionary. *)
Definition node_link_data (g : DiGraph) : pyval :=
  PDict [ (KStr "directed", PBool true);
          (KStr "multigraph", PBool false);
          (KStr "graph", PDict []);
          (KStr "nodes", PList (map node_to_py (nodes g)));
          (KStr "links", PList (map edge_to_py (edges g))) ].

(** [save_json]: the document written to the file, or [None] when
    [json.dump] raises on a payload it cannot serialise. *)
Definition save_json (g : DiGraph) : option json :=
  json_dump (node_link_data g).

Definition get_str (key : string) (d : pydict) : option string :=
  match dict_get key d with Some (PStr s) => Some s | _ => None end.

(** [MemoryEvent(id=ev_dict.get('id'), timestamp=isoparse(...), ...)] *)
Definition event_of_py (ev_dict : pydict) : option MemoryEvent :=
  opt_bind (get_str "id" ev_dict) (fun i =>
  opt_bind (get_str "timestamp" ev_dict) (fun ts =>
  opt_bind (isoparse ts) (fun t =>
  opt_bind (get_str "type" ev_dict) (fun ty =>
  match dict_get "payload" ev_dict with
  | None => Some (Build_MemoryEvent i t ty [])
  | Some (PDict p) => Some (Build_MemoryEvent i t ty p)
  | Some _ => None
  end)))).

(** One node of the ["nodes"] list: its id and its rebuilt event. *)
Definition node_of_py (v : pyval) : option (string * MemoryEvent) :=
  match v with
  | PDict d =>
      opt_bind (get_str "id" d) (fun n =>
      match dict_get "event" d with
      | Some (PDict ev_dict) =>
          opt_bind (event_of_py ev_dict) (fun ev => Some (n, ev))
      | _ => None
      end)
  | _ => None
  end.

(** One entry of the ["links"] list. *)
Definition edge_of_py (v : pyval) : option ((string * string) * string) :=
  match v with
  | PDict d =>
      opt_bind (get_str "source" d) (fun u =>
      opt_bind (get_str "target" d) (fun w =>
      opt_bind (get_str "relation" d) (fun r => Some ((u, w), r))))
  | _ => None
  end.

Fixpoint load_nodes (l : list pyval) (g : DiGraph) : option DiGraph :=
  match l with
  | [] => Some g
  | v :: l' =>
      opt_bind (node_of_py v) (fun p => load_nodes l' (add_node g (fst p) (snd p)))
  end.

Fixpoint load_edges (l : list pyval) (g : DiGraph) : option DiGraph :=
  match l with
  | [] => Some g
  | v :: l' =>
      opt_bind (edge_of_py v) (fun e =>
        let '((u, w), r) := e in
        if has_node g u && has_node g w
        then load_edges l' (add_edge g u w r)
        else None)
  end.

(** [load_json]: [json_graph.node_link_graph(data, edges="links")] followed
    by the loop that rebuilds the events.  The result is [None] when the
    source raises (a missing ["nodes"] or ["links"] member, a timestamp
    [isoparse] rejects) and also for the documents this typed model has no
    graph for: another graph class than a simple directed graph, a node
    without a well-typed event dictionary, a link to an undeclared node. *)
Definition load_json (doc : json) : option DiGraph :=
  match json_load doc with
  | PDict data =>
      match dict_get "directed" data, dict_get "multigraph" data,
            dict_get "nodes" data, dict_get "links" data with
      | Some (PBool true), Some (PBool false), Some (PList ns), Some (PList ls) =>
          opt_bind (load_nodes ns empty_graph) (load_edges ls)
      | _, _, _, _ => None
      end
  | _ => None
  end.

End MemoryGraph.

(* ================================================================== *)
(** * Graphs the store can hold                                        *)
(* ================================================================== *)

Module GraphInvariants.
Import Py DateTime MemoryGraph.

(** The representation invariant of a [networkx.DiGraph]: node ids are
    distinct, there is one entry per ordered pair of nodes, and every edge
    joins two nodes of the graph. *)
Record wf_graph (g : DiGraph) : Prop := {
  wf_nodes : NoDup (map fst (nodes g));
  wf_edges : NoDup (map fst (edges g));
  wf_closed : forall u v r, In ((u, v), r) (edges g) ->
                            has_node g u = true /\ has_node g v = true
}.

(** The graphs a [MemoryGraph] goes through: it starts empty, is replaced
    by [load_json], and is updated by [add_event] and [link_events]
    (whether they return or raise). *)
Inductive reachable : DiGraph -> Prop :=
| reach_empty : reachable empty_graph
| reach_load doc g : load_json doc = Some g -> reachable g
| reach_add_event g ev : reachable g -> reachable (snd (add_event g ev))
| reach_link_events g src dst relation :
    reachable g -> reachable (snd (link_events g src dst relation)).

(** Timestamps that [<] can order: all naive, or all aware. *)
Definition is_aware (t : datetime) : bool :=
  match utcoffset t with Some _ => true | None => false end.

Definition comparable (g : DiGraph) : Prop :=
  forall p q, In p (nodes g) -> In q (nodes g) ->
              is_aware (timestamp (snd p)) = is_aware (timestamp (snd q)).

(** The entry a stable descending sort puts first: the earliest entry of
    the list among those with the greatest instant. *)
Definition ts_lt (a b : string * datetime) : bool :=
  (sort_instant (snd a) <? sort_instant (snd b))%Z.

Definition latest_step (cur : option (string * datetime)) (x : string * datetime)
  : option (string * datetime) :=
  match cur with
  | None => Some x
  | Some m => if ts_lt m x then Some x else Some m
  end.

Definition first_latest (l : list (string * datetime)) : option (string * datetime) :=
  fold_left latest_step l None.

(** The events [save_json] and [load_json] carry over unchanged: a payload
    of JSON-native values and a timestamp that [isoparse] reads back. *)
Definition storable_event (ev : MemoryEvent) : bool :=
  json_native (PDict (payload ev))
  && valid_datetime (timestamp ev)
  && whole_minutes (utcoffset (timestamp ev)).

Definition storable (g : DiGraph) : Prop :=
  forall p, In p (nodes g) -> storable_event (snd p) = true.

(** The edges as [(source, target, relation)] triples. *)
Definition edge_triples (g : DiGraph) : list (string * string * string) :=
  map (fun e => (fst (fst e), snd (fst e), snd e)) (edges g).

End GraphInvariants.

(* ================================================================== *)
(** * Semantic retriever ([q_core_modules/contextual_retriever.py])    *)
(* ================================================================== *)

Module ContextualRetriever.
Import Py DateTime MemoryGraph MathCore.
Local Open Scope R_scope.

(** [np.linalg.norm] of a vector. *)
Definition np_norm (v : list R) : R := sqrt (np_sum (map (fun x => x * x) v)).

(** [np.divide(dot, norms, out=np.zeros_like(dot), where=norms != 0)] on one
    pair of components. *)
Definition safe_divide (d n : R) : R :=
  if Req_dec_T n 0 then 0 else d / n.


(** One sort that meets the contract, [np.argsort(sims, kind="stable")]: an
    insertion sort, which keeps the indices of equal values in increasing
    order.  Index [i] is put in front of the first index whose value is
    greater than [v[i]].  The retriever does not ask for this kind; it is
    used to run the retriever on examples. *)
Fixpoint insert_asc (v : nat -> R) (i : nat) (l : list nat) : list nat :=
  match l with
  | [] => [i]
  | j :: l' => if Rlt_dec (v i) (v j) then i :: j :: l' else j :: insert_asc v i l'
  end.

Definition stable_argsort (sims : list R) : list nat :=
  fold_left (fun acc i => insert_asc (fun n => nth n sims 0) i acc)
            (seq 0 (List.length sims)) [].


(** [[events[i] for i in idx]]: [None] is the [IndexError] of an index past
    the end of [events]. *)
Fixpoint pick (events : list MemoryEvent) (idx : list nat)
  : option (list MemoryEvent) :=
  match idx with
  | [] => Some []
  | i :: idx' =>
      match nth_error events i, pick events idx' with
      | Some ev, Some res => Some (ev :: res)
      | _, _ => None
      end
  end.

(** The Python slice [l[-k:]] for an integer [k]: the last [k] items when
    [k > 0]; [l[-0:]] is [l[0:]], the whole list; a negative [k] gives
    [l[|k|:]]. *)
Definition slice_last (A : Type) (k : Z) (l : list A) : list A :=
  let n := Z.of_nat (List.length l) in
  let start := if (0 <? k)%Z then Z.max (n - k) 0 else Z.min (- k) n in
  skipn (Z.to_nat start) l.

Section Retriever.
(** [self.embedder]: a function from a text to its vector; on a list of
    texts it embeds each text. *)
Variable embedder : string -> list R.
(** [str(ev.payload)], Python's rendering of a dictionary. *)
Variable py_str : pydict -> string.
(** [np.argsort] with the default [kind], as the installed numpy computes
    it; what is known of it is [argsort_contract]. *)
Variable np_argsort : list R -> list nat.

(** [txt if isinstance(txt, str) else str(ev.payload)] *)
Definition event_text (ev : MemoryEvent) : string :=
  match dict_get "text" (payload ev) with
  | Some (PStr txt) => txt
  | _ => py_str (payload ev)
  end.

(** Steps 2 and 3 of [retrieve_semantic]: one similarity per event. *)
Definition similarities (query_vec : list R) (events : list MemoryEvent) : list R :=
  let embeddings := map (fun ev => embedder (event_text ev)) events in
  let dot := map (fun e => np_dot e query_vec) embeddings in
  let norms := map (fun e => np_norm e * np_norm query_vec) embeddings in
  map (fun p => safe_divide (fst p) (snd p)) (combine dot norms).

(** The body of [retrieve_semantic(text, k)].  Unpacking the zipped
    candidate list into [event_ids, events] raises [ValueError] when the
    graph has no node; [embeddings @ query_vec] raises [ValueError] when an
    embedding has another length than the query vector. *)
Definition retrieve_semantic_body (g : DiGraph) (text : string) (k : Z)
  : outcome (list MemoryEvent) :=
  let query_vec := embedder text in
  let candidates := nodes g in
  match candidates with
  | [] => Raises ValueError
  | _ :: _ =>
      let events := map snd candidates in
      if forallb (fun ev => (List.length (embedder (event_text ev))
                             =? List.length query_vec)%nat) events
      then
        let sims := similarities query_vec events in
        let idx := rev (slice_last k (np_argsort sims)) in
        match pick events idx with
        | Some res => Returns res
        | None => Raises IndexError
        end
      else Raises ValueError
  end.

(** [@lru_cache(maxsize=128)]: entries keyed by [(text, k)], most recently
    used first.  A raised exception is not cached. *)
Definition cache := list ((string * Z) * list MemoryEvent).

Definition key_eqb (a b : string * Z) : bool :=
  String.eqb (fst a) (fst b) && Z.eqb (snd a) (snd b).

Definition retrieve_semantic (c : cache) (g : DiGraph) (text : string) (k : Z)
  : outcome (list MemoryEvent) * cache :=
  match assoc_get key_eqb (text, k) c with
  | Some hit =>
      (Returns hit,
       ((text, k), hit) :: filter (fun e => negb (key_eqb (text, k) (fst e))) c)
  | None =>
      match retrieve_semantic_body g text k with
      | Returns res => (Returns res, firstn 128 (((text, k), res) :: c))
      | Raises e => (Raises e, c)
      end
  end.
End Retriever.

End ContextualRetriever.

(* ================================================================== *)
(** * Loading the persisted field state ([main.py])                    *)
(* ================================================================== *)

Module FieldStateStore.
Import Py.
Local Open Scope string_scope.

(** The shape of a nested list as [np.array] sees it: a leaf has shape [[]],
    a list of [n] items of one common shape [s] has shape [n :: s], and a
    ragged list has none. *)
Fixpoint shape_eqb (s t : list nat) : bool :=
  match s, t with
  | [], [] => true
  | a :: s', b :: t' => (a =? b)%nat && shape_eqb s' t'
  | _, _ => false
  end.

Fixpoint shape_of (v : pyval) : option (list nat) :=
  match v with
  | PList l =>
      match map shape_of l with
      | [] => Some [O]
      | Some s :: rest =>
          if forallb (fun o => match o with
                               | Some s' => shape_eqb s s'
                               | None => false
                               end) rest
          then Some (List.length l :: s) else None
      | None :: _ => None
      end
  | _ => Some []
  end.

(** [np.array(v)]: the array is represented by its nested-list form; a
    ragged nesting raises [ValueError]. *)
Definition np_array (v : pyval) : option pyval :=
  match shape_of v with Some _ => Some v | None => None end.

(** [data[key]]: [KeyError] on a missing key, [TypeError] when [data] is not
    a dictionary. *)
Definition subscript (data : pyval) (key : string) : option pyval :=
  match data with
  | PDict d => dict_get key d
  | _ => None
  end.

(** [os.path.join(user_dir, name)] *)
Definition ends_with_slash (s : string) : bool :=
  match String.get (String.length s - 1) s with
  | Some c => Ascii.eqb c "/"
  | None => false
  end.

Definition path_join (user_dir name : string) : string :=
  if (String.length user_dir =? 0)%nat then name
  else if ends_with_slash user_dir then user_dir ++ name
  else user_dir ++ "/" ++ name.

Section Load.
(** The files of the host: the text of a path, when the path exists. *)
Variable fs : string -> option string.
(** [json.load] on a file's text; [None] is [JSONDecodeError]. *)
Variable json_loads : string -> option json.
(** numpy's global generator: one standard-normal draw and the next
    generator state. *)
Variable rng : Type.
Variable draw : rng -> R * rng.

(** [np.random.randn(n)] *)
Fixpoint randn (n : nat) (s : rng) : list R * rng :=
  match n with
  | O => ([], s)
  | S n' =>
      let (x, s1) := draw s in
      let (xs, s2) := randn n' s1 in
      (x :: xs, s2)
  end.

(** [np.random.randn(n, d)] *)
Fixpoint randn2 (n d : nat) (s : rng) : list (list R) * rng :=
  match n with
  | O => ([], s)
  | S n' =>
      let (row, s1) := randn d s in
      let (rows, s2) := randn2 n' d s1 in
      (row :: rows, s2)
  end.

Definition vec_py (v : list R) : pyval := PList (map PFloat v).
Definition mat_py (m : list (list R)) : pyval := PList (map vec_py m).

(** The three [np.random.randn] calls of the fallback branches. *)
Definition fresh_state (N D : nat) (s : rng) : (pyval * pyval * pyval) * rng :=
  let (w, s1) := randn N s in
  let (psi, s2) := randn2 N D s1 in
  let (W, s3) := randn2 N N s2 in
  ((vec_py w, mat_py psi, mat_py W), s3).




(** The body of the [try] block; [None] is any exception it raises. *)
Definition read_state (text : string) : option (pyval * pyval * pyval) :=
  match json_loads text with
  | None => None
  | Some doc =>
      let data := json_load doc in
      match subscript data "w" with
      | None => None
      | Some vw =>
          match np_array vw with
          | None => None
          | Some w =>
              match subscript data "psi" with
              | None => None
              | Some vpsi =>
                  match np_array vpsi with
                  | None => None
                  | Some psi =>
                      match subscript data "W" with
                      | None => None
                      | Some vW =>
                          match np_array vW with
                          | None => None
                          | Some W => Some (w, psi, W)
                          end
                      end
                  end
              end
          end
      end
  end.

(** [load_qpf_math_state(user_dir, N, D)]: the state returned and the
    generator state left behind. *)
Definition load_qpf_math_state (user_dir : string) (N D : nat) (s : rng)
  : (pyval * pyval * pyval) * rng :=
  let path := path_join user_dir "qpf_weights.json" in
  match fs path with
  | Some text =>
      if (0 <? String.length text)%nat then
        match read_state text with
        | Some st => (st, s)
        | None => fresh_state N D s
        end
      else fresh_state N D s
  | None => fresh_state N D s
  end.
End Load.

End FieldStateStore.

(* ================================================================== *)
(** * Concrete events and graphs used in examples                      *)
(* ================================================================== *)

Module Examples.
Import Py DateTime MemoryGraph.
Local Open Scope string_scope.
Local Open Scope Z_scope.

Definition noon : datetime := Build_datetime 2024 2 29 12 0 0 0 None.
Definition later : datetime := Build_datetime 2024 2 29 12 0 1 500000 None.

Definition ev_a : MemoryEvent :=
  Build_MemoryEvent "a" noon "user_input" [(KStr "text", PStr "hello")].
Definition ev_b : MemoryEvent :=
  Build_MemoryEvent "b" later "q_response" [(KStr "text", PStr "hi there")].

Definition graph_a : DiGraph := snd (add_event empty_graph ev_a).
Definition graph_ab : DiGraph := snd (add_event graph_a ev_b).

(** An event whose payload holds a tuple. *)
Definition ev_t : MemoryEvent :=
  Build_MemoryEvent "t" noon "sensor_reading"
    [(KStr "position", PTuple [PInt 1; PInt 2])].
Definition graph_t : DiGraph := snd (add_event empty_graph ev_t).

(** An aware event (UTC), an event whose offset has seconds, and an event
    whose payload holds an object of a foreign class. *)
Definition noon_utc : datetime := Build_datetime 2024 2 29 12 0 0 0 (Some 0).
Definition noon_lmt : datetime := Build_datetime 2024 2 29 12 0 0 0 (Some 19815).

Definition ev_c : MemoryEvent :=
  Build_MemoryEvent "c" noon_utc "sensor_reading" [(KStr "sense", PStr "audio")].
Definition ev_d : MemoryEvent :=
  Build_MemoryEvent "d" later "q_response" [(KStr "text", PStr "later")].
Definition ev_s : MemoryEvent :=
  Build_MemoryEvent "s" noon_lmt "sensor_reading" [(KStr "sense", PStr "vision")].
Definition ev_o : MemoryEvent :=
  Build_MemoryEvent "o" noon "collapse" [(KStr "weights", PObject "numpy.ndarray")].

Definition graph_ac : DiGraph := snd (add_event graph_a ev_c).
Definition graph_s : DiGraph := snd (add_event empty_graph ev_s).
Definition graph_o : DiGraph := snd (add_event empty_graph ev_o).

(** An embedder that maps every text to the zero vector of length one. *)
Definition zero_embedder (_ : string) : list R := [0%R].
Definition no_repr (_ : pydict) : string := "".

(** A host without files, and a host whose only file is the weights file of
    user [u1]; a parser that rejects everything, and one that reads the
    stored document; a generator that counts its draws. *)
Definition no_files (_ : string) : option string := None.





Definition counter_draw (n : nat) : R * nat := (INR n, S n).
End Examples.

(* ================================================================== *)
(** * Queries on the event graph ([q_core_modules/memory_graph.py])    *)
(* ================================================================== *)

Module GraphQueries.
Import Py DateTime MemoryGraph.
Local Open Scope string_scope.
Local Open Scope list_scope.

(** [matches.sort(key=..., reverse=True)]: the stable descending sort of
    [add_event], on any list with a timestamp key. *)
Fixpoint insert_desc_by (A : Type) (key : A -> datetime) (x : A) (l : list A)
  : outcome (list A) :=
  match l with
  | [] => Returns [x]
  | y :: l' =>
      bind (dt_lt (key y) (key x)) (fun smaller =>
        if smaller then Returns (x :: y :: l')
        else bind (insert_desc_by key x l') (fun r => Returns (y :: r)))
  end.

Definition sort_desc_by (A : Type) (key : A -> datetime) (l : list A)
  : outcome (list A) :=
  fold_left (fun acc x => bind acc (insert_desc_by key x)) l (Returns []).

(** The Python slice [l[:k]] for an integer [k]: the first [k] items when
    [k >= 0]; a negative [k] leaves out the last [|k|] items. *)
Definition slice_first (A : Type) (k : Z) (l : list A) : list A :=
  let n := Z.of_nat (List.length l) in
  let stop := if (0 <=? k)%Z then Z.min k n else Z.max (n + k) 0 in
  firstn (Z.to_nat stop) l.

(** [retrieve(filter_fn, max_results)] *)
Definition retrieve (g : DiGraph) (filter_fn : MemoryEvent -> bool) (max_results : Z)
  : outcome (list MemoryEvent) :=
  let matches := filter filter_fn (map snd (nodes g)) in
  bind (sort_desc_by timestamp matches) (fun sorted =>
    Returns (slice_first max_results sorted)).

(** [G._adj[v]]: the successors of [v], in the order their edges were first
    added. *)
Definition successors (g : DiGraph) (v : string) : list string :=
  map (fun e => snd (fst e))
      (filter (fun e => String.eqb (fst (fst e)) v) (edges g)).

Definition mem (x : string) (l : list string) : bool := existsb (String.eqb x) l.

(** [nx.single_source_shortest_path_length(G, source, cutoff)], a
    breadth-first search by levels.  The state is the pair of the nodes seen
    so far, in the order they were found, and the level being built; one
    step of the inner loop is
    [if w not in seen: seen.add(w); nextlevel.append(w); yield (w, level)].
    The loop runs while the level is non-empty and below the cutoff.  The
    result lists the keys of the returned dictionary; the distances, which
    [related] does not read, are left out. *)
Definition visit (acc : list string * list string) (w : string)
  : list string * list string :=
  if mem w (fst acc) then acc else (fst acc ++ [w], snd acc ++ [w]).

Definition expand (g : DiGraph) (acc : list string * list string) (v : string)
  : list string * list string :=
  fold_left visit (successors g v) acc.

Fixpoint bfs_levels (g : DiGraph) (cutoff : nat) (seen thislevel : list string)
  : list string :=
  match cutoff, thislevel with
  | S c, _ :: _ =>
      let (seen', nextlevel) := fold_left (expand g) thislevel (seen, []) in
      bfs_levels g c seen' nextlevel
  | _, _ => seen
  end.

Definition single_source_shortest_path_length (g : DiGraph) (source : string)
  (cutoff : Z) : list string :=
  bfs_levels g (Z.to_nat cutoff) [source] [source].

(** [[self.graph.nodes[n]['event'] for n in ns]] *)
Fixpoint events_at (g : DiGraph) (ns : list string) : outcome (list MemoryEvent) :=
  match ns with
  | [] => Returns []
  | n :: ns' =>
      match assoc_get String.eqb n (nodes g) with
      | Some ev => bind (events_at g ns') (fun evs => Returns (ev :: evs))
      | None => Raises KeyError
      end
  end.

(** [related(event_id, depth)] *)
Definition related (g : DiGraph) (event_id : string) (depth : Z)
  : outcome (list MemoryEvent) :=
  if has_node g event_id then
    let lengths := single_source_shortest_path_length g event_id depth in
    events_at g (filter (fun n => negb (String.eqb n event_id)) lengths)
  else Raises KeyError.

(** The nodes at most [d] edges away from [root]. *)
Inductive within (g : DiGraph) (root : string) : nat -> string -> Prop :=
| within_root d : within g root d root
| within_step d u v r :
    within g root d u -> In ((u, v), r) (edges g) -> within g root (S d) v.

(** [G.degree()] of a directed graph: in-degree plus out-degree. *)
Definition degree (g : DiGraph) (n : string) : nat :=
  List.length (filter (fun e => String.eqb (fst (fst e)) n) (edges g))
  + List.length (filter (fun e => String.eqb (snd (fst e)) n) (edges g)).

(** [avg_degree()] *)
Definition avg_degree (g : DiGraph) : R :=
  let n := node_count g in
  if (n =? 0)%nat then 0%R
  else (INR (fold_right Nat.add 0%nat (map (fun p => degree g (fst p)) (nodes g)))
        / INR n)%R.

(** A caller that adds events one after the other ([chat] in main.py, the
    sensor sampler, a counterfactual branch): it stops at the first call
    that raises. *)
Fixpoint add_events (g : DiGraph) (evs : list MemoryEvent) : outcome unit * DiGraph :=
  match evs with
  | [] => (Returns tt, g)
  | ev :: rest =>
      match add_event g ev with
      | (Returns _, g') => add_events g' rest
      | (Raises e, g') => (Raises e, g')
      end
  end.

End GraphQueries.

(** Notions the statements about the queries are written with. *)
Module GraphQuerySpecs.
Import Py DateTime MemoryGraph GraphQueries.
Local Open Scope string_scope.
Local Open Scope list_scope.

(** Newest first: [a] may stand before [b] in a list sorted by descending
    timestamp. *)
Definition newer_eq (A : Type) (key : A -> datetime) (a b : A) : Prop :=
  (sort_instant (key b) <= sort_instant (key a))%Z.

(** The state of the breadth-first search after the levels up to [d]: the
    nodes seen are those within [d] edges of the root, and every node seen
    that is not in the current level has all its successors seen. *)
Record bfs_inv (g : DiGraph) (root : string) (d : nat) (seen level : list string)
  : Prop := {
  inv_seen : forall v, In v seen <-> within g root d v;
  inv_level : forall v, In v level -> In v seen;
  inv_done : forall u v, In u seen -> ~ In u level ->
                         In v (successors g u) -> In v seen;
  inv_nodup : NoDup seen
}.

Definition total (l : list nat) : nat := fold_right Nat.add 0%nat l.

(** The node [add_event] stores an event under. *)
Definition node_of (e : MemoryEvent) : string * MemoryEvent := (id e, e).

(** The [next_in_time] edges that join each event of a list to the next. *)
Fixpoint chain (evs : list MemoryEvent) : list ((string * string) * string) :=
  match evs with
  | a :: (b :: _) as rest => ((id a, id b), "next_in_time") :: chain rest
  | _ => []
  end.

End GraphQuerySpecs.

(* ================================================================== *)
(** * Batch retrieval ([q_core_modules/contextual_retriever.py])       *)
(* ================================================================== *)

Module RetrieverBatch.
Import Py DateTime MemoryGraph MathCore ContextualRetriever.
Local Open Scope string_scope.
Local Open Scope list_scope.

Section Batch.
Variable embedder : string -> list R.
Variable py_str : pydict -> string.
Variable np_argsort : list R -> list nat.

(** [retrieve_semantic_batch(texts, k)]:
    [[self.retrieve_semantic(text, k) for text in texts]], the cache being
    threaded through the calls; the first call that raises ends the
    comprehension. *)
Fixpoint retrieve_semantic_batch (c : cache) (g : DiGraph) (texts : list string)
  (k : Z) : outcome (list (list MemoryEvent)) * cache :=
  match texts with
  | [] => (Returns [], c)
  | text :: rest =>
      match retrieve_semantic embedder py_str np_argsort c g text k with
      | (Returns res, c1) =>
          match retrieve_semantic_batch c1 g rest k with
          | (Returns more, c2) => (Returns (res :: more), c2)
          | (Raises e, c2) => (Raises e, c2)
          end
      | (Raises e, c1) => (Raises e, c1)
      end
  end.

(** A cache whose entries are what the body computes on the graph [g]. *)
Definition coherent (c : cache) (g : DiGraph) : Prop :=
  forall key res, In (key, res) c ->
    retrieve_semantic_body embedder py_str np_argsort g (fst key) (snd key)
    = Returns res.
End Batch.

End RetrieverBatch.

(* ================================================================== *)
(** * The files of a user directory ([main.py])                        *)
(* ================================================================== *)

Module UserFiles.
Import Py FieldStateStore.
Local Open Scope string_scope.
Local Open Scope list_scope.

(** The regular files of the host: the text of a path, when the path
    exists.  Directories, permissions and I/O errors are not modelled. *)
Definition files := string -> option string.

(** [with open(path, "w") as f: f.write(text)] *)
Definition write_file (fs : files) (path text : string) : files :=
  fun p => if String.eqb p path then Some text else fs p.

Definition REQUIRED_FILES : list string :=
  [ "autobiography.jsonl"; "counterfactual_log.jsonl"; "curiosity_log.jsonl";
    "health_log.jsonl"; "introspection.log"; "journal.jsonl";
    "journal_summary.jsonl"; "meta_awareness.jsonl"; "memory_tags.jsonl";
    "meta_reflections.jsonl"; "q_journal.txt"; "session_context.jsonl";
    "user_input.jsonl"; "uncertainty_log.jsonl"; "volition_seeds.jsonl";
    "q_memory.json"; "qpf_weights.json" ].

(** [s.endswith(suffix)] *)
Definition ends_with (suffix s : string) : bool :=
  let n := String.length s in
  let m := String.length suffix in
  (m <=? n)%nat && String.eqb (substring (n - m) m s) suffix.

(** One round of the loop of [ensure_user_files]: a missing file is created,
    holding [{}] when its name ends in [.json] (what [json.dump({}, fp)]
    writes) and nothing otherwise. *)
Definition ensure_file (user_dir : string) (fs : files) (f : string) : files :=
  let p := path_join user_dir f in
  match fs p with
  | Some _ => fs
  | None => write_file fs p (if ends_with ".json" f then "{}" else "")
  end.

(** [ensure_user_files(user_dir)] *)
Definition ensure_user_files (fs : files) (user_dir : string) : files :=
  fold_left (ensure_file user_dir) REQUIRED_FILES fs.

Section Save.
(** The text [json.dump] writes for a document. *)
Variable json_dumps : json -> string.

(** [save_qpf_math_state(user_dir, w, psi, W)] for a weight vector and two
    matrices; [tolist()] gives their nested lists of floats.  [None] stands
    for an exception of [json.dump]. *)
Definition save_qpf_math_state (fs : files) (user_dir : string)
  (w : list R) (psi W : list (list R)) : option files :=
  let path := path_join user_dir "qpf_weights.json" in
  let data := PDict [ (KStr "w", vec_py w); (KStr "psi", mat_py psi);
                      (KStr "W", mat_py W) ] in
  match json_dump data with
  | Some doc => Some (write_file fs path (json_dumps doc))
  | None => None
  end.
End Save.

End UserFiles.

(* ================================================================== *)
(** * Counterfactual branches ([q_core_modules/counterfactual.py])     *)
(* ================================================================== *)

Module Counterfactual.
Import Py DateTime MemoryGraph GraphQueries.
Local Open Scope string_scope.
Local Open Scope list_scope.

Section Branch.
(** Python's [sum] over the values found; it raises on a value that cannot
    be added to a number. *)
Variable py_sum : list pyval -> outcome R.
(** The id ([uuid.uuid4]) and the timestamp ([datetime.utcnow]) that the
    [i]-th event created in the branch gets from its default factories. *)
Variable fresh : nat -> string * datetime.

(** [MemoryEvent(type="anchor_tweak", payload={"anchor": anchor, "delta": delta})] *)
Definition tweak_event (i : nat) (m : string * R) : MemoryEvent :=
  Build_MemoryEvent (fst (fresh i)) (snd (fresh i)) "anchor_tweak"
    [ (KStr "anchor", PStr (fst m)); (KStr "delta", PFloat (snd m)) ].

(** [MemoryEvent(type="collapse", payload={"counterfactual": True})] *)
Definition collapse_event (i : nat) : MemoryEvent :=
  Build_MemoryEvent (fst (fresh i)) (snd (fresh i)) "collapse"
    [ (KStr "counterfactual", PBool true) ].

Fixpoint tweak_events (i : nat) (modifiers : list (string * R)) : list MemoryEvent :=
  match modifiers with
  | [] => []
  | m :: ms => tweak_event i m :: tweak_events (S i) ms
  end.

(** The events a branch adds to its copy of the graph, in order. *)
Definition branch_events (modifiers : list (string * R)) : list MemoryEvent :=
  tweak_events 0 modifiers ++ [collapse_event (List.length modifiers)].

(** [[ev.payload.get("valence", 0.0) for ... if "valence" in ev.payload]] *)
Definition valences (g : DiGraph) : list pyval :=
  flat_map (fun p => match dict_get "valence" (payload (snd p)) with
                     | Some v => [v]
                     | None => []
                     end) (nodes g).

(** [sum(vals) / (len(vals) or 1)] *)
Definition score (g : DiGraph) : outcome R :=
  let vals := valences g in
  bind (py_sum vals) (fun total =>
    Returns (total / INR (if (List.length vals =? 0)%nat then 1 else List.length vals))%R).

(** [run_branch(modifiers)] on a store holding the graph [g]: the score of
    the branch.  The branch works on a deep copy, so the store keeps [g];
    the two other fields of the result (the time of the run and the
    modifiers, as given) and the line appended to the log are left out. *)
Definition run_branch (g : DiGraph) (modifiers : list (string * R)) : outcome R :=
  match add_events g (branch_events modifiers) with
  | (Returns _, mg_copy) => score mg_copy
  | (Raises e, _) => Raises e
  end.
End Branch.

End Counterfactual.

(* ================================================================== *)
(** * More concrete values used in examples                            *)
(* ================================================================== *)

Module MoreExamples.
Import Py DateTime FieldStateStore UserFiles.
Local Open Scope string_scope.
Local Open Scope list_scope.
Local Open Scope Z_scope.

(** A small field state, a writer that renders every document as one fixed
    text, and the parser that reads that text back as the document of the
    state; a parser that reads every text as the empty object. *)
Definition w2 : list R := [1%R; 2%R].
Definition psi2 : list (list R) := [[3%R]; [4%R]].
Definition W2 : list (list R) := [[5%R; 6%R]; [7%R; 8%R]].

Definition one_text (_ : json) : string := "{...}".

Definition parse_state (_ : string) : option json :=
  json_dump (PDict [ (KStr "w", vec_py w2); (KStr "psi", mat_py psi2);
                     (KStr "W", mat_py W2) ]).

Definition parse_empty_object (_ : string) : option json := Some (JObj []).

(** Ids and naive timestamps for two new events, and a sum that only takes
    floats. *)
Definition two_stamps (i : nat) : string * datetime :=
  match i with
  | O => ("n0", Build_datetime 2024 3 1 8 0 0 0 None)
  | _ => ("n1", Build_datetime 2024 3 1 8 0 0 1 None)
  end.

Fixpoint float_sum (vals : list pyval) : outcome R :=
  match vals with
  | [] => Returns 0%R
  | PFloat x :: vs => bind (float_sum vs) (fun t => Returns (x + t)%R)
  | _ :: _ => Raises TypeError
  end.
End MoreExamples.

(* ================================================================== *)
(** * Properties                                                       *)
(* ================================================================== *)

(** ** Facts about the field dynamics engine *)

Module MathCoreFacts.
Import MathCore ExpBounds.
Local Open Scope R_scope.

Lemma EPS_pos : 0 < EPS.
Proof. unfold EPS. apply Rinv_0_lt_compat. apply pow_lt. lra. Qed.

Lemma EPS_val : EPS = 1 / 1000000000000.
Proof. unfold EPS. lra. Qed.

Lemma exp_INR_mult (n : nat) (x : R) : exp (INR n * x) = exp x ^ n.
Proof.
  induction n as [|n IH].
  - simpl. rewrite Rmult_0_l. apply exp_0.
  - rewrite S_INR, Rmult_plus_distr_r, Rmult_1_l, exp_plus, IH. simpl. ring.
Qed.

(** (1 + x/n)^n <= exp x *)
Lemma exp_lower_pow (n : nat) (x : R) :
  (0 < n)%nat -> 0 <= 1 + x / INR n -> (1 + x / INR n) ^ n <= exp x.
Proof.
  intros Hn Hpos.
  assert (HnR : 0 < INR n) by (apply lt_0_INR; exact Hn).
  replace (exp x) with (exp (INR n * (x / INR n))).
  - rewrite exp_INR_mult. apply pow_incr. split; [exact Hpos|]. apply exp_ineq1_le.
  - f_equal. field. lra.
Qed.

Lemma fx_sq_sound (y : Z) : (0 <= y)%Z -> 0 <= fx_val (fx_sq y) <= fx_val y ^ 2.
Proof.
  intros Hy. unfold fx_val, fx_sq.
  assert (Hs : (0 < fx_scale)%Z) by reflexivity.
  assert (HsR : 0 < IZR fx_scale) by (apply IZR_lt; exact Hs).
  pose proof (Z.mul_div_le (y * y) fx_scale Hs) as Hle.
  assert (H0 : (0 <= y * y / fx_scale)%Z) by (apply Z.div_pos; nia).
  apply IZR_le in Hle. apply IZR_le in H0. rewrite !mult_IZR in Hle.
  split.
  - apply Rmult_le_pos; [exact H0|]. apply Rlt_le, Rinv_0_lt_compat; exact HsR.
  - apply Rmult_le_reg_r with (IZR fx_scale * IZR fx_scale); [nra|].
    field_simplify; [|lra|lra]. nra.
Qed.

Lemma fx_sq_iter_sound (k : nat) : forall y, (0 <= y)%Z ->
  0 <= fx_val (fx_sq_iter k y) <= fx_val y ^ (2 ^ k).
Proof.
  induction k as [|k IH]; intros y Hy.
  - simpl. rewrite Rmult_1_r. split; [|lra].
    unfold fx_val. apply Rmult_le_pos; [apply IZR_le; exact Hy|].
    apply Rlt_le, Rinv_0_lt_compat, IZR_lt; reflexivity.
  - cbn [fx_sq_iter].
    assert (H0 : (0 <= fx_sq y)%Z) by (apply Z.div_pos; [nia|reflexivity]).
    destruct (IH _ H0) as [Ha Hb]. split; [exact Ha|].
    eapply Rle_trans; [exact Hb|].
    replace (2 ^ S k)%nat with (2 * 2 ^ k)%nat by (simpl; lia).
    rewrite pow_mult. apply pow_incr. apply fx_sq_sound. exact Hy.
Qed.

(** exp x >= fx lower bound *)
Lemma exp_fx_lower (k : nat) (y : Z) (x : R) :
  (0 <= y)%Z -> fx_val y <= 1 + x / INR (2 ^ k) ->
  fx_val (fx_sq_iter k y) <= exp x.
Proof.
  intros Hy Hle.
  destruct (fx_sq_iter_sound k Hy) as [_ Hb].
  eapply Rle_trans; [exact Hb|].
  assert (H0 : 0 <= fx_val y).
  { unfold fx_val. apply Rmult_le_pos; [apply IZR_le; exact Hy|].
    apply Rlt_le, Rinv_0_lt_compat, IZR_lt; reflexivity. }
  eapply Rle_trans; [apply pow_incr; split; [exact H0|exact Hle]|].
  apply exp_lower_pow; [|lra].
  clear. induction k; simpl; lia.
Qed.


Lemma INR_pow2 (k : nat) : INR (2 ^ k) = IZR (2 ^ Z.of_nat k).
Proof.
  rewrite pow_INR. simpl INR. rewrite <- pow_IZR. reflexivity.
Qed.

Lemma exp_fx_cert (k : nat) (y p q : Z) :
  (0 <= y)%Z -> (0 < q)%Z ->
  ((y - fx_scale) * (q * 2 ^ Z.of_nat k) <= p * fx_scale)%Z ->
  fx_val (fx_sq_iter k y) <= exp (IZR p / IZR q).
Proof.
  intros Hy Hq Hc. apply exp_fx_lower; [exact Hy|].
  rewrite INR_pow2. unfold fx_val.
  assert (Hs : 0 < IZR fx_scale) by (apply IZR_lt; reflexivity).
  assert (Hq' : 0 < IZR q) by (apply IZR_lt; exact Hq).
  assert (H2 : 0 < IZR (2 ^ Z.of_nat k)) by (apply IZR_lt, Z.pow_pos_nonneg; lia).
  apply IZR_le in Hc. rewrite !mult_IZR, minus_IZR in Hc.
  apply Rmult_le_reg_r with (IZR fx_scale * (IZR q * IZR (2 ^ Z.of_nat k))).
  - apply Rmult_lt_0_compat; [exact Hs|]. apply Rmult_lt_0_compat; assumption.
  - field_simplify; [|lra|lra]. nra.
Qed.

(** Numeric certificates, evaluated on integers. *)
Lemma exp_ge_4 : 4 <= exp (138633 / 100000).
Proof.
  eapply Rle_trans;
    [|apply (@exp_fx_cert 20 (10 ^ 18 + 138633 * 10 ^ 13 / 2 ^ 20) 138633 100000);
      vm_compute; congruence].
  unfold fx_val.
  apply Rmult_le_reg_r with (IZR fx_scale); [apply IZR_lt; reflexivity|].
  unfold Rdiv. rewrite Rmult_assoc, Rinv_l, Rmult_1_r by (apply not_0_IZR; discriminate).
  rewrite <- mult_IZR. apply IZR_le. vm_compute. discriminate.
Qed.

Lemma exp_neg_gt_quarter : 1 / 4 + EPS <= exp (- 138627 / 100000).
Proof.
  eapply Rle_trans;
    [|apply (@exp_fx_cert 20 (10 ^ 18 - 138627 * 10 ^ 13 / 2 ^ 20 - 1) (- 138627) 100000);
      vm_compute; congruence].
  unfold fx_val. rewrite EPS_val.
  apply Rmult_le_reg_r with (IZR fx_scale); [apply IZR_lt; reflexivity|].
  unfold Rdiv at 3. rewrite Rmult_assoc, Rinv_l, Rmult_1_r by (apply not_0_IZR; discriminate).
  replace ((1 / 4 + 1 / 1000000000000) * IZR fx_scale) with (IZR 250000000001000000) 
    by (unfold fx_scale; simpl; lra).
  apply IZR_le. vm_compute. discriminate.
Qed.

Lemma ln_quarter_eps_bounds :
  - (138633 / 100000) < ln (1 / 4 + EPS) <= - (138627 / 100000).
Proof.
  pose proof EPS_pos as He.
  assert (Hpos : 0 < 1 / 4 + EPS) by lra.
  split.
  - apply exp_lt_inv. rewrite exp_ln by exact Hpos.
    rewrite exp_Ropp.
    apply Rle_lt_trans with (/ 4); [|lra].
    apply Rinv_le_contravar; [lra|exact exp_ge_4].
  - destruct (Rle_or_lt (ln (1 / 4 + EPS)) (- (138627 / 100000))) as [H|H]; [exact H|].
    exfalso. apply exp_increasing in H. rewrite exp_ln in H by exact Hpos.
    pose proof exp_neg_gt_quarter as H'.
    replace (- 138627 / 100000) with (- (138627 / 100000)) in H' by lra. lra.
Qed.

Lemma ln_one_plus_le (x : R) : 0 <= x -> 0 <= ln (1 + x) <= x.
Proof.
  intros Hx. split.
  - destruct Hx as [Hx|<-]; [|rewrite Rplus_0_r, ln_1; lra].
    rewrite <- ln_1. apply Rlt_le, ln_increasing; lra.
  - destruct (Rle_or_lt (ln (1 + x)) x) as [H|H]; [exact H|].
    exfalso. apply exp_increasing in H. rewrite exp_ln in H by lra.
    pose proof (exp_ineq1_le x). lra.
Qed.

Ltac list_R_eq :=
  repeat match goal with
         | |- Some _ = Some _ => apply f_equal
         | |- (_ :: _) = (_ :: _) => apply (f_equal2 (@cons R)); [try lra|]
         | |- [] = [] => reflexivity
         end.

Example activation_zero3 : activation [0; 0; 0] = [1 / 2; 1 / 2; 1 / 2].
Proof.
  unfold activation; simpl. rewrite Ropp_0, exp_0.
  replace (1 / (1 + 1)) with (1 / 2) by lra. reflexivity.
Qed.

Lemma entropy_half3 : entropy [1 / 2; 1 / 2; 1 / 2] = - 3 * (/ 4 * ln (/ 4 + EPS)).
Proof.
  unfold entropy, np_sum; simpl.
  replace (1 / 2 * (1 / 2 * 1)) with (/ 4) by lra. lra.
Qed.

Lemma argmax_half3 : np_argmax [1 / 2; 1 / 2; 1 / 2] = Some 0%nat.
Proof.
  unfold np_argmax; simpl.
  destruct (Rlt_dec (1 / 2) (1 / 2)) as [H|H]; [lra|reflexivity].
Qed.

Lemma collapse_zero3 : collapse_weights [0; 0; 0] 0 (1 / 2) = Some [1 / 2; 0; 0].
Proof.
  unfold collapse_weights; simpl. list_R_eq.
Qed.

Lemma entropy_half3_bounds :
  Rabs (entropy [1 / 2; 1 / 2; 1 / 2] - 10397 / 10000) < 5 / 100000
  /\ Rabs (entropy [1 / 2; 1 / 2; 1 / 2] - - 3 * (/ 4 * ln (/ 4))) <= 3 * EPS.
Proof.
  rewrite entropy_half3.
  pose proof ln_quarter_eps_bounds as [Hl Hu].
  replace (1 / 4) with (/ 4) in Hl, Hu by lra.
  pose proof EPS_pos as He.
  split.
  - apply Rabs_def1; lra.
  - assert (Hd : ln (/ 4 + EPS) = ln (/ 4) + ln (1 + 4 * EPS)).
    { rewrite <- ln_mult by lra. f_equal. lra. }
    pose proof (@ln_one_plus_le (4 * EPS)) as Hb.
    rewrite Hd. apply Rabs_le. lra.
Qed.


(** ** softmax *)

Lemma np_sum_div (c : R) (l : list R) :
  np_sum (map (fun e => e / c) l) = np_sum l / c.
Proof.
  induction l as [|x l IH]; simpl.
  - unfold Rdiv. ring.
  - rewrite IH. unfold Rdiv. ring.
Qed.

Lemma np_sum_exp_nonneg (l : list R) : 0 <= np_sum (map exp l).
Proof.
  induction l as [|x l IH]; simpl; [lra|].
  pose proof (exp_pos x). lra.
Qed.

Lemma fold_left_Rmax_ge (l : list R) : forall x,
  x <= fold_left Rmax l x /\ Forall (fun y => y <= fold_left Rmax l x) l.
Proof.
  induction l as [|y l IH]; intros x; simpl.
  - split; [lra|constructor].
  - destruct (IH (Rmax x y)) as [H1 H2].
    pose proof (Rmax_l x y). pose proof (Rmax_r x y).
    split; [lra|]. constructor; [lra|exact H2].
Qed.

Lemma fold_left_Rmax_in (l : list R) : forall x,
  In (fold_left Rmax l x) (x :: l).
Proof.
  induction l as [|y l IH]; intros x; simpl.
  - left; reflexivity.
  - destruct (IH (Rmax x y)) as [H|H].
    + rewrite <- H. unfold Rmax. destruct (Rle_dec x y); [right; left|left]; reflexivity.
    + right; right; exact H.
Qed.

Lemma np_max_spec (x0 : R) (xs : list R) :
  exists m, np_max (x0 :: xs) = Some m /\ In m (x0 :: xs)
            /\ Forall (fun y => y <= m) (x0 :: xs).
Proof.
  exists (fold_left Rmax xs x0). split; [reflexivity|].
  split; [apply fold_left_Rmax_in|].
  destruct (fold_left_Rmax_ge xs x0) as [H1 H2]. constructor; assumption.
Qed.

Lemma np_sum_exp_shift_ge_1 (m : R) (l : list R) :
  In m l -> 1 <= np_sum (map exp (map (fun xi => xi - m) l)).
Proof.
  induction l as [|x l IH]; simpl; [tauto|].
  intros [->|Hin].
  - rewrite Rminus_diag, exp_0.
    pose proof (np_sum_exp_nonneg (map (fun xi => xi - m) l)). lra.
  - pose proof (exp_pos (x - m)). specialize (IH Hin). lra.
Qed.

Lemma softmax_nonempty (x0 : R) (xs : list R) :
  exists p, softmax (x0 :: xs) = Some p.
Proof. unfold softmax. simpl. eexists. reflexivity. Qed.

Lemma softmax_empty : softmax [] = None.
Proof. reflexivity. Qed.

(** ** entropy *)

End MathCoreFacts.

(** ** Facts about dictionaries as association lists *)

Module AssocFacts.
Import Py.

Section AssocLemmas.
Variables (K V : Type) (eqb : K -> K -> bool).
Hypothesis eqb_eq : forall a b, eqb a b = true <-> a = b.

Lemma eqb_refl' (a : K) : eqb a a = true.
Proof. apply eqb_eq. reflexivity. Qed.

Lemma eqb_neq (a b : K) : a <> b -> eqb a b = false.
Proof.
  intros H. destruct (eqb a b) eqn:E; [|reflexivity].
  apply eqb_eq in E. contradiction.
Qed.

Lemma assoc_mem_In (k : K) (d : list (K * V)) :
  assoc_mem eqb k d = true <-> In k (map fst d).
Proof.
  unfold assoc_mem. induction d as [|[k' v] d IH]; simpl.
  - split; [discriminate|tauto].
  - destruct (eqb k k') eqn:E.
    + apply eqb_eq in E. subst. split; auto.
    + rewrite IH. split; [auto|]. intros [H|H]; [|exact H].
      subst. rewrite eqb_refl' in E. discriminate.
Qed.

Lemma assoc_get_None (k : K) (d : list (K * V)) :
  assoc_get eqb k d = None <-> ~ In k (map fst d).
Proof.
  rewrite <- assoc_mem_In. unfold assoc_mem.
  destruct (assoc_get eqb k d); split; intros H; congruence.
Qed.

Lemma assoc_get_In (k : K) (v : V) (d : list (K * V)) :
  assoc_get eqb k d = Some v -> In (k, v) d.
Proof.
  induction d as [|[k' v'] d IH]; simpl; [discriminate|].
  destruct (eqb k k') eqn:E.
  - apply eqb_eq in E. intros [= ->]. subst. left; reflexivity.
  - intros H. right. apply IH, H.
Qed.

Lemma In_assoc_get (k : K) (v : V) (d : list (K * V)) :
  NoDup (map fst d) -> In (k, v) d -> assoc_get eqb k d = Some v.
Proof.
  induction d as [|[k' v'] d IH]; simpl; [tauto|].
  intros Hnd [H|H].
  - injection H as -> ->. rewrite eqb_refl'. reflexivity.
  - inversion Hnd as [|? ? Hni Hnd']; subst.
    rewrite eqb_neq.
    + apply IH; assumption.
    + intros ->. apply Hni. apply (in_map fst) in H. exact H.
Qed.

Lemma assoc_set_new (k : K) (v : V) (d : list (K * V)) :
  ~ In k (map fst d) -> assoc_set eqb k v d = d ++ [(k, v)].
Proof.
  induction d as [|[k' v'] d IH]; simpl; intros H; [reflexivity|].
  rewrite eqb_neq by (intros ->; apply H; left; reflexivity).
  rewrite IH by tauto. reflexivity.
Qed.

Lemma assoc_set_keys_present (k : K) (v : V) (d : list (K * V)) :
  In k (map fst d) -> map fst (assoc_set eqb k v d) = map fst d.
Proof.
  induction d as [|[k' v'] d IH]; simpl; [tauto|].
  intros H. destruct (eqb k k') eqn:E.
  - apply eqb_eq in E. subst. reflexivity.
  - simpl. f_equal. apply IH. destruct H as [H|H]; [|exact H].
    subst. rewrite eqb_refl' in E. discriminate.
Qed.

Lemma assoc_set_length_present (k : K) (v : V) (d : list (K * V)) :
  In k (map fst d) -> List.length (assoc_set eqb k v d) = List.length d.
Proof.
  intros H. rewrite <- (length_map fst), assoc_set_keys_present by exact H.
  apply length_map.
Qed.

Lemma assoc_get_set_same (k : K) (v : V) (d : list (K * V)) :
  assoc_get eqb k (assoc_set eqb k v d) = Some v.
Proof.
  induction d as [|[k' v'] d IH]; simpl.
  - rewrite eqb_refl'. reflexivity.
  - destruct (eqb k k') eqn:E; simpl.
    + rewrite eqb_refl'. reflexivity.
    + rewrite E. exact IH.
Qed.

Lemma assoc_get_set_other (k k0 : K) (v : V) (d : list (K * V)) :
  k0 <> k -> assoc_get eqb k0 (assoc_set eqb k v d) = assoc_get eqb k0 d.
Proof.
  intros Hne. induction d as [|[k' v'] d IH]; simpl.
  - rewrite eqb_neq by exact Hne. reflexivity.
  - destruct (eqb k k') eqn:E; simpl.
    + apply eqb_eq in E. subst k'. rewrite eqb_neq by exact Hne. reflexivity.
    + rewrite IH. reflexivity.
Qed.

Lemma assoc_set_keys (k : K) (v : V) (d : list (K * V)) :
  map fst (assoc_set eqb k v d)
  = if assoc_mem eqb k d then map fst d else map fst d ++ [k].
Proof.
  destruct (assoc_mem eqb k d) eqn:E.
  - apply assoc_set_keys_present. apply assoc_mem_In. exact E.
  - rewrite assoc_set_new, map_app; [reflexivity|].
    intros H. apply assoc_mem_In in H. congruence.
Qed.

Lemma assoc_set_NoDup (k : K) (v : V) (d : list (K * V)) :
  NoDup (map fst d) -> NoDup (map fst (assoc_set eqb k v d)).
Proof.
  intros H. rewrite assoc_set_keys. destruct (assoc_mem eqb k d) eqn:E; [exact H|].
  apply NoDup_app; [exact H| constructor; [simpl; tauto|constructor] |].
  intros x Hx [<-|[]]. apply assoc_mem_In in Hx. congruence.
Qed.

Lemma assoc_mem_set (k k0 : K) (v : V) (d : list (K * V)) :
  assoc_mem eqb k0 (assoc_set eqb k v d) = eqb k0 k || assoc_mem eqb k0 d.
Proof.
  unfold assoc_mem. destruct (eqb k0 k) eqn:E.
  - apply eqb_eq in E. subst. rewrite assoc_get_set_same. reflexivity.
  - rewrite assoc_get_set_other; [reflexivity|].
    intros ->. rewrite eqb_refl' in E. discriminate.
Qed.
End AssocLemmas.

Lemma pair_eqb_eq (a b : string * string) :
  MemoryGraph.pair_eqb a b = true <-> a = b.
Proof.
  destruct a as [a1 a2], b as [b1 b2]. unfold MemoryGraph.pair_eqb; simpl.
  rewrite andb_true_iff, !String.eqb_eq. split.
  - intros [-> ->]. reflexivity.
  - intros [= -> ->]. split; reflexivity.
Qed.

Lemma pykey_eqb_eq (a b : pykey) : pykey_eqb a b = true <-> a = b.
Proof.
  destruct a, b; simpl; try (split; [discriminate|congruence]).
  - rewrite String.eqb_eq. split; congruence.
  - rewrite Z.eqb_eq. split; congruence.
  - rewrite String.eqb_eq. split; congruence.
Qed.

End AssocFacts.

(** ** Facts about the event graph store *)

Module GraphFacts.
Import Py DateTime MemoryGraph GraphInvariants AssocFacts Examples.
Local Open Scope string_scope.
Local Open Scope list_scope.

Lemma has_node_In (g : DiGraph) (n : string) :
  has_node g n = true <-> In n (map fst (nodes g)).
Proof. apply assoc_mem_In. apply String.eqb_eq. Qed.

Lemma has_node_add_node (g : DiGraph) (n m : string) (ev : MemoryEvent) :
  has_node (add_node g n ev) m = String.eqb m n || has_node g m.
Proof. apply assoc_mem_set. apply String.eqb_eq. Qed.

(** *** The representation invariant is kept *)

Lemma wf_empty : wf_graph empty_graph.
Proof.
  split; simpl; [constructor|constructor|]. intros u v r [].
Qed.

Lemma wf_add_node (g : DiGraph) (n : string) (ev : MemoryEvent) :
  wf_graph g -> wf_graph (add_node g n ev).
Proof.
  intros [Hn He Hc]. split; simpl.
  - apply assoc_set_NoDup; [apply String.eqb_eq|exact Hn].
  - exact He.
  - intros u v r Hin. destruct (Hc u v r Hin) as [Hu Hv].
    rewrite !has_node_add_node, Hu, Hv, !orb_true_r. split; reflexivity.
Qed.

Lemma wf_add_edge (g : DiGraph) (u v r : string) :
  has_node g u = true -> has_node g v = true ->
  wf_graph g -> wf_graph (add_edge g u v r).
Proof.
  intros Hu Hv [Hn He Hc]. split; simpl.
  - exact Hn.
  - apply assoc_set_NoDup; [apply pair_eqb_eq|exact He].
  - intros u' v' r' Hin.
    assert (Hnd : NoDup (map fst (assoc_set pair_eqb (u, v) r (edges g))))
      by (apply assoc_set_NoDup; [apply pair_eqb_eq|exact He]).
    apply (@In_assoc_get _ _ pair_eqb pair_eqb_eq _ _ _ Hnd) in Hin.
    destruct (pair_eqb (u', v') (u, v)) eqn:E.
    + apply pair_eqb_eq in E. injection E as -> ->. split; assumption.
    + rewrite assoc_get_set_other in Hin.
      * apply (Hc u' v' r'). apply (@assoc_get_In _ _ pair_eqb pair_eqb_eq). exact Hin.
      * apply pair_eqb_eq.
      * intros Heq. rewrite Heq in E.
        rewrite (proj2 (pair_eqb_eq (u, v) (u, v)) eq_refl) in E. discriminate.
Qed.

Lemma wf_link_events (g : DiGraph) (src dst relation : string) :
  wf_graph g -> wf_graph (snd (link_events g src dst relation)).
Proof.
  intros H. unfold link_events.
  destruct (has_node g src) eqn:Es, (has_node g dst) eqn:Ed; simpl; try exact H.
  apply wf_add_edge; assumption.
Qed.

Lemma wf_add_event (g : DiGraph) (ev : MemoryEvent) :
  wf_graph g -> wf_graph (snd (add_event g ev)).
Proof.
  intros H. unfold add_event.
  pose proof (wf_add_node (id ev) ev H) as H1.
  destruct (1 <? _)%nat; [|exact H1].
  destruct (sort_desc _) as [[|[last_id ?] ?]|e]; simpl; try exact H1.
  apply wf_link_events. exact H1.
Qed.

Lemma wf_load_nodes (l : list pyval) : forall g g',
  wf_graph g -> load_nodes l g = Some g' -> wf_graph g'.
Proof.
  induction l as [|v l IH]; simpl; intros g g' Hwf H.
  - injection H as <-. exact Hwf.
  - destruct (node_of_py v) as [[n ev]|]; simpl in H; [|discriminate].
    eapply IH; [|exact H]. apply wf_add_node. exact Hwf.
Qed.

Lemma wf_load_edges (l : list pyval) : forall g g',
  wf_graph g -> load_edges l g = Some g' -> wf_graph g'.
Proof.
  induction l as [|v l IH]; simpl; intros g g' Hwf H.
  - injection H as <-. exact Hwf.
  - destruct (edge_of_py v) as [[[u w] r]|]; simpl in H; [|discriminate].
    destruct (has_node g u) eqn:Eu; [|discriminate].
    destruct (has_node g w) eqn:Ew; [|discriminate]. simpl in H.
    eapply IH; [|exact H]. apply wf_add_edge; assumption.
Qed.

Lemma wf_load_json (doc : json) (g : DiGraph) :
  load_json doc = Some g -> wf_graph g.
Proof.
  unfold load_json. destruct (json_load doc); try discriminate.
  destruct (dict_get "directed" d) as [[| [|] | | | | | | |]|]; try discriminate.
  destruct (dict_get "multigraph" d) as [[| [|] | | | | | | |]|]; try discriminate.
  destruct (dict_get "nodes" d) as [[| | | | | ns | | |]|]; try discriminate.
  destruct (dict_get "links" d) as [[| | | | | ls | | |]|]; try discriminate.
  destruct (load_nodes ns empty_graph) as [g1|] eqn:E1; simpl; [|discriminate].
  intros H. eapply wf_load_edges; [|exact H].
  eapply wf_load_nodes; [apply wf_empty|exact E1].
Qed.

Lemma reachable_wf (g : DiGraph) : reachable g -> wf_graph g.
Proof.
  induction 1 as [|doc g H|g ev _ IH|g src dst rel _ IH].
  - apply wf_empty.
  - eapply wf_load_json; exact H.
  - apply wf_add_event; exact IH.
  - apply wf_link_events; exact IH.
Qed.


(** *** [link_events] *)

Lemma link_events_cases (g : DiGraph) (src dst relation : string) :
  (has_node g src = true /\ has_node g dst = true /\
   link_events g src dst relation = (Returns tt, add_edge g src dst relation))
  \/ ((has_node g src = false \/ has_node g dst = false) /\
      link_events g src dst relation = (Raises KeyError, g)).
Proof.
  unfold link_events.
  destruct (has_node g src), (has_node g dst); simpl; auto.
Qed.

Lemma edges_add_edge_get (g : DiGraph) (u v r : string) :
  assoc_get pair_eqb (u, v) (edges (add_edge g u v r)) = Some r.
Proof. apply assoc_get_set_same. apply pair_eqb_eq. Qed.

Lemma edges_add_edge_other (g : DiGraph) (u v r : string) (p : string * string) :
  p <> (u, v) ->
  assoc_get pair_eqb p (edges (add_edge g u v r)) = assoc_get pair_eqb p (edges g).
Proof. intros H. apply assoc_get_set_other; [apply pair_eqb_eq|exact H]. Qed.

(** *** The stable descending sort of [add_event] *)

Lemma dt_lt_same_kind (a b : datetime) :
  is_aware a = is_aware b -> dt_lt a b = Returns (sort_instant a <? sort_instant b)%Z.
Proof.
  unfold is_aware, dt_lt.
  destruct (utcoffset a), (utcoffset b); intros H; try discriminate; reflexivity.
Qed.

Lemma insert_desc_ok (x : string * datetime) (l : list (string * datetime)) :
  (forall y, In y l -> is_aware (snd y) = is_aware (snd x)) ->
  exists r,
    insert_desc x l = Returns r /\
    hd_error r = Some (match l with
                       | [] => x
                       | y :: _ => if ts_lt y x then x else y
                       end) /\
    (forall z, In z r <-> z = x \/ In z l).
Proof.
  induction l as [|y l IH]; intros Hk.
  - exists [x]. simpl. split; [reflexivity|]. split; [reflexivity|].
    intros z. split; [intros [<-|[]]; left; reflexivity|intros [->|[]]; left; reflexivity].
  - simpl. rewrite dt_lt_same_kind by (apply Hk; left; reflexivity). simpl.
    unfold ts_lt. destruct (sort_instant (snd y) <? sort_instant (snd x))%Z.
    + exists (x :: y :: l). simpl. split; [reflexivity|]. split; [reflexivity|].
      intros z. split; [intros [<-|H]; [left; reflexivity|right; exact H]
                       |intros [->|H]; [left; reflexivity|right; exact H]].
    + destruct IH as (r & -> & _ & Hin); [intros z Hz; apply Hk; right; exact Hz|].
      exists (y :: r). simpl. split; [reflexivity|]. split; [reflexivity|].
      intros z. rewrite Hin. tauto.
Qed.

Lemma sort_desc_from (l : list (string * datetime)) : forall a,
  (forall p q, In p (a ++ l) -> In q (a ++ l) -> is_aware (snd p) = is_aware (snd q)) ->
  exists r,
    fold_left (fun acc x => bind acc (insert_desc x)) l (Returns a) = Returns r /\
    hd_error r = fold_left latest_step l (hd_error a) /\
    (forall z, In z r <-> In z a \/ In z l).
Proof.
  induction l as [|x l IH]; intros a Hk.
  - exists a. simpl. split; [reflexivity|]. split; [reflexivity|]. intros z; tauto.
  - simpl.
    destruct (@insert_desc_ok x a) as (r1 & E1 & Hhd & Hin1).
    { intros y Hy. apply Hk; apply in_or_app; [left; exact Hy|right; left; reflexivity]. }
    rewrite E1.
    destruct (IH r1) as (r & E & Hh & Hin).
    { intros p q Hp Hq. apply Hk.
      - apply in_app_or in Hp. apply in_or_app. destruct Hp as [Hp|Hp].
        + apply Hin1 in Hp. destruct Hp as [->|Hp]; [right; left; reflexivity|left; exact Hp].
        + right; right; exact Hp.
      - apply in_app_or in Hq. apply in_or_app. destruct Hq as [Hq|Hq].
        + apply Hin1 in Hq. destruct Hq as [->|Hq]; [right; left; reflexivity|left; exact Hq].
        + right; right; exact Hq. }
    exists r. split; [exact E|]. split.
    + rewrite Hh, Hhd. f_equal.
      destruct a as [|p a]; simpl; [reflexivity|]. destruct (ts_lt p x); reflexivity.
    + intros z. rewrite Hin, Hin1. simpl. intuition (subst; auto).
Qed.

Lemma sort_desc_head (l : list (string * datetime)) :
  (forall p q, In p l -> In q l -> is_aware (snd p) = is_aware (snd q)) ->
  exists r, sort_desc l = Returns r /\ hd_error r = first_latest l.
Proof.
  intros Hk. destruct (@sort_desc_from l []) as (r & E & Hh & _); [exact Hk|].
  exists r. split; [exact E|exact Hh].
Qed.

Lemma latest_from_spec (l : list (string * datetime)) : forall c,
  exists m, fold_left latest_step l (Some c) = Some m /\
    ((m = c /\ forall y, In y l -> (sort_instant (snd y) <= sort_instant (snd c))%Z)
     \/ exists l1 l2,
          l = l1 ++ m :: l2 /\
          (sort_instant (snd c) < sort_instant (snd m))%Z /\
          (forall y, In y l1 -> (sort_instant (snd y) < sort_instant (snd m))%Z) /\
          (forall y, In y l2 -> (sort_instant (snd y) <= sort_instant (snd m))%Z)).
Proof.
  induction l as [|x l IH]; intros c.
  - exists c. split; [reflexivity|]. left. split; [reflexivity|]. intros y [].
  - simpl. unfold ts_lt. destruct (Z.ltb_spec (sort_instant (snd c)) (sort_instant (snd x))) as [Hlt|Hge].
    + destruct (IH x) as (m & E & [[-> Hall]|(l1 & l2 & -> & Hxm & H1 & H2)]).
      * exists x. split; [exact E|]. right. exists [], l. repeat split; try assumption.
        intros y [].
      * exists m. split; [exact E|]. right. exists (x :: l1), l2.
        repeat split; try assumption; [lia|].
        intros y [<-|Hy]; [exact Hxm|apply H1; exact Hy].
    + destruct (IH c) as (m & E & [[-> Hall]|(l1 & l2 & -> & Hcm & H1 & H2)]).
      * exists c. split; [exact E|]. left. split; [reflexivity|].
        intros y [<-|Hy]; [exact Hge|apply Hall; exact Hy].
      * exists m. split; [exact E|]. right. exists (x :: l1), l2.
        repeat split; try assumption.
        intros y [<-|Hy]; [lia|apply H1; exact Hy].
Qed.

Lemma first_latest_spec (x : string * datetime) (l : list (string * datetime)) :
  exists l1 m l2,
    first_latest (x :: l) = Some m /\ x :: l = l1 ++ m :: l2 /\
    (forall y, In y l1 -> (sort_instant (snd y) < sort_instant (snd m))%Z) /\
    (forall y, In y l2 -> (sort_instant (snd y) <= sort_instant (snd m))%Z).
Proof.
  unfold first_latest. simpl.
  destruct (latest_from_spec l x) as (m & E & [[-> Hall]|(l1 & l2 & -> & Hxm & H1 & H2)]).
  - exists [], x, l. repeat split; try assumption. intros y [].
  - exists (x :: l1), m, l2. repeat split; try assumption.
    intros y [<-|Hy]; [exact Hxm|apply H1; exact Hy].
Qed.


(** *** [add_event] *)

Lemma filter_fresh (g : DiGraph) (ev : MemoryEvent) :
  has_node g (id ev) = false ->
  filter (fun p => negb (String.eqb (fst p) (id ev))) (nodes g ++ [(id ev, ev)])
  = nodes g.
Proof.
  intros Hf.
  assert (Hni : ~ In (id ev) (map fst (nodes g))).
  { intros H. apply has_node_In in H. congruence. }
  rewrite filter_app. simpl. rewrite String.eqb_refl. simpl. rewrite app_nil_r.
  clear Hf. induction (nodes g) as [|[n e] l IH]; simpl; [reflexivity|].
  destruct (String.eqb_spec n (id ev)) as [->|Hne]; simpl.
  - exfalso. apply Hni. left. reflexivity.
  - f_equal. apply IH. intros H. apply Hni. right. exact H.
Qed.

Lemma add_event_empty (ev : MemoryEvent) :
  add_event empty_graph ev
  = (Returns tt, {| nodes := [(id ev, ev)]; edges := [] |}).
Proof. reflexivity. Qed.

(** *** Outside the hypotheses of the linking lemmas *)

(** An event whose id is already a node overwrites that node; on a graph
    that holds only this node nothing is linked. *)
Example add_event_same_id_again :
  add_event graph_a ev_a = (Returns tt, graph_a) /\ edges graph_a = [].
Proof. split; reflexivity. Qed.

(** A naive and an aware timestamp cannot be ordered: with both among the
    prior nodes the sort raises [TypeError], after the node was added. *)
Example add_event_mixed_timestamps :
  add_event graph_ac ev_d
  = (Raises TypeError,
     {| nodes := [("a", ev_a); ("c", ev_c); ("d", ev_d)];
        edges := [(("a", "c"), "next_in_time")] |}).
Proof. vm_compute. reflexivity. Qed.

End GraphFacts.

(** ** Facts about the semantic retriever *)

Module RetrieverFacts.
Import Py DateTime MemoryGraph MathCore ContextualRetriever.
Local Open Scope R_scope.

(** *** The insertion argsort is stable and meets the contract *)

Section ArgsortLemmas.
Variable v : nat -> R.





End ArgsortLemmas.


(** *** Slicing and reversing a sorted list *)









Lemma combine_map_same (A B C : Type) (f : A -> B) (g : A -> C) (l : list A) :
  combine (map f l) (map g l) = map (fun x => (f x, g x)) l.
Proof. induction l as [|x l IH]; simpl; [reflexivity|]. rewrite IH. reflexivity. Qed.





(** *** What the contract gives of the slice taken by the retriever *)






Section RetrieverLemmas.
Variable embedder : string -> list R.
Variable py_str : pydict -> string.


Lemma similarities_map (q : list R) (events : list MemoryEvent) :
  similarities embedder py_str q events
  = map (fun ev => safe_divide (np_dot (embedder (event_text py_str ev)) q) (np_norm (embedder (event_text py_str ev)) * np_norm q))
        events.
Proof.
  unfold similarities. rewrite combine_map_same, !map_map. reflexivity.
Qed.

End RetrieverLemmas.

End RetrieverFacts.

Module RetrieverExamples.
Import Py DateTime MemoryGraph MathCore ContextualRetriever RetrieverFacts Examples.
Local Open Scope R_scope.

Lemma graph_ab_nodes : nodes graph_ab = [("a"%string, ev_a); ("b"%string, ev_b)].
Proof. reflexivity. Qed.

Lemma zero_sims :
  similarities zero_embedder no_repr (zero_embedder "q") (map snd (nodes graph_ab))
  = [0; 0].
Proof.
  rewrite similarities_map, graph_ab_nodes. simpl.
  unfold zero_embedder. 
  assert (H : forall n, safe_divide (np_dot [0] [0]) n = 0).
  { intros n. unfold safe_divide, np_dot. simpl. destruct (Req_dec_T n 0); [reflexivity|].
    unfold Rdiv. ring. }
  rewrite !H. reflexivity.
Qed.

Lemma argsort_zero2 : stable_argsort [0; 0] = [0%nat; 1%nat].
Proof.
  unfold stable_argsort. simpl.
  destruct (Rlt_dec 0 0) as [H|H]; [lra|reflexivity].
Qed.

Lemma k_zero_returns_all :
  retrieve_semantic_body zero_embedder no_repr stable_argsort graph_ab "q" 0
  = Returns [ev_b; ev_a].
Proof.
  unfold retrieve_semantic_body. rewrite graph_ab_nodes.
  cbv beta iota zeta.
  replace (forallb _ _) with true by reflexivity.
  change (map snd [("a"%string, ev_a); ("b"%string, ev_b)]) with (map snd (nodes graph_ab)).
  rewrite zero_sims, argsort_zero2. reflexivity.
Qed.
End RetrieverExamples.

(** ** Facts about the field state loader *)

Module FieldStateFacts.
Import Py FieldStateStore.
Local Open Scope string_scope.
Local Open Scope list_scope.

Section LoadLemmas.
Variable fs : string -> option string.
Variable json_loads : string -> option json.
Variable rng : Type.
Variable draw : rng -> R * rng.




Lemma read_state_stored (text : string) (doc : json) (w psi W : pyval) :
  json_loads text = Some doc ->
  subscript (json_load doc) "w" = Some w ->
  subscript (json_load doc) "psi" = Some psi ->
  subscript (json_load doc) "W" = Some W ->
  shape_of w <> None -> shape_of psi <> None -> shape_of W <> None ->
  read_state json_loads text = Some (w, psi, W).
Proof.
  intros Hdoc Hw Hpsi HW Sw Spsi SW. unfold read_state, np_array.
  rewrite Hdoc, Hw, Hpsi, HW.
  destruct (shape_of w); [|contradiction].
  destruct (shape_of psi); [|contradiction].
  destruct (shape_of W); [|contradiction]. reflexivity.
Qed.

End LoadLemmas.

End FieldStateFacts.

(** ** Facts about timestamps *)

Module DateTimeFacts.
Import Py DateTime.
Local Open Scope string_scope.
Local Open Scope list_scope.
Local Open Scope Z_scope.

Lemma digit_val_char (d : Z) : 0 <= d < 10 -> digit_val (digit_char d) = Some d.
Proof.
  intros H.
  assert (Hd : d = 0 \/ d = 1 \/ d = 2 \/ d = 3 \/ d = 4 \/ d = 5 \/ d = 6
               \/ d = 7 \/ d = 8 \/ d = 9) by lia.
  repeat (destruct Hd as [->|Hd]; [reflexivity|]). subst. reflexivity.
Qed.

Lemma digit_range (n : Z) (w : nat) : 0 <= (n / 10 ^ Z.of_nat w) mod 10 < 10.
Proof. apply Z.mod_pos_bound. lia. Qed.

Lemma mod_pow10_succ (n : Z) (w : nat) :
  n mod 10 ^ Z.of_nat (S w)
  = (n / 10 ^ Z.of_nat w) mod 10 * 10 ^ Z.of_nat w + n mod 10 ^ Z.of_nat w.
Proof.
  rewrite Nat2Z.inj_succ, Z.pow_succ_r by lia.
  rewrite (Z.mul_comm 10), Z.rem_mul_r by lia. ring.
Qed.

Lemma parse_put_digits (w : nat) : forall acc n rest,
  parse_digits w acc (put_digits w n rest)
  = Some (acc * 10 ^ Z.of_nat w + n mod 10 ^ Z.of_nat w, rest).
Proof.
  induction w as [|w IH]; intros acc n rest.
  - simpl. rewrite Z.mod_1_r. f_equal. f_equal. lia.
  - cbn [put_digits parse_digits].
    rewrite digit_val_char by apply digit_range.
    rewrite IH, (mod_pow10_succ n w). f_equal. f_equal.
    rewrite Nat2Z.inj_succ, Z.pow_succ_r by lia. ring.
Qed.

Lemma parse_put_small (w : nat) (n : Z) (rest : string) :
  0 <= n < 10 ^ Z.of_nat w ->
  parse_digits w 0 (put_digits w n rest) = Some (n, rest).
Proof.
  intros H. rewrite parse_put_digits, Z.mod_small by exact H. reflexivity.
Qed.

Lemma take_put_digits (w : nat) (n : Z) (rest : string) :
  no_digit_ahead rest ->
  take_digits (put_digits w n rest) = (digits_of w n, rest).
Proof.
  intros Hr. induction w as [|w IH]; cbn [put_digits digits_of take_digits].
  - destruct rest as [|c r]; [reflexivity|]. cbn [no_digit_ahead] in Hr.
    cbn [take_digits]. rewrite Hr. reflexivity.
  - rewrite digit_val_char by apply digit_range. rewrite IH. reflexivity.
Qed.

Lemma fold_digits_of (w : nat) : forall acc n,
  fold_left (fun a d => a * 10 + d) (digits_of w n) acc
  = acc * 10 ^ Z.of_nat w + n mod 10 ^ Z.of_nat w.
Proof.
  induction w as [|w IH]; intros acc n.
  - simpl. rewrite Z.mod_1_r. lia.
  - cbn [digits_of fold_left]. rewrite IH, (mod_pow10_succ n w).
    rewrite Nat2Z.inj_succ, Z.pow_succ_r by lia. ring.
Qed.

Lemma digits_of_length (w : nat) (n : Z) : List.length (digits_of w n) = w.
Proof. induction w as [|w IH]; simpl; [reflexivity|]. rewrite IH. reflexivity. Qed.

Lemma format_offset_no_digit (off : option Z) : no_digit_ahead (format_offset off).
Proof.
  destruct off as [o|]; [|exact I].
  unfold format_offset. destruct (o <? 0); reflexivity.
Qed.

Lemma parse_fraction_format (us : Z) (off : option Z) :
  0 <= us < 1000000 ->
  parse_fraction (if us =? 0 then format_offset off
                  else String "." (put_digits 6 us (format_offset off)))
  = Some (us, format_offset off).
Proof.
  intros Hus. destruct (Z.eqb_spec us 0) as [->|Hne].
  - change (0 =? 0) with true. cbv iota.
    destruct off as [o|]; [|reflexivity].
    unfold format_offset. destruct (o <? 0); reflexivity.
  - unfold parse_fraction.
    replace (Ascii.eqb "." "." || Ascii.eqb "." ",")%bool with true by reflexivity.
    rewrite take_put_digits by apply format_offset_no_digit.
    assert (Hl := digits_of_length 6 us).
    destruct (digits_of 6 us) as [|d ds] eqn:E; [discriminate|].
    rewrite firstn_all2 by (rewrite Hl; lia).
    rewrite Hl, <- E, fold_digits_of.
    change (Z.of_nat 6) with 6. change (10 ^ 6) with 1000000.
    change (Z.of_nat (6 - 6)) with 0. change (10 ^ 0) with 1.
    rewrite Z.mod_small by lia. f_equal. f_equal. lia.
Qed.

Lemma parse_tzstr_format (off : option Z) :
  match off with None => True | Some o => -86400 < o < 86400 end ->
  whole_minutes off = true ->
  parse_tzstr (format_offset off) = Some off.
Proof.
  destruct off as [o|]; [|reflexivity].
  intros Hr Hm. cbn [whole_minutes] in Hm. apply Z.eqb_eq in Hm.
  unfold format_offset.
  set (a := Z.abs o).
  assert (Ha : 0 <= a < 86400) by (unfold a; lia).
  assert (Hss : a mod 60 = 0).
  { unfold a. destruct (Z.abs_spec o) as [[_ ->]|[_ ->]]; [exact Hm|].
    apply Z.mod_opp_l_z; [lia|exact Hm]. }
  rewrite Hss. change (0 =? 0) with true. cbv iota.
  set (hh := a / 3600). set (mm := a mod 3600 / 60).
  assert (Hhh : 0 <= hh <= 23).
  { unfold hh. split; [apply Z.div_pos; lia|].
    assert (a / 3600 < 24) by (apply Z.div_lt_upper_bound; lia). lia. }
  assert (Hmm : 0 <= mm <= 59).
  { unfold mm. pose proof (Z.mod_pos_bound a 3600 ltac:(lia)).
    split; [apply Z.div_pos; lia|].
    assert (a mod 3600 / 60 < 60) by (apply Z.div_lt_upper_bound; lia). lia. }
  assert (Hsplit : a = (hh * 60 + mm) * 60).
  { unfold hh, mm.
    pose proof (Z.div_mod a 3600 ltac:(lia)) as H1.
    pose proof (Z.div_mod (a mod 3600) 60 ltac:(lia)) as H2.
    assert (H3 : (a mod 3600) mod 60 = 0).
    { pose proof (Z.div_mod a 60 ltac:(lia)) as H4.
      replace (a mod 3600) with ((a / 60 - 60 * (a / 3600)) * 60) by lia.
      apply Z.mod_mul. lia. }
    lia. }
  assert (P100 : 10 ^ Z.of_nat 2 = 100) by reflexivity.
  unfold parse_tzstr.
  destruct (Z.ltb_spec o 0) as [Hneg|Hpos].
  - change (Ascii.eqb "-" "Z" || Ascii.eqb "-" "z")%bool with false.
    change (Ascii.eqb "-" "-") with true. cbv iota.
    rewrite parse_put_small by (rewrite P100; lia).
    cbv iota beta. rewrite parse_put_small by (rewrite P100; lia).
    cbv iota beta.
    destruct (Z.eqb_spec hh 0) as [H0|H0]; destruct (Z.eqb_spec mm 0) as [H1|H1];
      cbn [andb]; try (exfalso; unfold a in *; lia).
    all: replace (mm <=? 59) with true by (symmetry; apply Z.leb_le; lia).
    all: replace (hh <=? 23) with true by (symmetry; apply Z.leb_le; lia).
    all: cbn [andb]; f_equal; f_equal; unfold a in *; lia.
  - change (Ascii.eqb "+" "Z" || Ascii.eqb "+" "z")%bool with false.
    change (Ascii.eqb "+" "-") with false.
    change (Ascii.eqb "+" "+") with true. cbv iota.
    rewrite parse_put_small by (rewrite P100; lia).
    cbv iota beta. rewrite parse_put_small by (rewrite P100; lia).
    cbv iota beta.
    destruct (Z.eqb_spec hh 0) as [H0|H0]; destruct (Z.eqb_spec mm 0) as [H1|H1];
      cbn [andb].
    1: f_equal; f_equal; unfold a in *; lia.
    all: replace (mm <=? 59) with true by (symmetry; apply Z.leb_le; lia).
    all: replace (hh <=? 23) with true by (symmetry; apply Z.leb_le; lia).
    all: cbn [andb]; f_equal; f_equal; unfold a in *; lia.
Qed.


Lemma valid_datetime_ranges (t : datetime) :
  valid_datetime t = true ->
  (1 <= year t <= 9999) /\ (1 <= month t <= 12) /\ (1 <= day t <= 31) /\
  (0 <= hour t < 24) /\ (0 <= minute t < 60) /\ (0 <= second t < 60) /\
  (0 <= microsecond t < 1000000) /\
  match utcoffset t with None => True | Some o => -86400 < o < 86400 end.
Proof.
  unfold valid_datetime. rewrite !andb_true_iff.
  rewrite !Z.leb_le, !Z.ltb_lt.
  intros [[[[[[[[[[[[[[H1 H2] H3] H4] H5] H6] H7] H8] H9] H10] H11] H12] H13] H14] H15].
  assert (Hd : days_in_month (year t) (month t) <= 31).
  { unfold days_in_month. destruct (month t) as [|p|p]; [lia| |lia].
    do 4 (try destruct p as [p|p|]); try lia; destruct (is_leap (year t)); lia. }
  repeat split; try lia.
  destruct (utcoffset t) as [o|]; [|exact I].
  apply andb_true_iff in H15. rewrite !Z.ltb_lt in H15. exact H15.
Qed.

Ltac iso_step :=
  cbv beta iota delta [opt_bind expect];
  repeat match goal with
         | |- context [Ascii.eqb ?a ?b] =>
             let v := eval vm_compute in (Ascii.eqb a b) in
             change (Ascii.eqb a b) with v
         end;
  cbv beta iota delta [opt_bind expect].

Lemma isoparse_isoformat (t : datetime) :
  valid_datetime t = true -> whole_minutes (utcoffset t) = true ->
  isoparse (isoformat t) = Some t.
Proof.
  intros Hv Hm.
  destruct (valid_datetime_ranges t Hv) as (Hy & Hmo & Hd & Hh & Hmi & Hs & Hus & Hoff).
  assert (P2 : 10 ^ Z.of_nat 2 = 100) by reflexivity.
  assert (P4 : 10 ^ Z.of_nat 4 = 10000) by reflexivity.
  unfold isoparse, isoformat, format_time.
  rewrite parse_put_small by (rewrite P4; lia). iso_step.
  rewrite parse_put_small by (rewrite P2; lia). iso_step.
  rewrite parse_put_small by (rewrite P2; lia). iso_step.
  rewrite parse_put_small by (rewrite P2; lia). iso_step.
  rewrite parse_put_small by (rewrite P2; lia). iso_step.
  rewrite parse_put_small by (rewrite P2; lia). iso_step.
  rewrite parse_fraction_format by exact Hus. iso_step.
  rewrite parse_tzstr_format by assumption. iso_step.
  destruct t; cbn [year month day hour minute second microsecond utcoffset] in *.
  rewrite Hv. reflexivity.
Qed.

Lemma isoparse_rejects_seconds_offset :
  isoparse (isoformat (Build_datetime 2024 2 29 12 0 0 0 (Some 19815))) = None.
Proof. vm_compute. reflexivity. Qed.

End DateTimeFacts.

(** ** Facts about JSON documents *)

Module JsonFacts.
Import Py AssocFacts.
Local Open Scope string_scope.
Local Open Scope list_scope.

Lemma json_dump_list (l : list pyval) :
  json_dump (PList l)
  = match dump_all l with Some js => Some (JArr js) | None => None end.
Proof. reflexivity. Qed.

Lemma json_dump_tuple (l : list pyval) :
  json_dump (PTuple l)
  = match dump_all l with Some js => Some (JArr js) | None => None end.
Proof. reflexivity. Qed.

Lemma json_dump_dict (d : pydict) :
  json_dump (PDict d)
  = match dump_members d with Some ms => Some (JObj ms) | None => None end.
Proof. reflexivity. Qed.

Lemma json_load_obj (ms : list (string * json)) :
  json_load (JObj ms) = PDict (load_members ms []).
Proof. reflexivity. Qed.

Lemma dump_all_cons (x : pyval) (t : list pyval) :
  dump_all (x :: t)
  = match json_dump x, dump_all t with
    | Some j, Some js => Some (j :: js)
    | _, _ => None
    end.
Proof. reflexivity. Qed.

Lemma dump_members_cons (k : pykey) (x : pyval) (t : pydict) :
  dump_members ((k, x) :: t)
  = match json_key k, json_dump x, dump_members t with
    | Some s, Some j, Some js => Some ((s, j) :: js)
    | _, _, _ => None
    end.
Proof. reflexivity. Qed.

Lemma load_members_cons (s : string) (x : json) (t : list (string * json)) (acc : pydict) :
  load_members ((s, x) :: t) acc
  = load_members t (assoc_set pykey_eqb (KStr s) (json_load x) acc).
Proof. reflexivity. Qed.

Lemma distinct_NoDup (l : list string) : distinct l = true -> NoDup l.
Proof.
  induction l as [|s l IH]; simpl; intros H; [constructor|].
  apply andb_true_iff in H. destruct H as [H1 H2].
  constructor; [|apply IH; exact H2].
  intros Hin. apply negb_true_iff in H1.
  assert (existsb (String.eqb s) l = true).
  { apply existsb_exists. exists s. split; [exact Hin|apply String.eqb_refl]. }
  congruence.
Qed.

Lemma str_keys_map (d : pydict) (ks : list string) :
  str_keys d = Some ks -> map fst d = map KStr ks.
Proof.
  revert ks. induction d as [|[k v] d IH]; simpl; intros ks H.
  - injection H as <-. reflexivity.
  - destruct k as [s| |]; try discriminate.
    destruct (str_keys d) as [ks'|]; [|discriminate].
    injection H as <-. simpl. f_equal. apply IH. reflexivity.
Qed.

Lemma NoDup_map_KStr (l : list string) : NoDup l -> NoDup (map KStr l).
Proof.
  induction 1 as [|s l Hni _ IH]; simpl; constructor; [|exact IH].
  intros Hin. apply in_map_iff in Hin. destruct Hin as (s' & [= ->] & Hin).
  contradiction.
Qed.

(** Loading the members of an object whose names are new and distinct
    appends them, in order. *)
Lemma load_members_fresh (ms : list (string * json)) : forall acc,
  NoDup (map fst acc ++ map (fun m => KStr (fst m)) ms) ->
  load_members ms acc = acc ++ map (fun m => (KStr (fst m), json_load (snd m))) ms.
Proof.
  induction ms as [|[s x] ms IH]; intros acc Hnd.
  - simpl. rewrite app_nil_r. reflexivity.
  - rewrite load_members_cons. simpl in Hnd.
    assert (Hni : ~ In (KStr s) (map fst acc)).
    { apply NoDup_remove_2 in Hnd. intros H. apply Hnd. apply in_or_app. left. exact H. }
    rewrite (@assoc_set_new _ _ pykey_eqb pykey_eqb_eq _ _ _ Hni).
    rewrite IH.
    + rewrite <- app_assoc. reflexivity.
    + rewrite map_app. simpl. rewrite <- app_assoc. simpl.
      clear - Hnd. 
      replace (map fst acc ++ KStr s :: map (fun m : string * json => KStr (fst m)) ms)
        with ((map fst acc ++ [KStr s]) ++ map (fun m : string * json => KStr (fst m)) ms) in Hnd
        by (rewrite <- app_assoc; reflexivity).
      rewrite <- app_assoc in Hnd. exact Hnd.
Qed.

(** What [json.dump] writes for a JSON-native value, [json.load] reads back
    as the same value. *)
Lemma json_roundtrip (v : pyval) :
  json_native v = true -> exists j, json_dump v = Some j /\ json_load j = v.
Proof.
  induction v as [| b | z | r | s | l IH | l IH | d IH | c] using pyval_nested_ind;
    intros Hn; try discriminate.
  - exists JNull. split; reflexivity.
  - exists (JBool b). split; reflexivity.
  - exists (JInt z). split; reflexivity.
  - exists (JFloat r). split; reflexivity.
  - exists (JStr s). split; reflexivity.
  - (* lists *)
    assert (H : exists js, dump_all l = Some js /\ map json_load js = l).
    { cbn [json_native] in Hn. induction IH as [|x t Hx _ IHt].
      - exists []. split; reflexivity.
      - simpl in Hn. apply andb_true_iff in Hn. destruct Hn as [Hx' Ht'].
        destruct (Hx Hx') as (j & Ej & Lj). destruct (IHt Ht') as (js & Ejs & Ljs).
        exists (j :: js). rewrite dump_all_cons, Ej, Ejs. simpl. rewrite Lj, Ljs.
        split; reflexivity. }
    destruct H as (js & E & L). exists (JArr js).
    rewrite json_dump_list, E. split; [reflexivity|]. simpl. rewrite L. reflexivity.
  - (* dictionaries *)
    cbn [json_native] in Hn. apply andb_true_iff in Hn. destruct Hn as [Hk Hv].
    unfold dict_keys_ok in Hk. destruct (str_keys d) as [ks|] eqn:Eks; [|discriminate].
    apply distinct_NoDup in Hk. pose proof (str_keys_map d Eks) as Hkeys.
    assert (H : exists ms, dump_members d = Some ms
                /\ map (fun m => (KStr (fst m), json_load (snd m))) ms = d).
    { clear Hk Hkeys. revert ks Eks. induction IH as [|[k x] t Hx _ IHt]; intros ks Eks.
      - exists []. split; reflexivity.
      - simpl in Hv. apply andb_true_iff in Hv. destruct Hv as [Hx' Ht'].
        simpl in Eks. destruct k as [s| |]; try discriminate.
        destruct (str_keys t) as [ks'|] eqn:Et; [|discriminate].
        destruct (Hx Hx') as (j & Ej & Lj).
        destruct (IHt Ht' ks' eq_refl) as (ms & Ems & Lms).
        exists ((s, j) :: ms). rewrite dump_members_cons. simpl json_key.
        simpl in Ej. rewrite Ej, Ems. simpl. simpl in Lj. rewrite Lj, Lms.
        split; reflexivity. }
    destruct H as (ms & E & L). exists (JObj ms).
    rewrite json_dump_dict, E. split; [reflexivity|].
    rewrite json_load_obj, load_members_fresh.
    + simpl. rewrite L. reflexivity.
    + simpl. replace (map (fun m : string * json => KStr (fst m)) ms) with (map fst d).
      * rewrite Hkeys. apply NoDup_map_KStr. exact Hk.
      * rewrite <- L at 1. rewrite map_map. reflexivity.
Qed.

End JsonFacts.

(** ** Facts about persistence of the graph *)

Module PersistenceFacts.
Import Py DateTime MemoryGraph GraphInvariants AssocFacts GraphFacts DateTimeFacts JsonFacts Examples.
Local Open Scope string_scope.
Local Open Scope list_scope.

Ltac dict_step :=
  cbv beta iota delta [node_of_py node_to_py edge_of_py edge_to_py event_of_py
                       event_to_py get_str dict_get assoc_get pykey_eqb opt_bind
                       fst snd String.eqb Ascii.eqb Bool.eqb].

Lemma event_of_py_to_py (ev : MemoryEvent) :
  valid_datetime (timestamp ev) = true ->
  whole_minutes (utcoffset (timestamp ev)) = true ->
  match event_to_py ev with
  | PDict ev_dict => event_of_py ev_dict = Some ev
  | _ => False
  end.
Proof.
  intros Hv Hm. dict_step.
  rewrite (isoparse_isoformat _ Hv Hm). destruct ev; reflexivity.
Qed.

Lemma node_of_py_to_py (p : string * MemoryEvent) :
  valid_datetime (timestamp (snd p)) = true ->
  whole_minutes (utcoffset (timestamp (snd p))) = true ->
  node_of_py (node_to_py p) = Some p.
Proof.
  destruct p as [n ev]. cbn [fst snd]. intros Hv Hm. dict_step.
  rewrite (isoparse_isoformat _ Hv Hm). destruct ev; reflexivity.
Qed.

Lemma edge_of_py_to_py (e : (string * string) * string) :
  edge_of_py (edge_to_py e) = Some e.
Proof. destruct e as [[u v] r]. reflexivity. Qed.


Lemma load_nodes_fresh (l : list (string * MemoryEvent)) : forall g0,
  NoDup (map fst (nodes g0) ++ map fst l) ->
  (forall p, In p l -> storable_event (snd p) = true) ->
  load_nodes (map node_to_py l) g0
  = Some {| nodes := nodes g0 ++ l; edges := edges g0 |}.
Proof.
  induction l as [|p l IH]; intros g0 Hnd Hst.
  - simpl. rewrite app_nil_r. destruct g0; reflexivity.
  - cbn [map load_nodes].
    assert (Hp : storable_event (snd p) = true) by (apply Hst; left; reflexivity).
    unfold storable_event in Hp. rewrite !andb_true_iff in Hp. destruct Hp as [[_ Hv] Hm].
    rewrite (node_of_py_to_py p Hv Hm). cbn [opt_bind].
    assert (Hni : ~ In (fst p) (map fst (nodes g0))).
    { simpl in Hnd. apply NoDup_remove_2 in Hnd. intros H. apply Hnd.
      apply in_or_app. left. exact H. }
    rewrite IH.
    + cbn [add_node nodes edges].
      rewrite (@assoc_set_new _ _ String.eqb String.eqb_eq _ _ _ Hni).
      rewrite <- app_assoc. destruct p; reflexivity.
    + cbn [add_node nodes].
      rewrite (@assoc_set_new _ _ String.eqb String.eqb_eq _ _ _ Hni).
      rewrite map_app, <- app_assoc. simpl. simpl in Hnd. exact Hnd.
    + intros q Hq. apply Hst. right. exact Hq.
Qed.

Lemma load_edges_fresh (l : list ((string * string) * string)) : forall g0,
  NoDup (map fst (edges g0) ++ map fst l) ->
  (forall u v r, In ((u, v), r) l -> has_node g0 u = true /\ has_node g0 v = true) ->
  load_edges (map edge_to_py l) g0
  = Some {| nodes := nodes g0; edges := edges g0 ++ l |}.
Proof.
  induction l as [|[[u v] r] l IH]; intros g0 Hnd Hcl.
  - simpl. rewrite app_nil_r. destruct g0; reflexivity.
  - cbn [map load_edges]. rewrite edge_of_py_to_py. cbn [opt_bind].
    destruct (Hcl u v r (or_introl eq_refl)) as [Hu Hv]. rewrite Hu, Hv. cbn [andb].
    assert (Hni : ~ In (u, v) (map fst (edges g0))).
    { simpl in Hnd. apply NoDup_remove_2 in Hnd. intros H. apply Hnd.
      apply in_or_app. left. exact H. }
    rewrite IH.
    + cbn [add_edge nodes edges].
      rewrite (@assoc_set_new _ _ pair_eqb pair_eqb_eq _ _ _ Hni).
      rewrite <- app_assoc. reflexivity.
    + cbn [add_edge edges].
      rewrite (@assoc_set_new _ _ pair_eqb pair_eqb_eq _ _ _ Hni).
      rewrite map_app, <- app_assoc. simpl. simpl in Hnd. exact Hnd.
    + intros u' v' r' Hin. cbn [add_edge]. unfold has_node. cbn [nodes].
      apply (Hcl u' v' r'). right. exact Hin.
Qed.

Lemma node_link_data_native (g : DiGraph) :
  storable g -> json_native (node_link_data g) = true.
Proof.
  intros Hst. unfold node_link_data.
  cbn [json_native]. apply andb_true_iff. split; [reflexivity|].
  cbn [forallb snd json_native]. rewrite !andb_true_r.
  change (dict_keys_ok []) with true. cbn [andb].
  apply andb_true_iff. split.
  - apply forallb_forall. intros v Hv. apply in_map_iff in Hv.
    destruct Hv as (p & <- & Hp). specialize (Hst p Hp).
    unfold storable_event in Hst. rewrite !andb_true_iff in Hst.
    destruct Hst as [[Hn _] _].
    unfold node_to_py, event_to_py. cbn [json_native forallb snd].
    change (dict_keys_ok _) with true at 1.
    change (dict_keys_ok [(KStr "id", PStr (id (snd p)));
                          (KStr "timestamp", PStr (isoformat (timestamp (snd p))));
                          (KStr "type", PStr (type (snd p)));
                          (KStr "payload", PDict (payload (snd p)))]) with true.
    cbn [json_native] in Hn. rewrite Hn. reflexivity.
  - apply forallb_forall. intros v Hv. apply in_map_iff in Hv.
    destruct Hv as (e & <- & _). reflexivity.
Qed.

(** *** What the JSON form cannot carry *)

(** A payload that holds an object of a foreign class makes [json.dump]
    raise: nothing is saved. *)
Example save_json_foreign_object : save_json graph_o = None.
Proof. vm_compute. reflexivity. Qed.

(** An offset with seconds is written as [+HH:MM:SS], which [isoparse]
    rejects: the saved document does not load. *)
Example load_json_seconds_offset :
  exists doc, save_json graph_s = Some doc /\ load_json doc = None.
Proof.
  eexists. split; [vm_compute; reflexivity|]. vm_compute. reflexivity.
Qed.

End PersistenceFacts.

(* ================================================================== *)
(** * The specification's claims                                       *)
(* ================================================================== *)

Import Py DateTime MemoryGraph GraphInvariants MathCore ContextualRetriever.
Import FieldStateStore Examples.
Import MathCoreFacts AssocFacts GraphFacts RetrieverFacts RetrieverExamples.
Import FieldStateFacts DateTimeFacts JsonFacts PersistenceFacts.
Local Open Scope string_scope.
Local Open Scope list_scope.

(** ** Event graph store *)

(** C1. Temporal auto-linking of [add_event].  For a graph in which the id of
    the new event is not yet a node and whose timestamps can be ordered:
    on an empty graph the call adds the node and no edge; on a non-empty
    graph it adds the node and exactly one edge, labelled ["next_in_time"],
    from a pre-existing node [src] to the new node, and changes nothing
    else.  [src] carries the greatest timestamp of the pre-existing nodes,
    and every node inserted before it is strictly older: among several
    nodes with the greatest timestamp the earliest inserted one is chosen. *)
Theorem add_event_temporal_link (g : DiGraph) (ev : MemoryEvent) :
  wf_graph g -> comparable g -> has_node g (id ev) = false ->
  (nodes g = [] ->
   add_event g ev = (Returns tt, {| nodes := [(id ev, ev)]; edges := [] |}))
  /\
  (nodes g <> [] ->
   exists before src after,
     nodes g = before ++ src :: after /\
     (forall p, In p before ->
        (sort_instant (timestamp (snd p)) < sort_instant (timestamp (snd src)))%Z) /\
     (forall p, In p after ->
        (sort_instant (timestamp (snd p)) <= sort_instant (timestamp (snd src)))%Z) /\
     add_event g ev
     = (Returns tt,
        {| nodes := nodes g ++ [(id ev, ev)];
           edges := edges g ++ [((fst src, id ev), "next_in_time")] |}) /\
     edge_count (snd (add_event g ev)) = S (edge_count g)).
Proof.
  intros Hwf Hcmp Hfresh.
  assert (Hni : ~ In (id ev) (map fst (nodes g))).
  { intros H. apply has_node_In in H. congruence. }
  assert (Hnodes : nodes (add_node g (id ev) ev) = nodes g ++ [(id ev, ev)]).
  { simpl. apply assoc_set_new; [apply String.eqb_eq|exact Hni]. }
  destruct (nodes g) as [|n0 ns] eqn:En.
  - (* empty graph: the node table has one entry, so nothing is linked *)
    split; [intros _|intros Hne; contradiction].
    unfold add_event. rewrite Hnodes. simpl.
    f_equal. unfold add_node. rewrite En. simpl.
    destruct Hwf as [_ _ Hc]. destruct (edges g) as [|[[u v] r] es]; [reflexivity|].
    destruct (Hc u v r (or_introl eq_refl)) as [Hu _].
    apply has_node_In in Hu. rewrite En in Hu. destruct Hu.
  - split; [discriminate|]. intros _.
    set (prior := map (fun p : string * MemoryEvent => (fst p, timestamp (snd p))) (nodes g)).
    assert (Hk : forall p q, In p prior -> In q prior -> is_aware (snd p) = is_aware (snd q)).
    { intros p q Hp Hq. unfold prior in *.
      apply in_map_iff in Hp. destruct Hp as (p' & <- & Hp).
      apply in_map_iff in Hq. destruct Hq as (q' & <- & Hq).
      simpl. apply Hcmp; assumption. }
    (* the sort returns, and its head is the first entry of greatest instant *)
    destruct (@sort_desc_head prior Hk) as (r & Esort & Hhd).
    assert (Eprior : prior = (fst n0, timestamp (snd n0))
                               :: map (fun p : string * MemoryEvent => (fst p, timestamp (snd p))) ns).
    { unfold prior. rewrite En. reflexivity. }
    destruct (first_latest_spec (fst n0, timestamp (snd n0))
                (map (fun p : string * MemoryEvent => (fst p, timestamp (snd p))) ns))
      as (l1 & m & l2 & Efl & Esplit & H1 & H2).
    rewrite <- Eprior in Efl, Esplit.
    (* the split of [prior] is a split of the node table *)
    unfold prior in Esplit.
    apply map_eq_app in Esplit. destruct Esplit as (before & rest & Eg & Eb & Er).
    apply map_eq_cons in Er. destruct Er as (src & after & -> & Esrc & Ea).
    exists before, src, after.
    rewrite En in Eg.
    assert (Hadd : add_event g ev
                   = (Returns tt,
                      {| nodes := (n0 :: ns) ++ [(id ev, ev)];
                         edges := edges g ++ [((fst src, id ev), "next_in_time")] |})).
    { unfold add_event. rewrite Hnodes.
      replace (1 <? List.length (map fst ((n0 :: ns) ++ [(id ev, ev)])))%nat with true
        by (symmetry; apply Nat.ltb_lt; rewrite length_map, length_app; simpl; lia).
      rewrite <- En, filter_fresh by exact Hfresh. fold prior.
      rewrite Esort. rewrite Efl in Hhd.
      destruct r as [|[last_id t] r']; [discriminate|].
      simpl in Hhd. injection Hhd as Hm. rewrite <- Esrc in Hm.
      injection Hm as -> ->.
      assert (Hsrc : In (fst src) (map fst (nodes g))).
      { rewrite En, Eg, map_app. apply in_or_app. right. left. reflexivity. }
      unfold link_events.
      rewrite !has_node_add_node, String.eqb_refl.
      rewrite (proj2 (has_node_In g (fst src)) Hsrc), orb_true_r. simpl.
      f_equal. unfold add_edge. rewrite Hnodes, En. f_equal. simpl.
      (* no edge of [g] reaches the new id, so the pair is new *)
      apply assoc_set_new; [apply pair_eqb_eq|].
      intros Hin. apply in_map_iff in Hin. destruct Hin as ([[u v] rr] & Hk' & Hin).
      simpl in Hk'. injection Hk' as -> ->.
      destruct Hwf as [_ _ Hc]. destruct (Hc _ _ _ Hin) as [_ Hv]. congruence. }
    split; [exact Eg|]. split; [|split; [|split]].
    + intros p Hp. specialize (H1 (fst p, timestamp (snd p))).
      rewrite <- Esrc in H1. simpl in H1. apply H1. rewrite <- Eb.
      apply (in_map (fun p : string * MemoryEvent => (fst p, timestamp (snd p)))). exact Hp.
    + intros p Hp. specialize (H2 (fst p, timestamp (snd p))).
      rewrite <- Esrc in H2. simpl in H2. apply H2. rewrite <- Ea.
      apply (in_map (fun p : string * MemoryEvent => (fst p, timestamp (snd p)))). exact Hp.
    + exact Hadd.
    + rewrite Hadd. unfold edge_count. cbn [snd edges].
      rewrite length_app. simpl. lia.
Qed.

Lemma add_event_temporal_link_witness :
  wf_graph graph_a /\ comparable graph_a /\ has_node graph_a (id ev_b) = false /\
  exists src,
    In src (nodes graph_a) /\
    add_event graph_a ev_b
    = (Returns tt,
       {| nodes := nodes graph_a ++ [(id ev_b, ev_b)];
          edges := edges graph_a ++ [((fst src, id ev_b), "next_in_time")] |}).
Proof.
  assert (Hwf : wf_graph graph_a).
  { apply reachable_wf. unfold graph_a. apply reach_add_event, reach_empty. }
  assert (Hcmp : comparable graph_a).
  { intros p q [<-|[]] [<-|[]]. reflexivity. }
  assert (Hfresh : has_node graph_a (id ev_b) = false) by reflexivity.
  split; [exact Hwf|]. split; [exact Hcmp|]. split; [exact Hfresh|].
  destruct (add_event_temporal_link ev_b Hwf Hcmp Hfresh) as [_ H].
  destruct H as (before & src & after & Hsplit & _ & _ & Hadd & _); [discriminate|].
  exists src. split; [|exact Hadd].
  rewrite Hsplit. apply in_or_app. right. left. reflexivity.
Defined.

(** C7. [link_events(src, dst, relation)] raises the missing-node error
    ([KeyError]) exactly when [src] or [dst] is not a node of the graph, and
    then leaves the graph as it was; when both are nodes it returns, keeps
    the nodes, gives the edge [src -> dst] the label [relation] and leaves
    every other edge alone. *)
Theorem link_events_missing_node (g : DiGraph) (src dst relation : string) :
  let r := link_events g src dst relation in
  (fst r = Raises KeyError <-> has_node g src = false \/ has_node g dst = false)
  /\ (fst r = Raises KeyError -> snd r = g)
  /\ (has_node g src = true -> has_node g dst = true ->
      fst r = Returns tt
      /\ nodes (snd r) = nodes g
      /\ assoc_get pair_eqb (src, dst) (edges (snd r)) = Some relation
      /\ forall p, p <> (src, dst) ->
                   assoc_get pair_eqb p (edges (snd r)) = assoc_get pair_eqb p (edges g)).
Proof.
  cbv zeta.
  destruct (link_events_cases g src dst relation) as [(Hs & Hd & E)|(Hm & E)];
    rewrite E; cbn [fst snd].
  - split; [|split].
    + split; [discriminate|]. intros [H|H]; congruence.
    + discriminate.
    + intros _ _. split; [reflexivity|]. split; [reflexivity|].
      split; [apply edges_add_edge_get|]. intros p Hp. apply edges_add_edge_other. exact Hp.
  - split; [|split].
    + split; [intros _; exact Hm|reflexivity].
    + reflexivity.
    + intros Hs Hd. destruct Hm; congruence.
Qed.

Lemma link_events_missing_node_witness :
  link_events graph_ab "a" "nowhere" "causal" = (Raises KeyError, graph_ab)
  /\ fst (link_events graph_ab "b" "a" "causal") = Returns tt
  /\ assoc_get pair_eqb ("b", "a") (edges (snd (link_events graph_ab "b" "a" "causal")))
     = Some "causal".
Proof.
  destruct (link_events_missing_node graph_ab "a" "nowhere" "causal") as (H1 & H2 & _).
  destruct (link_events_missing_node graph_ab "b" "a" "causal") as (_ & _ & H3).
  destruct (H3 eq_refl eq_refl) as (Hr & _ & Hl & _).
  split; [|split; [exact Hr|exact Hl]].
  rewrite (surjective_pairing (link_events graph_ab "a" "nowhere" "causal")).
  rewrite (H2 (proj2 H1 (or_intror eq_refl))), (proj2 H1 (or_intror eq_refl)).
  reflexivity.
Defined.

(** C10. A graph the store can hold has at most one edge per ordered pair
    of nodes, and [link_events(src, dst, r2)] on an existing edge
    [src -> dst], whatever its label [r1], returns, replaces the label by
    [r2] and keeps the set of linked pairs, the node count and the edge
    count. *)
Theorem link_events_relabels_edge (g : DiGraph) :
  reachable g ->
  NoDup (map fst (edges g))
  /\ forall src dst r1 r2,
       assoc_get pair_eqb (src, dst) (edges g) = Some r1 ->
       let r := link_events g src dst r2 in
       fst r = Returns tt
       /\ assoc_get pair_eqb (src, dst) (edges (snd r)) = Some r2
       /\ map fst (edges (snd r)) = map fst (edges g)
       /\ node_count (snd r) = node_count g
       /\ edge_count (snd r) = edge_count g.
Proof.
  intros Hr. destruct (reachable_wf Hr) as [Hn He Hc].
  split; [exact He|].
  intros src dst r1 r2 Hget. cbv zeta.
  apply (@assoc_get_In _ _ pair_eqb pair_eqb_eq) in Hget.
  destruct (Hc _ _ _ Hget) as [Hs Hd].
  unfold link_events. rewrite Hs, Hd. cbn [andb fst snd add_edge edges nodes].
  assert (Hin : In (src, dst) (map fst (edges g))).
  { apply in_map_iff. exists ((src, dst), r1). split; [reflexivity|exact Hget]. }
  split; [reflexivity|].
  split; [apply assoc_get_set_same; apply pair_eqb_eq|].
  split; [apply assoc_set_keys_present; [apply pair_eqb_eq|exact Hin]|].
  split; [reflexivity|].
  unfold edge_count. cbn [edges].
  apply assoc_set_length_present; [apply pair_eqb_eq|exact Hin].
Qed.

Lemma link_events_relabels_edge_witness :
  reachable graph_ab
  /\ assoc_get pair_eqb ("a", "b") (edges graph_ab) = Some "next_in_time"
  /\ assoc_get pair_eqb ("a", "b")
       (edges (snd (link_events graph_ab "a" "b" "causal"))) = Some "causal"
  /\ edge_count (snd (link_events graph_ab "a" "b" "causal")) = edge_count graph_ab.
Proof.
  assert (Hr : reachable graph_ab).
  { unfold graph_ab, graph_a. apply reach_add_event, reach_add_event, reach_empty. }
  assert (Hget : assoc_get pair_eqb ("a", "b") (edges graph_ab) = Some "next_in_time")
    by reflexivity.
  destruct (link_events_relabels_edge Hr) as [_ H].
  destruct (H "a" "b" "next_in_time" "causal" Hget) as (_ & Hl & _ & _ & Hc).
  split; [exact Hr|]. split; [exact Hget|]. split; [exact Hl|exact Hc].
Defined.

(** C5 as stated fails.  An event whose payload holds a tuple is saved
    without error, but what [load_json] rebuilds holds a list in its place:
    the loaded graph is not the saved one. *)
Lemma tuple_payload_not_restored :
  wf_graph graph_t /\
  exists doc g',
    save_json graph_t = Some doc /\ load_json doc = Some g' /\
    map (fun p => payload (snd p)) (nodes graph_t)
    = [[(KStr "position", PTuple [PInt 1; PInt 2])]] /\
    map (fun p => payload (snd p)) (nodes g')
    = [[(KStr "position", PList [PInt 1; PInt 2])]] /\
    g' <> graph_t.
Proof.
  split.
  - apply reachable_wf. unfold graph_t. apply reach_add_event, reach_empty.
  - eexists. eexists.
    split; [vm_compute; reflexivity|].
    split; [vm_compute; reflexivity|].
    split; [reflexivity|]. split; [reflexivity|].
    intros H. apply (f_equal (fun g => map (fun p => payload (snd p)) (nodes g))) in H.
    vm_compute in H. discriminate H.
Qed.

(** C5, amended.  For a graph whose events are storable (a payload of
    JSON-native values: no tuples, no foreign objects, dictionaries keyed by
    distinct strings; a valid timestamp that is naive or whose UTC offset is
    a whole number of minutes), [save_json] writes a document and
    [load_json] of that document is the very same graph: the same node ids
    in the same order, the same event ids, types, payloads and timestamps
    with their offsets, and the same edges with the same labels. *)
Theorem save_json_load_json_roundtrip (g : DiGraph) :
  wf_graph g -> storable g ->
  exists doc,
    save_json g = Some doc /\
    exists g',
      load_json doc = Some g' /\ g' = g /\
      map fst (nodes g') = map fst (nodes g) /\
      map snd (nodes g') = map snd (nodes g) /\
      edge_triples g' = edge_triples g.
Proof.
  intros [Hn He Hc] Hst.
  (* the document is a JSON-native value, so it is read back as written *)
  destruct (json_roundtrip (node_link_data g) (node_link_data_native Hst))
    as (doc & Edump & Eload).
  exists doc. split; [exact Edump|]. exists g.
  split; [|repeat split].
  unfold load_json. rewrite Eload. unfold node_link_data.
  cbv beta iota delta [dict_get assoc_get pykey_eqb String.eqb Ascii.eqb Bool.eqb].
  (* distinct node ids are appended one by one, then the edges *)
  rewrite (load_nodes_fresh (nodes g) empty_graph); [|exact Hn|exact Hst].
  cbn [opt_bind empty_graph nodes edges app].
  rewrite load_edges_fresh.
  - cbn [nodes edges app]. destruct g; reflexivity.
  - exact He.
  - exact Hc.
Qed.

Lemma save_json_load_json_roundtrip_witness :
  wf_graph graph_ab /\ storable graph_ab /\
  exists doc, save_json graph_ab = Some doc /\ load_json doc = Some graph_ab.
Proof.
  assert (Hwf : wf_graph graph_ab).
  { apply reachable_wf. unfold graph_ab, graph_a.
    apply reach_add_event, reach_add_event, reach_empty. }
  assert (Hst : storable graph_ab).
  { intros p [<-|[<-|[]]]; vm_compute; reflexivity. }
  split; [exact Hwf|]. split; [exact Hst|].
  destruct (save_json_load_json_roundtrip Hwf Hst) as (doc & Es & g' & El & -> & _).
  exists doc. split; [exact Es|exact El].
Defined.

(** ** Field dynamics engine *)

Section FieldDynamicsClaims.
Local Open Scope R_scope.

(** C2. The end-to-end example.  With [w = [0, 0, 0]] the activation is
    [[0.5, 0.5, 0.5]]; its entropy is [-3 * (0.25 * ln(0.25 + EPS))], which
    is within [3 * EPS] of [-3 * (0.25 * ln 0.25)] and rounds to [1.0397];
    with [S_crit = 1.0] the collapse triggers; [argmax] of the three equal
    activations is index [0]; and [collapse_weights([0, 0, 0], 0, 0.5)] is
    exactly [[0.5, 0, 0]]. *)
Theorem end_to_end_example :
  activation [0; 0; 0] = [1 / 2; 1 / 2; 1 / 2]
  /\ entropy [1 / 2; 1 / 2; 1 / 2] = - 3 * (/ 4 * ln (/ 4 + EPS))
  /\ Rabs (entropy [1 / 2; 1 / 2; 1 / 2] - - 3 * (/ 4 * ln (/ 4))) <= 3 * EPS
  /\ Rabs (entropy [1 / 2; 1 / 2; 1 / 2] - 10397 / 10000) < 5 / 100000
  /\ check_collapse (entropy (activation [0; 0; 0])) 1 = true
  /\ np_argmax (activation [0; 0; 0]) = Some 0%nat
  /\ collapse_weights [0; 0; 0] 0%Z (1 / 2) = Some [1 / 2; 0; 0].
Proof.
  destruct entropy_half3_bounds as [Hround Hnear].
  assert (Hcol : check_collapse (entropy [1 / 2; 1 / 2; 1 / 2]) 1 = true).
  { unfold check_collapse.
    destruct (Rlt_dec 1 (entropy [1 / 2; 1 / 2; 1 / 2])) as [_|Hn]; [reflexivity|].
    exfalso. apply Hn. apply Rabs_def2 in Hround. lra. }
  split; [exact activation_zero3|]. split; [exact entropy_half3|].
  split; [exact Hnear|]. split; [exact Hround|].
  split; [rewrite activation_zero3; exact Hcol|].
  split; [rewrite activation_zero3; exact argmax_half3|].
  exact collapse_zero3.
Qed.

(** C3 as stated fails: the components of [softmax([0])] sum to
    [1 / (1 + EPS)], which is not [1]. *)
Lemma softmax_sum_is_not_one :
  softmax [0] = Some [1 / (1 + EPS)] /\ np_sum [1 / (1 + EPS)] <> 1.
Proof.
  pose proof EPS_pos as He. split.
  - unfold softmax; simpl. rewrite Rminus_diag, exp_0.
    rewrite Rplus_0_r. reflexivity.
  - simpl. rewrite Rplus_0_r. intros H.
    apply (f_equal (fun t => t * (1 + EPS))) in H.
    unfold Rdiv in H. rewrite Rmult_assoc, Rinv_l in H by lra. lra.
Qed.

(** C3, amended.  For every non-empty vector [x], [softmax(x)] subtracts the
    maximum [m] of [x] before exponentiating and divides by the sum [s] of
    the exponentials plus [EPS]; its components therefore sum to
    [s / (s + EPS)], which lies strictly between [1 - EPS] and [1]. *)
Theorem softmax_sums_just_below_one (x0 : R) (xs : list R) :
  exists m p,
    np_max (x0 :: xs) = Some m /\
    Forall (fun y => y <= m) (x0 :: xs) /\
    softmax (x0 :: xs) = Some p /\
    let s := np_sum (map (fun xi => exp (xi - m)) (x0 :: xs)) in
    p = map (fun xi => exp (xi - m) / (s + EPS)) (x0 :: xs) /\
    np_sum p = s / (s + EPS) /\
    1 - EPS < np_sum p < 1.
Proof.
  destruct (np_max_spec x0 xs) as (m & Hm & Hin & Hall).
  set (x := x0 :: xs) in *.
  set (s := np_sum (map (fun xi => exp (xi - m)) x)).
  exists m, (map (fun xi => exp (xi - m) / (s + EPS)) x).
  assert (Hs1 : 1 <= s).
  { unfold s. rewrite <- (map_map (fun xi => xi - m) exp).
    apply np_sum_exp_shift_ge_1. exact Hin. }
  pose proof EPS_pos as He.
  assert (Hsum : np_sum (map (fun xi => exp (xi - m) / (s + EPS)) x) = s / (s + EPS)).
  { rewrite <- (map_map (fun xi => exp (xi - m)) (fun e => e / (s + EPS))).
    rewrite np_sum_div. reflexivity. }
  split; [exact Hm|]. split; [exact Hall|]. split.
  - unfold softmax. rewrite Hm. cbv zeta. f_equal.
    rewrite !map_map. fold s. reflexivity.
  - cbv zeta. fold s. split; [reflexivity|]. split; [exact Hsum|].
    rewrite Hsum. split.
    + apply Rmult_lt_reg_r with (s + EPS); [lra|].
      unfold Rdiv. rewrite Rmult_assoc, Rinv_l by lra. nra.
    + apply Rmult_lt_reg_r with (s + EPS); [lra|].
      unfold Rdiv. rewrite Rmult_assoc, Rinv_l by lra. lra.
Qed.

(** C4 as stated fails: the entropy of the one-component vector [[2]] is
    negative. *)
Lemma entropy_of_two_is_negative : entropy [2] < 0.
Proof.
  unfold entropy; simpl. rewrite Rplus_0_r.
  pose proof EPS_pos as He.
  assert (0 < ln (2 * (2 * 1) + EPS)).
  { rewrite <- ln_1. apply ln_increasing; lra. }
  lra.
Qed.

(** C4, amended.  For every real vector [a] the logarithms of [entropy(a)]
    are taken at positive arguments, so the entropy is defined; and
    [entropy(a) >= 0] whenever every component satisfies
    [a_i^2 + EPS <= 1]. *)
Theorem entropy_nonneg_when_bounded (a : list R) :
  Forall (fun ai => 0 < ai ^ 2 + EPS) a
  /\ (Forall (fun ai => ai ^ 2 + EPS <= 1) a -> 0 <= entropy a).
Proof.
  split.
  - apply Forall_forall. intros ai _.
    pose proof EPS_pos. pose proof (pow2_ge_0 ai). lra.
  - intros H. unfold entropy.
    (* every term [p * ln (p + EPS)] is at most zero *)
    assert (Hs : np_sum (map (fun p => p * ln (p + EPS)) (map (fun ai => ai ^ 2) a)) <= 0).
    { induction H as [|ai a Hai _ IH]; simpl; [lra|].
      pose proof EPS_pos as He. pose proof (pow2_ge_0 ai) as Hp. simpl in Hp, Hai.
      assert (Hln : ln (ai * (ai * 1) + EPS) <= 0).
      { destruct Hai as [Hlt|Heq].
        - rewrite <- ln_1. apply Rlt_le, ln_increasing; lra.
        - rewrite Heq, ln_1. lra. }
      simpl in IH. nra. }
    lra.
Qed.

Lemma entropy_nonneg_when_bounded_witness :
  Forall (fun ai => ai ^ 2 + EPS <= 1) [1 / 2; 1 / 2; 1 / 2]
  /\ 0 <= entropy [1 / 2; 1 / 2; 1 / 2].
Proof.
  assert (H : Forall (fun ai => ai ^ 2 + EPS <= 1) [1 / 2; 1 / 2; 1 / 2]).
  { pose proof EPS_val as He. repeat constructor; rewrite He; lra. }
  split; [exact H|].
  exact (proj2 (entropy_nonneg_when_bounded [1 / 2; 1 / 2; 1 / 2]) H).
Defined.

End FieldDynamicsClaims.

(** ** Semantic retriever *)





Section RetrieverClaims.
Local Open Scope R_scope.


End RetrieverClaims.


(** ** Field state loader *)



(* ================================================================== *)
(** * Further properties of the code                                   *)
(* ================================================================== *)

Import GraphQueries GraphQuerySpecs RetrieverBatch UserFiles Counterfactual.
Import MoreExamples.

(** ** Auxiliary facts *)

Module FieldDynamicsFacts.
Local Open Scope R_scope.

Lemma sigmoid_range (x : R) : 0 < 1 / (1 + exp (- x)) < 1.
Proof.
  pose proof (exp_pos (- x)) as He.
  split.
  - apply Rdiv_lt_0_compat; lra.
  - apply Rmult_lt_reg_r with (1 + exp (- x)); [lra|].
    unfold Rdiv. rewrite Rmult_assoc, Rinv_l by lra. lra.
Qed.

(** The scan of [np.argmax] on a list, by the value and the index it ends on. *)
Lemma argmax_from_spec (l : list R) : forall best bv i,
  (argmax_from best bv i l = best /\ Forall (fun x => x <= bv) l)
  \/ (exists k v, argmax_from best bv i l = (i + k)%nat /\
        nth_error l k = Some v /\ bv < v /\
        (forall j x, (j < k)%nat -> nth_error l j = Some x -> x < v) /\
        Forall (fun x => x <= v) l).
Proof.
  induction l as [|x xs IH]; intros best bv i; simpl.
  - left. split; [reflexivity|constructor].
  - destruct (Rlt_dec bv x) as [Hlt|Hge].
    + right. destruct (IH i x (S i)) as [[Hr Hall]|(k & v & Hr & Hk & Hv & Hbefore & Hall)].
      * exists 0%nat, x. rewrite Hr. split; [lia|]. split; [reflexivity|].
        split; [exact Hlt|]. split; [intros j y Hj; lia|].
        constructor; [lra|exact Hall].
      * exists (S k), v. rewrite Hr. split; [lia|]. split; [exact Hk|].
        split; [lra|]. split.
        -- intros [|j] y Hj Hy; simpl in Hy.
           ++ injection Hy as <-. exact Hv.
           ++ apply (Hbefore j); [lia|exact Hy].
        -- constructor; [lra|exact Hall].
    + destruct (IH best bv (S i)) as [[Hr Hall]|(k & v & Hr & Hk & Hv & Hbefore & Hall)].
      * left. split; [exact Hr|]. constructor; [lra|exact Hall].
      * right. exists (S k), v. rewrite Hr. split; [lia|]. split; [exact Hk|].
        split; [exact Hv|]. split.
        -- intros [|j] y Hj Hy; simpl in Hy.
           ++ injection Hy as <-. lra.
           ++ apply (Hbefore j); [lia|exact Hy].
        -- constructor; [lra|exact Hall].
Qed.

Lemma np_argmax_spec (x : R) (xs : list R) :
  exists i v, np_argmax (x :: xs) = Some i /\ nth_error (x :: xs) i = Some v /\
    Forall (fun y => y <= v) (x :: xs) /\
    (forall j y, (j < i)%nat -> nth_error (x :: xs) j = Some y -> y < v).
Proof.
  unfold np_argmax.
  destruct (argmax_from_spec xs 0 x 1) as [[Hr Hall]|(k & v & Hr & Hk & Hv & Hbefore & Hall)].
  - exists 0%nat, x. rewrite Hr. split; [reflexivity|]. split; [reflexivity|].
    split; [constructor; [lra|exact Hall]|]. intros j y Hj; lia.
  - exists (S k), v. rewrite Hr. split; [reflexivity|]. split; [exact Hk|].
    split; [constructor; [lra|exact Hall]|].
    intros [|j] y Hj Hy; simpl in Hy.
    + injection Hy as <-. exact Hv.
    + apply (Hbefore j); [lia|exact Hy].
Qed.

Lemma length_add_at (l : list R) : forall i d, List.length (add_at l i d) = List.length l.
Proof.
  induction l as [|x xs IH]; intros [|i] d; simpl; try reflexivity.
  rewrite IH. reflexivity.
Qed.

Lemma nth_add_at (l : list R) : forall i d j,
  (i < List.length l)%nat ->
  nth j (add_at l i d) 0 = nth j l 0 + (if (j =? i)%nat then d else 0).
Proof.
  induction l as [|x xs IH]; intros i d j Hi; simpl in Hi; [lia|].
  destruct i as [|i], j as [|j]; simpl; try lra.
  apply IH. lia.
Qed.

Lemma np_sum_add_at (l : list R) : forall i d,
  (i < List.length l)%nat -> np_sum (add_at l i d) = np_sum l + d.
Proof.
  induction l as [|x xs IH]; intros i d Hi; simpl in Hi; [lia|].
  destruct i as [|i]; simpl.
  - unfold np_sum. simpl. lra.
  - unfold np_sum in *. simpl. rewrite IH by lia. lra.
Qed.

Lemma np_sum_scale (c : R) (l : list R) :
  np_sum (map (Rmult c) l) = c * np_sum l.
Proof.
  unfold np_sum. induction l as [|x xs IH]; simpl; [lra|]. rewrite IH. lra.
Qed.

Lemma np_index_in_range (n : nat) (i : Z) :
  (- Z.of_nat n <= i < Z.of_nat n)%Z ->
  np_index n i = Some (Z.to_nat (i mod Z.of_nat n))
  /\ (Z.to_nat (i mod Z.of_nat n) < n)%nat.
Proof.
  intros [Hlo Hhi]. unfold np_index.
  assert (Hn : (0 < Z.of_nat n)%Z) by lia.
  split; [|pose proof (Z.mod_pos_bound i (Z.of_nat n) Hn); lia].
  destruct (0 <=? i)%Z eqn:H0.
  - apply Z.leb_le in H0.
    destruct (i <? Z.of_nat n)%Z eqn:H1; [|apply Z.ltb_ge in H1; lia].
    rewrite Z.mod_small by lia. reflexivity.
  - apply Z.leb_gt in H0.
    destruct (- Z.of_nat n <=? i)%Z eqn:H1; [|apply Z.leb_gt in H1; lia].
    f_equal. f_equal.
    apply Z.mod_unique with (q := (-1)%Z); [left; lia|lia].
Qed.

Lemma np_index_out_of_range (n : nat) (i : Z) :
  np_index n i = None <-> (i < - Z.of_nat n \/ Z.of_nat n <= i)%Z.
Proof.
  unfold np_index.
  destruct (0 <=? i)%Z eqn:H0.
  - apply Z.leb_le in H0.
    destruct (i <? Z.of_nat n)%Z eqn:H1.
    + apply Z.ltb_lt in H1. split; [discriminate|lia].
    + apply Z.ltb_ge in H1. split; [lia|reflexivity].
  - apply Z.leb_gt in H0.
    destruct (- Z.of_nat n <=? i)%Z eqn:H1.
    + apply Z.leb_le in H1. split; [discriminate|lia].
    + apply Z.leb_gt in H1. split; [lia|reflexivity].
Qed.

Lemma fold_left_Rmax_shift (c : R) (l : list R) : forall x,
  fold_left Rmax (map (fun y => y + c) l) (x + c) = fold_left Rmax l x + c.
Proof.
  induction l as [|y ys IH]; intros x; simpl; [reflexivity|].
  replace (Rmax (x + c) (y + c)) with (Rmax x y + c); [apply IH|].
  unfold Rmax. destruct (Rle_dec x y), (Rle_dec (x + c) (y + c)); lra.
Qed.

Lemma np_argmax_max (l : list R) (i : nat) :
  np_argmax l = Some i ->
  (i < List.length l)%nat
  /\ forall j, (j < List.length l)%nat -> nth j l 0 <= nth i l 0.
Proof.
  destruct l as [|x xs]; [discriminate|]. intros H.
  destruct (np_argmax_spec x xs) as (i' & v & Hi' & Hv & Hall & _).
  rewrite H in Hi'. injection Hi' as <-.
  assert (Hlt : (i < List.length (x :: xs))%nat)
    by (apply nth_error_Some; rewrite Hv; discriminate).
  split; [exact Hlt|]. intros j Hj.
  rewrite (nth_error_nth _ _ 0 Hv).
  rewrite Forall_forall in Hall. apply Hall, nth_In, Hj.
Qed.

Lemma np_argmax_first (l : list R) (i : nat) :
  np_argmax l = Some i ->
  forall j, (j < i)%nat -> nth j l 0 < nth i l 0.
Proof.
  destruct l as [|x xs]; [discriminate|]. intros H j Hj.
  destruct (np_argmax_spec x xs) as (i' & v & Hi' & Hv & _ & Hb).
  rewrite H in Hi'. injection Hi' as <-.
  assert (Hlt : (i < List.length (x :: xs))%nat)
    by (apply nth_error_Some; rewrite Hv; discriminate).
  rewrite (nth_error_nth _ _ 0 Hv).
  apply (Hb j); [exact Hj|]. apply nth_error_nth'. lia.
Qed.

Lemma np_argmax_in_range (l : list R) (i : nat) :
  np_argmax l = Some i -> (i < List.length l)%nat.
Proof.
  destruct l as [|x xs]; [discriminate|]. intros H.
  destruct (np_argmax_spec x xs) as (i' & v & Hi' & Hv & _).
  rewrite H in Hi'. injection Hi' as <-.
  apply nth_error_Some. rewrite Hv. discriminate.
Qed.

Lemma collapse_weights_some (w : list R) (i : nat) (alpha : R) :
  (i < List.length w)%nat ->
  collapse_weights w (Z.of_nat i) alpha
  = Some (add_at (map (Rmult (1 - alpha)) w) i alpha).
Proof.
  intros Hi. unfold collapse_weights, np_index. rewrite length_map.
  destruct (0 <=? Z.of_nat i)%Z eqn:H0; [|apply Z.leb_gt in H0; lia].
  destruct (Z.of_nat i <? Z.of_nat (List.length w))%Z eqn:H1;
    [|apply Z.ltb_ge in H1; lia].
  rewrite Nat2Z.id. reflexivity.
Qed.

(** The shapes on which the array products of a turn are defined. *)
Lemma rows_of_length (n : nat) (m : list (list R)) :
  (forall row, In row m -> List.length row = n) ->
  forallb (fun row => (List.length row =? n)%nat) m = true.
Proof.
  intros H. apply forallb_forall. intros row Hr. apply Nat.eqb_eq, H, Hr.
Qed.

Lemma project_state_rows (D : nat) (a : list R) (psi : list (list R)) :
  List.length a = List.length psi ->
  (forall row, In row psi -> List.length row = D) ->
  project_state D a psi = Some (weighted_rows D (combine a psi)).
Proof.
  intros Hl Hrows. unfold project_state.
  rewrite (rows_of_length _ Hrows), Hl, Nat.eqb_refl. reflexivity.
Qed.

Lemma resonance_square (a : list R) (W : list (list R)) :
  List.length W = List.length a ->
  (forall row, In row W -> List.length row = List.length a) ->
  resonance a W = Some (np_dot (weighted_rows (List.length a) (combine a W)) a).
Proof.
  intros Hl Hrows. unfold resonance.
  rewrite (rows_of_length _ Hrows), Hl, Nat.eqb_refl. reflexivity.
Qed.

Lemma resonance_rows_mismatch (a : list R) (W : list (list R)) :
  List.length W <> List.length a -> resonance a W = None.
Proof.
  intros Hl. unfold resonance.
  apply Nat.eqb_neq in Hl. rewrite Hl. reflexivity.
Qed.

Lemma feedback_modulation_same_length (lambda_vec F : list R) :
  List.length lambda_vec = List.length F ->
  feedback_modulation lambda_vec F = Some (np_dot lambda_vec F).
Proof.
  intros Hl. unfold feedback_modulation. rewrite Hl, Nat.eqb_refl. reflexivity.
Qed.

Lemma feedback_modulation_mismatch (lambda_vec F : list R) :
  List.length lambda_vec <> List.length F ->
  feedback_modulation lambda_vec F = None.
Proof.
  intros Hl. unfold feedback_modulation.
  apply Nat.eqb_neq in Hl. rewrite Hl. reflexivity.
Qed.

(** What a turn of [chat] computes, read back from its result. *)
Lemma chat_field_inv (fl : R -> R) (D : nat) (st : FieldState) (t : Turn) :
  chat_field fl D st = Some t ->
  np_argmax (map fl (fs_w st)) = Some (t_collapsed_index t)
  /\ t_prev_w t = fs_w st
  /\ t_activation t = map fl (fs_w st)
  /\ t_entropy t = entropy (map fl (fs_w st))
  /\ t_collapsed t = check_collapse (t_entropy t) (fs_S_crit st)
  /\ (if t_collapsed t
      then collapse_weights (fs_w st) (Z.of_nat (t_collapsed_index t)) (fs_alpha st)
           = Some (t_new_w t)
      else t_new_w t = fs_w st).
Proof.
  unfold chat_field.
  destruct (resonance (map fl (fs_w st)) (fs_W st)) as [E|]; [|discriminate].
  destruct (project_state D (map fl (fs_w st)) (fs_psi st)) as [p|]; [|discriminate].
  destruct (feedback_modulation (fs_lambda st) (fs_F st)) as [f|]; [|discriminate].
  destruct (softmax (fs_w st)) as [sm|]; [|discriminate].
  destruct (np_argmax (map fl (fs_w st))) as [idx|] eqn:Hidx; [|discriminate].
  destruct (check_collapse (entropy (map fl (fs_w st))) (fs_S_crit st)) eqn:Hc.
  - destruct (collapse_weights (fs_w st) (Z.of_nat idx) (fs_alpha st)) as [w'|] eqn:Hw;
      [|discriminate].
    intros H. injection H as <-. simpl. rewrite Hw, Hc. repeat split; reflexivity.
  - intros H. injection H as <-. simpl. rewrite Hc. repeat split; reflexivity.
Qed.

Lemma chat_field_some (fl : R -> R) (D : nat) (st : FieldState) :
  fs_w st <> [] ->
  List.length (fs_W st) = List.length (fs_w st) ->
  (forall row, In row (fs_W st) -> List.length row = List.length (fs_w st)) ->
  List.length (fs_psi st) = List.length (fs_w st) ->
  (forall row, In row (fs_psi st) -> List.length row = D) ->
  List.length (fs_lambda st) = List.length (fs_F st) ->
  exists t, chat_field fl D st = Some t.
Proof.
  intros Hw HW HWr Hpsi Hpsir Hf. unfold chat_field.
  rewrite resonance_square by (rewrite length_map; assumption).
  rewrite project_state_rows by (rewrite ?length_map; auto).
  rewrite (feedback_modulation_same_length _ _ Hf).
  destruct (fs_w st) as [|x xs] eqn:Hwe; [congruence|].
  destruct (softmax_nonempty x xs) as (sm & ->).
  destruct (np_argmax (map fl (x :: xs))) as [idx|] eqn:Hidx; [|discriminate].
  destruct (check_collapse _ _); [|eexists; reflexivity].
  pose proof (@np_argmax_in_range _ _ Hidx) as Hlt.
  rewrite length_map in Hlt.
  rewrite (@collapse_weights_some _ _ _ Hlt). eexists; reflexivity.
Qed.

(** One term of the entropy sum is at most [1/e]. *)
Lemma entropy_term_le (x : R) : 0 <= x -> - (x * ln (x + EPS)) <= exp (- 1).
Proof.
  intros Hx. pose proof EPS_pos as He. pose proof (exp_pos (- 1)) as Hp.
  destruct (Rle_or_lt 1 (x + EPS)) as [H1|H1].
  - assert (0 <= ln (x + EPS)).
    { rewrite <- ln_1. destruct H1 as [H1|<-]; [|lra].
      apply Rlt_le, ln_increasing; lra. }
    assert (0 <= x * ln (x + EPS)) by (apply Rmult_le_pos; assumption). lra.
  - set (y := x + EPS) in *.
    assert (Hy : 0 < y) by (unfold y; lra).
    assert (Hln : ln y < 0) by (rewrite <- ln_1; apply ln_increasing; lra).
    assert (Hbound : - (y * ln y) <= exp (- 1)).
    { pose proof (exp_ineq1_le (- 1 - ln y)) as Hi.
      replace (- 1 - ln y) with (- 1 + - ln y) in Hi by lra.
      rewrite exp_plus, exp_Ropp, exp_ln in Hi by exact Hy.
      assert (Hm : (1 + (- 1 + - ln y)) * y <= exp (- 1) * / y * y)
        by (apply Rmult_le_compat_r; lra).
      rewrite Rmult_assoc, Rinv_l in Hm by lra. lra. }
    assert (x <= y) by (unfold y; lra).
    assert (- (x * ln y) <= - (y * ln y)) by nra.
    lra.
Qed.

Lemma np_sum_le_each (f : R -> R) (c : R) (l : list R) :
  (forall x, In x l -> f x <= c) ->
  np_sum (map f l) <= INR (List.length l) * c.
Proof.
  unfold np_sum. induction l as [|x l IH]; intros H.
  - simpl. lra.
  - change (List.length (x :: l)) with (S (List.length l)). rewrite S_INR.
    simpl fold_right. pose proof (H x (or_introl eq_refl)).
    assert (fold_right Rplus 0 (map f l) <= INR (List.length l) * c)
      by (apply IH; intros y Hy; apply H; right; exact Hy).
    lra.
Qed.

Lemma nth_add_rows (row acc : list R) (j : nat) :
  List.length row = List.length acc -> (j < List.length acc)%nat ->
  nth j (map (fun p => fst p + snd p) (combine row acc)) 0 = nth j row 0 + nth j acc 0.
Proof.
  revert acc j. induction row as [|x row IH]; intros [|y acc] [|j] Hl Hj;
    simpl in *; try lia; try reflexivity.
  apply IH; lia.
Qed.

(** The fold of [np.sum(..., axis=0)] over rows of length [D]. *)
Lemma sum_rows_spec (D : nat) (l : list (R * list R)) :
  (forall p, In p l -> List.length (snd p) = D) ->
  let out := weighted_rows D l in
  List.length out = D
  /\ forall j, (j < D)%nat ->
       nth j out 0 = np_sum (map (fun p => fst p * nth j (snd p) 0) l).
Proof.
  unfold weighted_rows.
  induction l as [|[c r] l IH]; intros H; cbn zeta.
  - simpl. split; [apply repeat_length|].
    intros j Hj. unfold np_sum. simpl. apply nth_repeat.
  - destruct IH as [Hlen Hnth]; [intros p Hp; apply H; right; exact Hp|].
    cbn zeta in Hlen, Hnth. cbn [map fold_right fst snd].
    set (acc := fold_right _ _ _) in *.
    assert (Hr : List.length (map (Rmult c) r) = List.length acc).
    { rewrite length_map, Hlen. apply (H (c, r)). left. reflexivity. }
    split.
    + rewrite length_map, length_combine, Hr, Nat.min_id. exact Hlen.
    + intros j Hj. rewrite nth_add_rows by (first [exact Hr|rewrite Hlen; exact Hj]).
      rewrite Hnth by exact Hj.
      replace 0 with (Rmult c 0) at 1 by lra. rewrite map_nth.
      unfold np_sum. simpl. reflexivity.
Qed.

End FieldDynamicsFacts.

Module GraphQueryFacts.
Local Open Scope string_scope.
Local Open Scope list_scope.

Section SortLemmas.
Variable A : Type.
Variable key : A -> datetime.

Lemma insert_desc_by_ok (x : A) (l : list A) :
  (forall y, In y l -> is_aware (key y) = is_aware (key x)) ->
  exists l1 l2,
    insert_desc_by key x l = Returns (l1 ++ x :: l2) /\ l = l1 ++ l2 /\
    (forall y, In y l1 -> newer_eq key y x) /\
    (match l2 with
     | [] => True
     | y :: _ => (sort_instant (key y) < sort_instant (key x))%Z
     end).
Proof.
  induction l as [|y l IH]; intros Hk.
  - exists [], []. simpl. split; [reflexivity|]. split; [reflexivity|].
    split; [intros ? []|exact I].
  - simpl. rewrite (dt_lt_same_kind (key y) (key x)) by (apply Hk; left; reflexivity).
    simpl. destruct (sort_instant (key y) <? sort_instant (key x))%Z eqn:Hlt.
    + exists [], (y :: l). simpl. apply Z.ltb_lt in Hlt.
      split; [reflexivity|]. split; [reflexivity|]. split; [intros ? []|exact Hlt].
    + apply Z.ltb_ge in Hlt.
      destruct IH as (l1 & l2 & Hr & Hl & H1 & H2).
      { intros z Hz. apply Hk. right. exact Hz. }
      exists (y :: l1), l2. rewrite Hr. simpl.
      split; [reflexivity|]. split; [rewrite Hl; reflexivity|].
      split; [|exact H2].
      intros z [<-|Hz]; [exact Hlt|apply H1, Hz].
Qed.

Lemma insert_sorted (x : A) (l1 l2 : list A) :
  StronglySorted (newer_eq key) (l1 ++ l2) ->
  (forall y, In y l1 -> newer_eq key y x) ->
  (match l2 with
   | [] => True
   | y :: _ => (sort_instant (key y) < sort_instant (key x))%Z
   end) ->
  StronglySorted (newer_eq key) (l1 ++ x :: l2).
Proof.
  induction l1 as [|a l1 IH]; simpl; intros Hs H1 H2.
  - constructor; [exact Hs|].
    destruct l2 as [|y l2]; [constructor|].
    apply StronglySorted_inv in Hs. destruct Hs as [_ Hall].
    constructor; [unfold newer_eq; lia|].
    rewrite Forall_forall in *. intros z Hz. specialize (Hall z Hz).
    unfold newer_eq in *. lia.
  - apply StronglySorted_inv in Hs. destruct Hs as [Hs Hall].
    constructor; [apply IH; auto|].
    rewrite Forall_forall in *. intros z Hz.
    apply in_app_or in Hz. destruct Hz as [Hz|[<-|Hz]].
    + apply Hall, in_or_app. left. exact Hz.
    + apply H1. left. reflexivity.
    + apply Hall, in_or_app. right. exact Hz.
Qed.

Lemma sort_desc_by_from (l : list A) : forall a,
  (forall p q, In p (a ++ l) -> In q (a ++ l) -> is_aware (key p) = is_aware (key q)) ->
  StronglySorted (newer_eq key) a ->
  exists r,
    fold_left (fun acc x => bind acc (insert_desc_by key x)) l (Returns a) = Returns r
    /\ Permutation r (a ++ l) /\ StronglySorted (newer_eq key) r.
Proof.
  induction l as [|x l IH]; intros a Hk Hs.
  - exists a. simpl. rewrite app_nil_r. auto.
  - simpl.
    destruct (@insert_desc_by_ok x a) as (l1 & l2 & Hr & Hl & H1 & H2).
    { intros y Hy. apply Hk; apply in_or_app; [left; exact Hy|right; left; reflexivity]. }
    rewrite Hr.
    assert (Hp : Permutation (l1 ++ x :: l2) (a ++ [x])).
    { rewrite Hl. rewrite <- app_assoc. apply Permutation_app_head.
      change (x :: l2) with ([x] ++ l2). apply Permutation_app_comm. }
    destruct (IH (l1 ++ x :: l2)) as (r & Hf & Hperm & Hsorted).
    + intros p q Hp' Hq'. apply Hk.
      * apply in_app_or in Hp'. destruct Hp' as [Hp'|Hp'].
        -- apply (Permutation_in _ Hp) in Hp'. apply in_app_or in Hp'.
           apply in_or_app. destruct Hp' as [?|[<-|[]]]; [left; assumption|right; left; reflexivity].
        -- apply in_or_app. right. right. exact Hp'.
      * apply in_app_or in Hq'. destruct Hq' as [Hq'|Hq'].
        -- apply (Permutation_in _ Hp) in Hq'. apply in_app_or in Hq'.
           apply in_or_app. destruct Hq' as [?|[<-|[]]]; [left; assumption|right; left; reflexivity].
        -- apply in_or_app. right. right. exact Hq'.
    + apply insert_sorted; [rewrite <- Hl; exact Hs|exact H1|exact H2].
    + exists r. split; [exact Hf|]. split; [|exact Hsorted].
      eapply Permutation_trans; [exact Hperm|].
      change (x :: l) with ([x] ++ l). rewrite app_assoc.
      apply Permutation_app_tail. exact Hp.
Qed.

Lemma sort_desc_by_ok (l : list A) :
  (forall p q, In p l -> In q l -> is_aware (key p) = is_aware (key q)) ->
  exists r, sort_desc_by key l = Returns r
            /\ Permutation r l /\ StronglySorted (newer_eq key) r.
Proof.
  intros Hk. apply (@sort_desc_by_from l []); [exact Hk|constructor].
Qed.

Lemma fold_insert_raises (l : list A) (e : exn) :
  fold_left (fun acc x => bind acc (insert_desc_by key x)) l (Raises e) = Raises e.
Proof.
  induction l as [|x l IH]; simpl; [reflexivity|exact IH].
Qed.

Lemma insert_desc_by_same (x : A) (l : list A) :
  (forall y, In y l -> is_aware (key y) = is_aware (key x)) ->
  exists r, insert_desc_by key x l = Returns r /\ (forall z, In z r <-> z = x \/ In z l).
Proof.
  intros Hk. destruct (insert_desc_by_ok x l Hk) as (l1 & l2 & Hr & Hl & _).
  exists (l1 ++ x :: l2). split; [exact Hr|].
  intros z. rewrite Hl, !in_app_iff. simpl.
  split; [intros [H|[H|H]]|intros [H|[H|H]]]; auto.
Qed.

(** Ordering a naive against an aware timestamp raises: the sort fails as
    soon as the list holds both kinds. *)
Lemma sort_desc_by_mixed_from (l : list A) : forall a y,
  In y a -> (forall p, In p a -> is_aware (key p) = is_aware (key y)) ->
  (exists x, In x l /\ is_aware (key x) <> is_aware (key y)) ->
  fold_left (fun acc x => bind acc (insert_desc_by key x)) l (Returns a)
  = Raises TypeError.
Proof.
  induction l as [|x l IH]; intros a y Hy Ha (z & Hz & Hne); [destruct Hz|].
  simpl. destruct (Bool.bool_dec (is_aware (key x)) (is_aware (key y))) as [Heq|Hdiff].
  - destruct (@insert_desc_by_same x a) as (r & Hr & Hin).
    { intros p Hp. rewrite Heq. apply Ha, Hp. }
    rewrite Hr. apply (IH r y).
    + apply Hin. right. exact Hy.
    + intros p Hp. apply Hin in Hp. destruct Hp as [->|Hp]; [exact Heq|apply Ha, Hp].
    + destruct Hz as [<-|Hz]; [contradiction|]. exists z. split; assumption.
  - assert (Hraise : insert_desc_by key x a = Raises TypeError).
    { destruct a as [|h a']; [destruct Hy|]. simpl.
      assert (Hh : is_aware (key h) <> is_aware (key x)).
      { rewrite (Ha h) by (left; reflexivity). congruence. }
      unfold dt_lt. unfold is_aware in Hh.
      destruct (utcoffset (key h)), (utcoffset (key x)); try reflexivity; congruence. }
    rewrite Hraise. apply fold_insert_raises.
Qed.

Lemma sort_desc_by_mixed (l : list A) (x y : A) :
  In x l -> In y l -> is_aware (key x) <> is_aware (key y) ->
  sort_desc_by key l = Raises TypeError.
Proof.
  intros Hx Hy Hne. unfold sort_desc_by.
  destruct l as [|h l]; [destruct Hx|]. simpl.
  destruct (Bool.bool_dec (is_aware (key x)) (is_aware (key h))) as [Hxh|Hxh].
  - apply (@sort_desc_by_mixed_from l [h] h); [left; reflexivity| |].
    + intros p [<-|[]]. reflexivity.
    + exists y. split; [|congruence].
      destruct Hy as [<-|Hy]; [congruence|exact Hy].
  - apply (@sort_desc_by_mixed_from l [h] h); [left; reflexivity| |].
    + intros p [<-|[]]. reflexivity.
    + exists x. split; [|exact Hxh].
      destruct Hx as [<-|Hx]; [congruence|exact Hx].
Qed.

Lemma insert_desc_by_In (x : A) (l r : list A) :
  insert_desc_by key x l = Returns r -> forall z, In z r -> z = x \/ In z l.
Proof.
  revert r. induction l as [|y l IH]; simpl; intros r H z Hz.
  - injection H as <-. destruct Hz as [<-|[]]. left. reflexivity.
  - destruct (dt_lt (key y) (key x)) as [[|]|e]; simpl in H; [| |discriminate].
    + injection H as <-. destruct Hz as [<-|Hz]; [left; reflexivity|right; exact Hz].
    + destruct (insert_desc_by key x l) as [r'|e]; simpl in H; [|discriminate].
      injection H as <-. destruct Hz as [<-|Hz]; [right; left; reflexivity|].
      destruct (IH r' eq_refl z Hz) as [->|H']; [left; reflexivity|right; right; exact H'].
Qed.

Lemma sort_desc_by_In_from (l : list A) : forall a r,
  fold_left (fun acc x => bind acc (insert_desc_by key x)) l (Returns a) = Returns r ->
  forall z, In z r -> In z a \/ In z l.
Proof.
  induction l as [|x l IH]; simpl; intros a r H z Hz.
  - injection H as <-. left. exact Hz.
  - destruct (insert_desc_by key x a) as [a'|e] eqn:Hi.
    + destruct (IH a' r H z Hz) as [H'|H']; [|right; right; exact H'].
      destruct (insert_desc_by_In _ _ Hi z H') as [->|H'']; [right; left; reflexivity|].
      left. exact H''.
    + rewrite fold_insert_raises in H. discriminate.
Qed.

Lemma sort_desc_by_In (l r : list A) :
  sort_desc_by key l = Returns r -> forall z, In z r -> In z l.
Proof.
  intros H z Hz. destruct (sort_desc_by_In_from _ _ H z Hz) as [[]|H']. exact H'.
Qed.

End SortLemmas.

(** Sorting commutes with a map that keeps the keys. *)
Lemma insert_desc_by_map (A B : Type) (keyA : A -> datetime) (keyB : B -> datetime)
  (f : A -> B) (x : A) (l : list A) :
  (forall a, keyB (f a) = keyA a) ->
  insert_desc_by keyB (f x) (map f l)
  = bind (insert_desc_by keyA x l) (fun r => Returns (map f r)).
Proof.
  intros Hf. induction l as [|y l IH]; simpl; [reflexivity|].
  rewrite !Hf. destruct (dt_lt (keyA y) (keyA x)) as [[|]|e]; simpl; try reflexivity.
  rewrite IH. destruct (insert_desc_by keyA x l); reflexivity.
Qed.

Lemma sort_desc_by_map (A B : Type) (keyA : A -> datetime) (keyB : B -> datetime)
  (f : A -> B) (l : list A) :
  (forall a, keyB (f a) = keyA a) ->
  sort_desc_by keyB (map f l)
  = bind (sort_desc_by keyA l) (fun r => Returns (map f r)).
Proof.
  intros Hf. unfold sort_desc_by.
  change (Returns (@nil B)) with (bind (Returns (@nil A)) (fun r => Returns (map f r))).
  generalize (Returns (@nil A)) as acc.
  induction l as [|x l IH]; intros acc; simpl; [reflexivity|].
  rewrite <- IH. f_equal.
  destruct acc as [a|e]; simpl; [|reflexivity].
  apply insert_desc_by_map. exact Hf.
Qed.

Lemma insert_desc_is_by (x : string * datetime) (l : list (string * datetime)) :
  insert_desc x l = insert_desc_by snd x l.
Proof.
  induction l as [|y l IH]; simpl; [reflexivity|]. rewrite IH. reflexivity.
Qed.

Lemma sort_desc_is_by (l : list (string * datetime)) :
  sort_desc l = sort_desc_by snd l.
Proof.
  unfold sort_desc, sort_desc_by. generalize (Returns (@nil (string * datetime))) as acc.
  induction l as [|x l IH]; intros acc; simpl; [reflexivity|].
  rewrite <- IH. f_equal. destruct acc; simpl; [apply insert_desc_is_by|reflexivity].
Qed.

Lemma length_slice_first (A : Type) (k : Z) (l : list A) :
  List.length (slice_first k l)
  = Z.to_nat (if (0 <=? k)%Z then Z.min k (Z.of_nat (List.length l))
              else Z.max (Z.of_nat (List.length l) + k) 0).
Proof.
  unfold slice_first. rewrite length_firstn.
  destruct (0 <=? k)%Z eqn:Hk; [apply Z.leb_le in Hk|apply Z.leb_gt in Hk]; lia.
Qed.

(** Adding an event with a new id to a non-empty graph whose timestamps can
    be ordered: the call returns, and the edge comes from the node that the
    stable descending sort of the nodes puts first. *)
Lemma add_event_fresh_linked (g : DiGraph) (ev : MemoryEvent) :
  nodes g <> [] -> comparable g -> has_node g (id ev) = false ->
  exists n ev0 s',
    sort_desc_by (fun p : string * MemoryEvent => timestamp (snd p)) (nodes g)
    = Returns ((n, ev0) :: s')
    /\ In (n, ev0) (nodes g)
    /\ add_event g ev
       = (Returns tt, add_edge (add_node g (id ev) ev) n (id ev) "next_in_time").
Proof.
  intros Hne Hc Hfresh.
  destruct (@sort_desc_by_ok _ (fun p : string * MemoryEvent => timestamp (snd p))
              (nodes g)) as (s & Hs & Hperm & _).
  { intros p q Hp Hq. apply Hc; assumption. }
  destruct s as [|[n ev0] s'].
  { apply Permutation_nil in Hperm. congruence. }
  assert (Hin : In (n, ev0) (nodes g))
    by (apply (Permutation_in _ Hperm); left; reflexivity).
  exists n, ev0, s'. split; [exact Hs|]. split; [exact Hin|].
  assert (Hni : ~ In (id ev) (map fst (nodes g))).
  { intros H. apply has_node_In in H. congruence. }
  unfold add_event.
  assert (Hnodes : nodes (add_node g (id ev) ev) = nodes g ++ [(id ev, ev)]).
  { unfold add_node. simpl. apply (@assoc_set_new _ _ String.eqb); [|exact Hni].
    intros a b. apply String.eqb_eq. }
  rewrite Hnodes, (filter_fresh g ev Hfresh).
  rewrite length_map, length_app. simpl.
  destruct (nodes g) as [|p0 l0] eqn:Hng; [congruence|].
  replace (1 <? List.length (p0 :: l0) + 1)%nat with true
    by (symmetry; apply Nat.ltb_lt; simpl; lia).
  rewrite sort_desc_is_by.
  rewrite (@sort_desc_by_map _ _ (fun p : string * MemoryEvent => timestamp (snd p))
             snd (fun p => (fst p, timestamp (snd p))) (p0 :: l0)) by reflexivity.
  rewrite Hs. cbn [bind map fst snd].
  unfold link_events.
  assert (H1 : has_node (add_node g (id ev) ev) n = true).
  { rewrite has_node_add_node. apply orb_true_iff. right.
    apply has_node_In. rewrite Hng. apply in_map_iff.
    exists (n, ev0). split; [reflexivity|exact Hin]. }
  assert (H2 : has_node (add_node g (id ev) ev) (id ev) = true).
  { rewrite has_node_add_node. rewrite String.eqb_refl. reflexivity. }
  rewrite H1, H2. reflexivity.
Qed.

(** In either case the new node goes last. *)
Lemma add_event_fresh_nodes (g : DiGraph) (ev : MemoryEvent) :
  comparable g -> has_node g (id ev) = false ->
  fst (add_event g ev) = Returns tt
  /\ nodes (snd (add_event g ev)) = nodes g ++ [(id ev, ev)].
Proof.
  intros Hc Hfresh.
  assert (Hni : ~ In (id ev) (map fst (nodes g))).
  { intros H. apply has_node_In in H. congruence. }
  assert (Hnodes : nodes (add_node g (id ev) ev) = nodes g ++ [(id ev, ev)]).
  { unfold add_node. simpl. apply (@assoc_set_new _ _ String.eqb); [|exact Hni].
    intros a b. apply String.eqb_eq. }
  destruct (nodes g) as [|p0 l0] eqn:Hng.
  - unfold add_event. rewrite length_map, Hnodes. simpl. split; [reflexivity|].
    rewrite Hng. reflexivity.
  - destruct (@add_event_fresh_linked g ev) as (n & ev0 & s' & _ & _ & ->);
      [congruence|exact Hc|exact Hfresh|].
    split; [reflexivity|]. exact Hnodes.
Qed.

End GraphQueryFacts.

Module GraphShapeFacts.
Import GraphQueryFacts.
Local Open Scope string_scope.
Local Open Scope list_scope.

Lemma In_assoc_set (K V : Type) (eqb : K -> K -> bool) (k : K) (v : V)
  (d : list (K * V)) (e : K * V) :
  In e (assoc_set eqb k v d) -> e = (k, v) \/ In e d.
Proof.
  induction d as [|[k' v'] d IH]; simpl.
  - intros [<-|[]]. left. reflexivity.
  - destruct (eqb k k'); simpl.
    + intros [<-|H]; [left; reflexivity|right; right; exact H].
    + intros [<-|H]; [right; left; reflexivity|].
      destruct (IH H) as [->|H']; [left; reflexivity|right; right; exact H'].
Qed.

(** What [add_event] leaves behind: the graph with the node added, and, when
    the linking step went through, one edge from another node of the old
    graph to the new node. *)
Lemma add_event_graph_cases (g : DiGraph) (ev : MemoryEvent) :
  snd (add_event g ev) = add_node g (id ev) ev
  \/ exists last_id,
       last_id <> id ev /\ has_node g last_id = true
       /\ add_event g ev
          = (Returns tt,
             add_edge (add_node g (id ev) ev) last_id (id ev) "next_in_time").
Proof.
  unfold add_event.
  destruct (1 <? _)%nat; [|left; reflexivity].
  destruct (sort_desc _) as [[|[last_id t] r]|e] eqn:Hs; try (left; reflexivity).
  right. exists last_id.
  rewrite sort_desc_is_by in Hs.
  pose proof (sort_desc_by_In _ _ Hs (last_id, t) (or_introl eq_refl)) as Hin.
  apply in_map_iff in Hin. destruct Hin as ([n e] & Heq & Hin).
  simpl in Heq. injection Heq as -> _.
  apply filter_In in Hin. destruct Hin as [Hin Hne]. simpl in Hne.
  apply negb_true_iff, String.eqb_neq in Hne.
  assert (H1 : has_node (add_node g (id ev) ev) last_id = true).
  { apply has_node_In. apply in_map_iff. exists (last_id, e). split; [reflexivity|exact Hin]. }
  assert (H2 : has_node (add_node g (id ev) ev) (id ev) = true).
  { rewrite has_node_add_node, String.eqb_refl. reflexivity. }
  split; [exact Hne|]. split.
  - rewrite has_node_add_node in H1. apply orb_true_iff in H1.
    destruct H1 as [H1|H1]; [apply String.eqb_eq in H1; contradiction|exact H1].
  - unfold link_events. rewrite H1, H2. reflexivity.
Qed.

Lemma successors_nil (g : DiGraph) (v : string) :
  (forall e, In e (edges g) -> fst (fst e) <> v) -> successors g v = [].
Proof.
  intros H. unfold successors.
  induction (edges g) as [|e l IH]; simpl; [reflexivity|].
  destruct (String.eqb (fst (fst e)) v) eqn:E.
  - apply String.eqb_eq in E. exfalso. apply (H e); [left; reflexivity|exact E].
  - apply IH. intros e' He'. apply H. right. exact He'.
Qed.

Lemma bfs_levels_sink (g : DiGraph) (v : string) (c : nat) :
  successors g v = [] -> bfs_levels g c [v] [v] = [v].
Proof.
  intros Hs. destruct c as [|c]; [reflexivity|].
  cbn [bfs_levels fold_left]. unfold expand. rewrite Hs. simpl.
  destruct c; reflexivity.
Qed.

End GraphShapeFacts.

Module BreadthFirstFacts.
Local Open Scope string_scope.
Local Open Scope list_scope.

Lemma mem_In (x : string) (l : list string) : mem x l = true <-> In x l.
Proof.
  unfold mem. rewrite existsb_exists. split.
  - intros (y & Hy & E). apply String.eqb_eq in E. subst. exact Hy.
  - intros H. exists x. split; [exact H|apply String.eqb_refl].
Qed.

Lemma mem_false (x : string) (l : list string) : mem x l = false <-> ~ In x l.
Proof.
  rewrite <- mem_In. destruct (mem x l); split; congruence.
Qed.

Lemma successors_In (g : DiGraph) (u v : string) :
  In v (successors g u) <-> exists r, In ((u, v), r) (edges g).
Proof.
  unfold successors. rewrite in_map_iff. split.
  - intros ([[a b] r] & <- & H). apply filter_In in H. destruct H as [H E].
    simpl in E. apply String.eqb_eq in E. subst. exists r. exact H.
  - intros (r & H). exists ((u, v), r). split; [reflexivity|].
    apply filter_In. split; [exact H|]. simpl. apply String.eqb_refl.
Qed.

(** The inner loop adds to [seen] and to the next level the new nodes of
    the list it scans, once each. *)
Lemma fold_visit (ws : list string) : forall seen next,
  NoDup seen ->
  exists new,
    fold_left visit ws (seen, next) = (seen ++ new, next ++ new)
    /\ NoDup (seen ++ new)
    /\ forall w, In w new <-> In w ws /\ ~ In w seen.
Proof.
  induction ws as [|w ws IH]; intros seen next Hnd.
  - exists []. simpl. rewrite !app_nil_r. split; [reflexivity|].
    split; [exact Hnd|]. intros w. tauto.
  - simpl. unfold visit at 2. simpl.
    destruct (mem w seen) eqn:Hm.
    + apply mem_In in Hm.
      destruct (IH seen next Hnd) as (new & Hf & Hnd' & Hin).
      exists new. split; [exact Hf|]. split; [exact Hnd'|].
      intros x. rewrite Hin. split.
      * intros [H1 H2]. auto.
      * intros [[<-|H1] H2]; [contradiction|auto].
    + apply mem_false in Hm.
      assert (Hnd1 : NoDup (seen ++ [w])).
      { apply NoDup_app; [exact Hnd|repeat constructor; intros []|].
        intros x Hx [<-|[]]. contradiction. }
      destruct (IH (seen ++ [w]) (next ++ [w]) Hnd1) as (new & Hf & Hnd' & Hin).
      exists (w :: new). rewrite Hf.
      rewrite <- !app_assoc. simpl.
      split; [reflexivity|]. split; [rewrite <- app_assoc in Hnd'; exact Hnd'|].
      intros x. simpl. rewrite Hin, in_app_iff. simpl. split.
      * intros [<-|[H1 H2]]; [auto|]. split; [auto|]. intros H. apply H2. auto.
      * intros [[<-|H1] H2]; [auto|].
        destruct (string_dec w x) as [->|Hne]; [auto|].
        right. split; [exact H1|]. intros [H|[H|[]]]; [contradiction|congruence].
Qed.

Lemma fold_expand (g : DiGraph) (level : list string) : forall seen next,
  NoDup seen ->
  exists new,
    fold_left (expand g) level (seen, next) = (seen ++ new, next ++ new)
    /\ NoDup (seen ++ new)
    /\ forall w, In w new <->
         (exists v, In v level /\ In w (successors g v)) /\ ~ In w seen.
Proof.
  induction level as [|v level IH]; intros seen next Hnd.
  - exists []. simpl. rewrite !app_nil_r. split; [reflexivity|].
    split; [exact Hnd|]. intros w. split; [intros []|intros [(v & [] & _) _]].
  - simpl. unfold expand at 2.
    destruct (@fold_visit (successors g v) seen next Hnd) as (n1 & Hf1 & Hnd1 & Hin1).
    rewrite Hf1.
    destruct (IH (seen ++ n1) (next ++ n1) Hnd1) as (n2 & Hf2 & Hnd2 & Hin2).
    exists (n1 ++ n2). rewrite Hf2, <- !app_assoc.
    split; [reflexivity|]. split; [rewrite <- app_assoc in Hnd2; exact Hnd2|].
    intros w. rewrite in_app_iff, Hin1, Hin2. split.
    + intros [[H1 H2]|[(u & Hu & Hw) H2]].
      * split; [exists v; split; [left; reflexivity|exact H1]|exact H2].
      * split; [exists u; split; [right; exact Hu|exact Hw]|].
        intros H. apply H2, in_or_app. left. exact H.
    + intros [(u & [<-|Hu] & Hw) H2].
      * left. split; assumption.
      * destruct (in_dec string_dec w n1) as [Hn1|Hn1].
        -- left. apply Hin1. exact Hn1.
        -- right. split; [exists u; split; assumption|].
           intros H. apply in_app_or in H. destruct H as [H|H]; contradiction.
Qed.

Lemma within_mono (g : DiGraph) (root : string) (d : nat) (v : string) :
  within g root d v -> within g root (S d) v.
Proof.
  induction 1 as [d|d u v r _ IH He].
  - apply within_root.
  - eapply within_step; [exact IH|exact He].
Qed.

Lemma within_plus (g : DiGraph) (root : string) (d k : nat) (v : string) :
  within g root d v -> within g root (d + k) v.
Proof.
  intros H. induction k as [|k IH].
  - rewrite Nat.add_0_r. exact H.
  - rewrite Nat.add_succ_r. apply within_mono, IH.
Qed.

Lemma within_zero (g : DiGraph) (root v : string) :
  within g root 0 v <-> v = root.
Proof.
  split; [|intros ->; apply within_root].
  intros H. inversion H. reflexivity.
Qed.

Lemma bfs_inv_init (g : DiGraph) (root : string) :
  bfs_inv g root 0 [root] [root].
Proof.
  split.
  - intros v. rewrite within_zero. simpl. split; [intros [<-|[]]|intros ->]; auto.
  - auto.
  - intros u v Hu Hn. contradiction.
  - repeat constructor. intros [].
Qed.

Lemma bfs_inv_step (g : DiGraph) (root : string) (d : nat)
  (seen level seen' next : list string) :
  bfs_inv g root d seen level ->
  fold_left (expand g) level (seen, []) = (seen', next) ->
  bfs_inv g root (S d) seen' next.
Proof.
  intros [Hseen Hlevel Hdone Hnd] Hf.
  destruct (@fold_expand g level seen [] Hnd) as (new & Hf' & Hnd' & Hin).
  rewrite Hf in Hf'. injection Hf' as -> ->. simpl.
  assert (Hroot : In root seen) by (apply Hseen, within_root).
  split.
  - intros v. rewrite in_app_iff. split.
    + intros [H|H].
      * apply within_mono, Hseen, H.
      * apply Hin in H. destruct H as [(u & Hu & Hv) _].
        apply successors_In in Hv. destruct Hv as (r & Hv).
        eapply within_step; [|exact Hv]. apply Hseen, Hlevel, Hu.
    + intros H. inversion H as [d0|d0 u v0 r Hu He]; subst.
      * left. exact Hroot.
      * apply Hseen in Hu.
        assert (Hs : In v (successors g u)) by (apply successors_In; exists r; exact He).
        destruct (in_dec string_dec v seen) as [Hv|Hv]; [left; exact Hv|].
        destruct (in_dec string_dec u level) as [Hl|Hl].
        -- right. apply Hin. split; [exists u; split; assumption|exact Hv].
        -- left. apply (Hdone u v); assumption.
  - intros v Hv. apply in_or_app. right. exact Hv.
  - intros u v Hu Hn Hs. apply in_app_or in Hu.
    destruct Hu as [Hu|Hu]; [|contradiction].
    destruct (in_dec string_dec u level) as [Hl|Hl].
    + destruct (in_dec string_dec v seen) as [Hv|Hv];
        [apply in_or_app; left; exact Hv|].
      apply in_or_app. right. apply Hin. split; [exists u; split; assumption|exact Hv].
    + apply in_or_app. left. apply (Hdone u v); assumption.
  - exact Hnd'.
Qed.

Lemma bfs_closed (g : DiGraph) (root : string) (d : nat) (seen : list string) :
  bfs_inv g root d seen [] ->
  forall k v, within g root k v -> In v seen.
Proof.
  intros [Hseen _ Hdone _] k v H.
  induction H as [k|k u v r _ IH He].
  - apply Hseen, within_root.
  - apply (Hdone u v); [exact IH|intros []|].
    apply successors_In. exists r. exact He.
Qed.

Lemma bfs_levels_spec (g : DiGraph) (root : string) (c : nat) :
  forall d seen level,
    bfs_inv g root d seen level ->
    NoDup (bfs_levels g c seen level)
    /\ forall v, In v (bfs_levels g c seen level) <-> within g root (d + c) v.
Proof.
  induction c as [|c IH]; intros d seen level Hinv.
  - simpl. rewrite Nat.add_0_r.
    replace (match level with [] => seen | _ :: _ => seen end) with seen
      by (destruct level; reflexivity).
    split; [apply Hinv|apply Hinv].
  - destruct level as [|x level].
    + simpl. split; [apply Hinv|]. intros v. split.
      * intros H. apply within_plus, Hinv, H.
      * apply (bfs_closed Hinv).
    + cbn [bfs_levels].
      destruct (fold_left (expand g) (x :: level) (seen, [])) as [seen' next] eqn:Hf.
      pose proof (bfs_inv_step Hinv Hf) as Hinv'.
      destruct (IH (S d) seen' next Hinv') as [Hnd Hin].
      split; [exact Hnd|]. intros v. rewrite Hin.
      rewrite Nat.add_succ_r. reflexivity.
Qed.

Lemma within_has_node (g : DiGraph) (root : string) (d : nat) (v : string) :
  wf_graph g -> has_node g root = true -> within g root d v -> has_node g v = true.
Proof.
  intros Hwf Hr H. destruct H as [d|d u v r _ He]; [exact Hr|].
  apply (wf_closed Hwf) in He. apply He.
Qed.

Lemma events_at_ok (g : DiGraph) (ns : list string) :
  (forall n, In n ns -> has_node g n = true) ->
  exists r, events_at g ns = Returns r
            /\ Forall2 (fun n ev => In (n, ev) (nodes g)) ns r.
Proof.
  induction ns as [|n ns IH]; intros H.
  - exists []. split; [reflexivity|constructor].
  - simpl. pose proof (H n (or_introl eq_refl)) as Hn.
    unfold has_node, assoc_mem in Hn.
    destruct (assoc_get String.eqb n (nodes g)) as [ev|] eqn:Hg; [|discriminate].
    destruct IH as (r & Hr & Hall); [intros m Hm; apply H; right; exact Hm|].
    rewrite Hr. simpl. exists (ev :: r). split; [reflexivity|].
    constructor; [|exact Hall].
    apply (@assoc_get_In _ _ String.eqb); [|exact Hg].
    intros a b. apply String.eqb_eq.
Qed.

End BreadthFirstFacts.

Module DegreeFacts.
Local Open Scope string_scope.
Local Open Scope list_scope.

Lemma total_indicator (x : string) (ks : list string) :
  NoDup ks -> In x ks ->
  total (map (fun k => if String.eqb x k then 1 else 0)%nat ks) = 1%nat.
Proof.
  unfold total. induction ks as [|k ks IH]; intros Hnd Hin; [destruct Hin|].
  apply NoDup_cons_iff in Hnd. destruct Hnd as [Hk Hnd]. simpl.
  destruct (String.eqb x k) eqn:E.
  - apply String.eqb_eq in E. subst k.
    assert (H0 : fold_right Nat.add 0%nat
                   (map (fun k => if String.eqb x k then 1 else 0)%nat ks) = 0%nat).
    { clear IH Hnd Hin. induction ks as [|k ks IH]; simpl; [reflexivity|].
      destruct (String.eqb x k) eqn:E.
      - apply String.eqb_eq in E. subst k. exfalso. apply Hk. left. reflexivity.
      - apply IH. intros H. apply Hk. right. exact H. }
    rewrite H0. reflexivity.
  - apply String.eqb_neq in E. destruct Hin as [->|Hin]; [congruence|].
    simpl. apply IH; assumption.
Qed.

Lemma total_add (A : Type) (a b : A -> nat) (l : list A) :
  total (map (fun x => a x + b x)%nat l) = (total (map a l) + total (map b l))%nat.
Proof.
  unfold total. induction l as [|x l IH]; simpl; [reflexivity|]. rewrite IH. lia.
Qed.

(** Every item of [es] is counted once, under its key. *)
Lemma total_count_by_key (E : Type) (f : E -> string) (ks : list string)
  (es : list E) :
  NoDup ks -> (forall e, In e es -> In (f e) ks) ->
  total (map (fun k => List.length (filter (fun e => String.eqb (f e) k) es)) ks)
  = List.length es.
Proof.
  intros Hnd. induction es as [|e es IH]; intros Hin.
  - simpl. unfold total. clear. induction ks as [|k ks IHk]; simpl; [reflexivity|].
    exact IHk.
  - pose proof (@total_indicator (f e) ks Hnd (Hin e (or_introl eq_refl))) as H1.
    assert (H2 := IH (fun e' He' => Hin e' (or_intror He'))).
    rewrite (map_ext _ (fun k => (if String.eqb (f e) k then 1 else 0)
                                 + List.length (filter (fun e => String.eqb (f e) k) es))%nat).
    + rewrite total_add, H1, H2. reflexivity.
    + intros k. simpl. destruct (String.eqb (f e) k); reflexivity.
Qed.

Lemma total_degree (g : DiGraph) :
  wf_graph g ->
  total (map (fun p => degree g (fst p)) (nodes g)) = (2 * edge_count g)%nat.
Proof.
  intros Hwf. unfold degree.
  rewrite (@total_add _
             (fun p => List.length (filter (fun e => String.eqb (fst (fst e)) (fst p)) (edges g)))
             (fun p => List.length (filter (fun e => String.eqb (snd (fst e)) (fst p)) (edges g)))).
  rewrite <- !(map_map fst
                 (fun k => List.length (filter (fun e : string * string * string =>
                                                   String.eqb (_ (fst e)) k) (edges g)))).
  rewrite !total_count_by_key.
  - unfold edge_count. lia.
  - apply (wf_nodes Hwf).
  - intros [[u v] r] He. apply (wf_closed Hwf) in He. apply has_node_In, He.
  - apply (wf_nodes Hwf).
  - intros [[u v] r] He. apply (wf_closed Hwf) in He. apply has_node_In, He.
Qed.

End DegreeFacts.

Module GraphGrowthFacts.
Import GraphQueryFacts GraphShapeFacts.
Local Open Scope string_scope.
Local Open Scope list_scope.

Lemma string_eqb_eq' (a b : string) : String.eqb a b = true <-> a = b.
Proof. apply String.eqb_eq. Qed.

Lemma In_assoc_set_other (K V : Type) (eqb : K -> K -> bool) (k k0 : K) (v v0 : V)
  (d : list (K * V)) :
  (forall a b, eqb a b = true -> a = b) ->
  k0 <> k -> In (k0, v0) d -> In (k0, v0) (assoc_set eqb k v d).
Proof.
  intros Heq Hne. induction d as [|[k' v'] d IH]; simpl; [tauto|].
  intros [H|H].
  - injection H as -> ->. destruct (eqb k k0) eqn:E.
    + apply Heq in E. congruence.
    + left. reflexivity.
  - destruct (eqb k k'); right; [exact H|apply IH, H].
Qed.

Lemma latest_from_In (l : list (string * datetime)) : forall c,
  match fold_left latest_step l c with
  | None => c = None /\ l = []
  | Some m => c = Some m \/ In m l
  end.
Proof.
  induction l as [|y l IH]; intros c; simpl.
  - destruct c; auto.
  - specialize (IH (latest_step c y)).
    destruct (fold_left latest_step l (latest_step c y)) as [m|].
    + destruct IH as [H|H]; [|right; right; exact H].
      destruct c as [m0|]; simpl in H.
      * destruct (ts_lt m0 y); injection H as <-; [right; left; reflexivity|left; reflexivity].
      * injection H as <-. right. left. reflexivity.
    + destruct IH as [H _]. destruct c as [m0|]; simpl in H;
        [destruct (ts_lt m0 y)|]; discriminate.
Qed.

Lemma first_latest_last (l : list (string * datetime)) (x : string * datetime) :
  (forall y, In y l -> ts_lt y x = true) ->
  first_latest (l ++ [x]) = Some x.
Proof.
  intros H. unfold first_latest. rewrite fold_left_app. simpl.
  pose proof (latest_from_In l None) as Hc.
  destruct (fold_left latest_step l None) as [m|]; simpl; [|reflexivity].
  destruct Hc as [Hc|Hc]; [discriminate|]. rewrite (H m Hc). reflexivity.
Qed.

Lemma StronglySorted_app_inv (A : Type) (R : A -> A -> Prop) (l1 l2 : list A) :
  StronglySorted R (l1 ++ l2) ->
  StronglySorted R l1 /\ StronglySorted R l2
  /\ forall a b, In a l1 -> In b l2 -> R a b.
Proof.
  induction l1 as [|x l1 IH]; simpl; intros H.
  - split; [constructor|]. split; [exact H|]. intros a b [].
  - apply StronglySorted_inv in H. destruct H as [Hs Hall].
    destruct (IH Hs) as (H1 & H2 & H3). rewrite Forall_forall in Hall.
    split; [|split; [exact H2|]].
    + constructor; [exact H1|]. apply Forall_forall. intros y Hy.
      apply Hall, in_or_app. left. exact Hy.
    + intros a b [<-|Ha] Hb; [apply Hall, in_or_app; right; exact Hb|apply H3; assumption].
Qed.

Lemma chain_snoc (pre : list MemoryEvent) (last ev : MemoryEvent) :
  chain (pre ++ [last; ev])
  = chain (pre ++ [last]) ++ [((id last, id ev), "next_in_time")].
Proof.
  induction pre as [|a pre IH]; [reflexivity|].
  destruct pre as [|b pre]; [reflexivity|].
  change (chain ((a :: b :: pre) ++ [last; ev]))
    with (((id a, id b), "next_in_time") :: chain ((b :: pre) ++ [last; ev])).
  change (chain ((a :: b :: pre) ++ [last]))
    with (((id a, id b), "next_in_time") :: chain ((b :: pre) ++ [last])).
  rewrite IH. reflexivity.
Qed.

Lemma chain_targets (l : list MemoryEvent) (u v : string) :
  In (u, v) (map fst (chain l)) -> In u (map id l) /\ In v (map id l).
Proof.
  induction l as [|a l IH]; [intros []|].
  destruct l as [|b l]; [intros []|].
  change (chain (a :: b :: l)) with (((id a, id b), "next_in_time") :: chain (b :: l)).
  intros [H|H].
  - injection H as <- <-. simpl. auto.
  - destruct (IH H) as [H1 H2]. split; right; assumption.
Qed.

Lemma map_fst_node_of (l : list MemoryEvent) : map fst (map node_of l) = map id l.
Proof. rewrite map_map. reflexivity. Qed.

(** One more event on a graph whose last node is strictly its newest: the
    edge starts at that node. *)
Lemma add_event_after_newest (pre : list MemoryEvent) (last ev : MemoryEvent)
  (E : list ((string * string) * string)) :
  ~ In (id ev) (map id (pre ++ [last])) ->
  (forall e, In e pre -> is_aware (timestamp e) = is_aware (timestamp last)) ->
  (forall e, In e pre ->
     (sort_instant (timestamp e) < sort_instant (timestamp last))%Z) ->
  ~ In (id last, id ev) (map fst E) ->
  add_event {| nodes := map node_of (pre ++ [last]); edges := E |} ev
  = (Returns tt,
     {| nodes := map node_of (pre ++ [last; ev]);
        edges := E ++ [((id last, id ev), "next_in_time")] |}).
Proof.
  intros Hfresh Hkind Hlt Hedge.
  set (g := {| nodes := map node_of (pre ++ [last]); edges := E |}).
  assert (Hni : ~ In (id ev) (map fst (nodes g)))
    by (simpl; rewrite map_fst_node_of; exact Hfresh).
  assert (Hhas : has_node g (id ev) = false).
  { destruct (has_node g (id ev)) eqn:Hh; [|reflexivity].
    apply has_node_In in Hh. contradiction. }
  unfold add_event.
  assert (Hnodes : nodes (add_node g (id ev) ev) = nodes g ++ [(id ev, ev)]).
  { unfold add_node. simpl nodes at 1.
    apply (@assoc_set_new _ _ String.eqb string_eqb_eq'). exact Hni. }
  rewrite Hnodes, (filter_fresh g ev Hhas), length_map, length_app.
  replace (1 <? List.length (nodes g) + List.length [(id ev, ev)])%nat with true.
  2:{ symmetry. apply Nat.ltb_lt. simpl. rewrite length_map, length_app. simpl. lia. }
  set (prior := map (fun p : string * MemoryEvent => (fst p, timestamp (snd p))) (nodes g)).
  assert (Hprior : prior = map (fun e => (id e, timestamp e)) pre
                           ++ [(id last, timestamp last)]).
  { unfold prior. simpl. rewrite map_map, map_app. reflexivity. }
  destruct (@sort_desc_head prior) as (r & Hr & Hhd).
  { assert (Hall : forall p, In p prior -> is_aware (snd p) = is_aware (timestamp last)).
    { intros p Hp. rewrite Hprior in Hp. apply in_app_or in Hp.
      destruct Hp as [Hp|[<-|[]]]; [|reflexivity].
      apply in_map_iff in Hp. destruct Hp as (e & <- & He). simpl. apply Hkind, He. }
    intros p q Hp Hq. rewrite (Hall p Hp), (Hall q Hq). reflexivity. }
  rewrite Hr.
  rewrite Hprior, first_latest_last in Hhd.
  2:{ intros y Hy. apply in_map_iff in Hy. destruct Hy as (e & <- & He).
      unfold ts_lt. simpl. apply Z.ltb_lt, Hlt, He. }
  destruct r as [|[l0 t0] r]; [discriminate|]. simpl in Hhd. injection Hhd as -> ->.
  unfold link_events.
  assert (H1 : has_node (add_node g (id ev) ev) (id last) = true).
  { rewrite has_node_add_node. apply orb_true_iff. right. apply has_node_In.
    simpl. rewrite map_fst_node_of, map_app. apply in_or_app. right. left. reflexivity. }
  assert (H2 : has_node (add_node g (id ev) ev) (id ev) = true)
    by (rewrite has_node_add_node, String.eqb_refl; reflexivity).
  rewrite H1, H2. simpl. unfold add_edge. rewrite Hnodes. simpl.
  f_equal. f_equal.
  - rewrite <- map_app with (f := node_of) (l' := [ev]).
    rewrite <- app_assoc. reflexivity.
  - apply (@assoc_set_new _ _ pair_eqb pair_eqb_eq). exact Hedge.
Qed.

Lemma add_events_chain_from (evs : list MemoryEvent) : forall pre last,
  NoDup (map id (pre ++ last :: evs)) ->
  (forall a b, In a (pre ++ last :: evs) -> In b (pre ++ last :: evs) ->
               is_aware (timestamp a) = is_aware (timestamp b)) ->
  StronglySorted
    (fun a b => (sort_instant (timestamp a) < sort_instant (timestamp b))%Z)
    (pre ++ last :: evs) ->
  add_events {| nodes := map node_of (pre ++ [last]); edges := chain (pre ++ [last]) |} evs
  = (Returns tt,
     {| nodes := map node_of (pre ++ last :: evs);
        edges := chain (pre ++ last :: evs) |}).
Proof.
  induction evs as [|ev evs IH]; intros pre last Hnd Hkind Hs; [reflexivity|].
  cbn [add_events].
  assert (Hsplit : pre ++ last :: ev :: evs = (pre ++ [last]) ++ ev :: evs)
    by (rewrite <- app_assoc; reflexivity).
  rewrite add_event_after_newest.
  - replace (pre ++ [last; ev]) with ((pre ++ [last]) ++ [ev])
      by (rewrite <- app_assoc; reflexivity).
    replace (chain (pre ++ [last]) ++ [((id last, id ev), "next_in_time")])
      with (chain ((pre ++ [last]) ++ [ev]))
      by (rewrite <- app_assoc; apply chain_snoc).
    rewrite (IH (pre ++ [last]) ev); rewrite <- ?Hsplit; try assumption.
    reflexivity.
  - rewrite Hsplit, map_app in Hnd. apply NoDup_app_remove_l in Hnd as Hnd'.
    intros Hin. clear Hnd'.
    revert Hnd Hin. generalize (map id (pre ++ [last])) as l1.
    intros l1 Hnd Hin. simpl in Hnd.
    apply NoDup_remove_2 in Hnd. apply Hnd, in_or_app. left. exact Hin.
  - intros e He. apply Hkind; apply in_or_app; [left; exact He|right; left; reflexivity].
  - intros e He. apply StronglySorted_app_inv in Hs. destruct Hs as (_ & _ & H3).
    apply H3; [exact He|left; reflexivity].
  - intros Hin. apply chain_targets in Hin. destruct Hin as [_ Hin].
    rewrite Hsplit, map_app in Hnd. simpl in Hnd.
    apply NoDup_remove_2 in Hnd. apply Hnd, in_or_app. left. exact Hin.
Qed.

End GraphGrowthFacts.

Module SaveFacts.
Local Open Scope string_scope.
Local Open Scope list_scope.

Lemma json_dump_str (s : string) : json_dump (PStr s) = Some (JStr s).
Proof. reflexivity. Qed.

Lemma json_dump_bool (b : bool) : json_dump (PBool b) = Some (JBool b).
Proof. reflexivity. Qed.

Lemma dump_members_nil : dump_members [] = Some [].
Proof. reflexivity. Qed.

Lemma json_dump_edge (e : (string * string) * string) :
  json_dump (edge_to_py e)
  = Some (JObj [("relation", JStr (snd e)); ("source", JStr (fst (fst e)));
                ("target", JStr (snd (fst e)))]).
Proof.
  unfold edge_to_py. rewrite json_dump_dict, !dump_members_cons, !json_dump_str.
  rewrite dump_members_nil. reflexivity.
Qed.

Lemma dump_all_edges (es : list ((string * string) * string)) :
  exists js, dump_all (map edge_to_py es) = Some js.
Proof.
  induction es as [|e es (js & IH)]; [exists []; reflexivity|].
  cbn [map]. rewrite dump_all_cons, json_dump_edge, IH. eexists; reflexivity.
Qed.

Lemma json_dump_node (p : string * MemoryEvent) :
  json_dump (node_to_py p) = None
  <-> json_dump (PDict (payload (snd p))) = None.
Proof.
  unfold node_to_py, event_to_py.
  rewrite (json_dump_dict [(KStr "event", _); _]), !dump_members_cons.
  rewrite (json_dump_dict [(KStr "id", _); _; _; _]), !dump_members_cons.
  rewrite !json_dump_str, dump_members_nil. cbn [json_key].
  destruct (json_dump (PDict (payload (snd p)))); split; congruence.
Qed.

Lemma dump_all_nodes (ns : list (string * MemoryEvent)) :
  dump_all (map node_to_py ns) = None
  <-> exists p, In p ns /\ json_dump (PDict (payload (snd p))) = None.
Proof.
  induction ns as [|p ns IH].
  - split; [discriminate|intros (p & [] & _)].
  - cbn [map]. rewrite dump_all_cons.
    destruct (json_dump (node_to_py p)) as [j|] eqn:Hp.
    + destruct (dump_all (map node_to_py ns)) as [js|].
      * split; [discriminate|]. intros (q & [<-|Hq] & Hn).
        -- apply json_dump_node in Hn. congruence.
        -- assert (H : Some js = None) by (apply IH; exists q; split; assumption).
           discriminate.
      * split; [|reflexivity]. intros _.
        destruct (proj1 IH eq_refl) as (q & Hq & Hn).
        exists q. split; [right; exact Hq|exact Hn].
    + split; [|reflexivity]. intros _. exists p. split; [left; reflexivity|].
      apply json_dump_node. exact Hp.
Qed.

End SaveFacts.

Module CacheFacts.
Local Open Scope string_scope.
Local Open Scope list_scope.

Lemma key_eqb_eq (a b : string * Z) : key_eqb a b = true <-> a = b.
Proof.
  destruct a as [s x], b as [t y]. unfold key_eqb. simpl.
  rewrite andb_true_iff, String.eqb_eq, Z.eqb_eq. split.
  - intros [-> ->]. reflexivity.
  - intros H. injection H as -> ->. auto.
Qed.

Lemma key_eqb_refl (a : string * Z) : key_eqb a a = true.
Proof. apply key_eqb_eq. reflexivity. Qed.

Lemma length_filter_le (A : Type) (f : A -> bool) (l : list A) :
  (List.length (filter f l) <= List.length l)%nat.
Proof.
  induction l as [|x l IH]; simpl; [lia|]. destruct (f x); simpl; lia.
Qed.

Lemma length_filter_lt (A : Type) (f : A -> bool) (l : list A) (x : A) :
  In x l -> f x = false -> (List.length (filter f l) < List.length l)%nat.
Proof.
  induction l as [|y l IH]; simpl; [intros []|].
  intros [->|H] Hf.
  - rewrite Hf. pose proof (length_filter_le f l). lia.
  - specialize (IH H Hf). destruct (f y); simpl; lia.
Qed.

(** Dropping entries of a cache keeps its keys distinct. *)
Lemma NoDup_keys_filter (K V : Type) (keep : K * V -> bool) (c : list (K * V)) :
  NoDup (map fst c) -> NoDup (map fst (filter keep c)).
Proof.
  intros Hnd. induction c as [|[k v] c IH]; simpl; [constructor|].
  simpl in Hnd. apply NoDup_cons_iff in Hnd. destruct Hnd as [Hk Hc].
  destruct (keep (k, v)); simpl; [|apply IH, Hc].
  constructor; [|apply IH, Hc].
  intros Hin. apply Hk. apply in_map_iff in Hin. destruct Hin as (e & He & Hin).
  apply filter_In in Hin. apply in_map_iff. exists e. split; [exact He|apply Hin].
Qed.

Lemma NoDup_firstn (A : Type) (n : nat) (l : list A) : NoDup l -> NoDup (firstn n l).
Proof.
  revert l. induction n as [|n IH]; intros [|x l] H; simpl; try constructor.
  - apply NoDup_cons_iff in H. destruct H as [Hx _].
    intros Hin. apply Hx. rewrite <- (firstn_skipn n l).
    apply in_or_app. left. exact Hin.
  - apply IH. apply NoDup_cons_iff in H. apply H.
Qed.

Section Coherence.
Variable embedder : string -> list R.
Variable py_str : pydict -> string.
Variable np_argsort : list R -> list nat.

(** With a cache that agrees with the graph, a call gives what the body
    computes, and the cache still agrees afterwards. *)
Lemma retrieve_semantic_coherent (c : cache) (g : DiGraph) (text : string) (k : Z) :
  coherent embedder py_str np_argsort c g ->
  fst (retrieve_semantic embedder py_str np_argsort c g text k)
  = retrieve_semantic_body embedder py_str np_argsort g text k
  /\ coherent embedder py_str np_argsort (snd (retrieve_semantic embedder py_str np_argsort c g text k)) g.
Proof.
  intros Hc. unfold retrieve_semantic.
  destruct (assoc_get key_eqb (text, k) c) as [hit|] eqn:Hget.
  - apply (@assoc_get_In _ _ key_eqb key_eqb_eq) in Hget.
    pose proof (Hc _ _ Hget) as Hb. simpl in Hb.
    split; [symmetry; exact Hb|].
    intros key res [H|H].
    + injection H as <- <-. exact Hb.
    + apply filter_In in H. apply (Hc key res), H.
  - destruct (retrieve_semantic_body embedder py_str np_argsort g text k) as [r|e] eqn:Hb.
    + split; [reflexivity|]. intros key res H.
      assert (H' : In (key, res) (((text, k), r) :: c)).
      { rewrite <- (firstn_skipn 128 (((text, k), r) :: c)).
        apply in_or_app. left. exact H. }
      destruct H' as [H'|H']; [injection H' as <- <-; exact Hb|apply (Hc key res), H'].
    + split; [reflexivity|exact Hc].
Qed.

End Coherence.

End CacheFacts.

Module UserFilesFacts.
Local Open Scope string_scope.
Local Open Scope list_scope.

Lemma string_eqb_append (a b c : string) :
  String.eqb (a ++ b) (a ++ c) = String.eqb b c.
Proof.
  induction a as [|x a IH]; simpl; [reflexivity|].
  rewrite Ascii.eqb_refl. exact IH.
Qed.

(** [os.path.join] keeps apart the files of one directory. *)
Lemma path_join_eqb (user_dir f f' : string) :
  String.eqb (path_join user_dir f) (path_join user_dir f') = String.eqb f f'.
Proof.
  unfold path_join.
  destruct (String.length user_dir =? 0)%nat; [reflexivity|].
  destruct (ends_with_slash user_dir).
  - apply string_eqb_append.
  - rewrite string_eqb_append. apply (string_eqb_append "/").
Qed.

Lemma ensure_file_keeps (user_dir : string) (fs : files) (f p t : string) :
  fs p = Some t -> ensure_file user_dir fs f p = Some t.
Proof.
  intros H. unfold ensure_file.
  destruct (fs (path_join user_dir f)) eqn:E; [exact H|].
  unfold write_file. destruct (String.eqb p (path_join user_dir f)) eqn:Ep; [|exact H].
  apply String.eqb_eq in Ep. congruence.
Qed.

Lemma ensure_fold_keeps (user_dir : string) (l : list string) : forall fs p t,
  fs p = Some t -> fold_left (ensure_file user_dir) l fs p = Some t.
Proof.
  induction l as [|f l IH]; intros fs p t H; simpl; [exact H|].
  apply IH, ensure_file_keeps, H.
Qed.

Lemma ensure_file_creates (user_dir : string) (fs : files) (f : string) :
  exists t, ensure_file user_dir fs f (path_join user_dir f) = Some t.
Proof.
  unfold ensure_file. destruct (fs (path_join user_dir f)) as [t|] eqn:E.
  - exists t. exact E.
  - unfold write_file. rewrite String.eqb_refl. eexists; reflexivity.
Qed.

Lemma ensure_fold_creates (user_dir : string) (l : list string) : forall fs f,
  In f l -> exists t, fold_left (ensure_file user_dir) l fs (path_join user_dir f) = Some t.
Proof.
  induction l as [|g l IH]; intros fs f Hin; [destruct Hin|].
  simpl. destruct Hin as [->|Hin]; [|apply IH, Hin].
  destruct (ensure_file_creates user_dir fs f) as (t & Ht).
  exists t. apply ensure_fold_keeps, Ht.
Qed.

Lemma ensure_fold_fixed (user_dir : string) (l : list string) : forall fs,
  (forall f, In f l -> fs (path_join user_dir f) <> None) ->
  fold_left (ensure_file user_dir) l fs = fs.
Proof.
  induction l as [|g l IH]; intros fs H; simpl; [reflexivity|].
  assert (Hg : ensure_file user_dir fs g = fs).
  { unfold ensure_file. destruct (fs (path_join user_dir g)) eqn:E; [reflexivity|].
    exfalso. apply (H g); [left; reflexivity|exact E]. }
  rewrite Hg. apply IH. intros f Hf. apply H. right. exact Hf.
Qed.

(** A step for another file leaves a path as it is. *)
Lemma ensure_file_other (user_dir : string) (fs : files) (f f' : string) :
  String.eqb f' f = false ->
  ensure_file user_dir fs f (path_join user_dir f') = fs (path_join user_dir f').
Proof.
  intros Hne. unfold ensure_file.
  destruct (fs (path_join user_dir f)); [reflexivity|].
  unfold write_file. rewrite path_join_eqb, Hne. reflexivity.
Qed.

Lemma ensure_fold_other (user_dir : string) (l : list string) (f' : string) :
  forall fs, forallb (fun f => negb (String.eqb f' f)) l = true ->
  fold_left (ensure_file user_dir) l fs (path_join user_dir f')
  = fs (path_join user_dir f').
Proof.
  induction l as [|f l IH]; intros fs H; simpl; [reflexivity|].
  simpl in H. apply andb_true_iff in H. destruct H as [Hf Hl].
  rewrite IH by exact Hl. apply ensure_file_other. apply negb_true_iff, Hf.
Qed.

Lemma shape_of_vec (v : list R) : shape_of (vec_py v) = Some [List.length v].
Proof.
  unfold vec_py. cbn [shape_of]. rewrite map_map.
  destruct v as [|x v]; [reflexivity|]. cbn [map shape_of].
  replace (forallb _ _) with true;
    [cbn [List.length]; rewrite length_map; reflexivity|].
  symmetry. apply forallb_forall. intros o Ho.
  apply in_map_iff in Ho. destruct Ho as (y & <- & _). reflexivity.
Qed.

Lemma shape_eqb_refl (s : list nat) : shape_eqb s s = true.
Proof.
  induction s as [|a s IH]; simpl; [reflexivity|]. rewrite Nat.eqb_refl. exact IH.
Qed.

Lemma shape_of_mat (m : list (list R)) (d : nat) :
  (forall r, In r m -> List.length r = d) -> shape_of (mat_py m) <> None.
Proof.
  intros H. unfold mat_py. cbn [shape_of]. rewrite map_map.
  destruct m as [|r m]; [discriminate|]. cbn [map].
  rewrite shape_of_vec.
  replace (forallb _ _) with true; [discriminate|].
  symmetry. apply forallb_forall. intros o Ho.
  apply in_map_iff in Ho. destruct Ho as (r' & <- & Hr').
  rewrite shape_of_vec.
  rewrite (H r) by (left; reflexivity). rewrite (H r') by (right; exact Hr').
  apply shape_eqb_refl.
Qed.

Lemma json_native_vec (v : list R) : json_native (vec_py v) = true.
Proof.
  unfold vec_py. cbn [json_native]. apply forallb_forall. intros x Hx.
  apply in_map_iff in Hx. destruct Hx as (y & <- & _). reflexivity.
Qed.

Lemma json_native_mat (m : list (list R)) : json_native (mat_py m) = true.
Proof.
  unfold mat_py. cbn [json_native]. apply forallb_forall. intros x Hx.
  apply in_map_iff in Hx. destruct Hx as (y & <- & _). apply json_native_vec.
Qed.

End UserFilesFacts.

Module CounterfactualFacts.
Import GraphQueryFacts GraphShapeFacts.
Local Open Scope string_scope.
Local Open Scope list_scope.

Lemma add_events_fresh (evs : list MemoryEvent) : forall g,
  (forall p, In p (nodes g) -> is_aware (timestamp (snd p)) = false) ->
  (forall e, In e evs -> is_aware (timestamp e) = false) ->
  NoDup (map id evs) ->
  (forall e, In e evs -> has_node g (id e) = false) ->
  fst (add_events g evs) = Returns tt
  /\ nodes (snd (add_events g evs)) = nodes g ++ map node_of evs.
Proof.
  induction evs as [|ev evs IH]; intros g Hg He Hnd Hfresh.
  - simpl. rewrite app_nil_r. auto.
  - assert (Hc : comparable g).
    { intros p q Hp Hq. rewrite (Hg p Hp), (Hg q Hq). reflexivity. }
    destruct (@add_event_fresh_nodes g ev Hc (Hfresh ev (or_introl eq_refl)))
      as [Hret Hnodes].
    cbn [add_events].
    destruct (add_event g ev) as [[[]|e] g1]; cbn [fst snd] in Hret, Hnodes;
      [|discriminate].
    apply NoDup_cons_iff in Hnd. destruct Hnd as [Hni Hnd].
    destruct (IH g1) as [H1 H2].
    + intros p Hp. rewrite Hnodes in Hp. apply in_app_or in Hp.
      destruct Hp as [Hp|[<-|[]]]; [apply Hg, Hp|apply He; left; reflexivity].
    + intros e0 H0. apply He. right. exact H0.
    + exact Hnd.
    + intros e0 H0. destruct (has_node g1 (id e0)) eqn:Hh; [|reflexivity].
      apply has_node_In in Hh. rewrite Hnodes, map_app in Hh.
      apply in_app_or in Hh. destruct Hh as [Hh|[Hh|[]]].
      * apply has_node_In in Hh. rewrite (Hfresh e0 (or_intror H0)) in Hh. discriminate.
      * simpl in Hh. exfalso. apply Hni. rewrite Hh.
        apply in_map. exact H0.
    + split; [exact H1|]. rewrite H2, Hnodes, <- app_assoc. reflexivity.
Qed.

Section BranchLemmas.
Variable py_sum : list pyval -> outcome R.
Variable fresh : nat -> string * datetime.

Lemma tweak_events_stamps (ms : list (string * R)) : forall i,
  map (fun e => (id e, timestamp e)) (tweak_events fresh i ms)
  = map fresh (seq i (List.length ms)).
Proof.
  induction ms as [|m ms IH]; intros i; simpl; [reflexivity|].
  rewrite IH. destruct (fresh i). reflexivity.
Qed.

Lemma branch_events_stamps (ms : list (string * R)) :
  map (fun e => (id e, timestamp e)) (branch_events fresh ms)
  = map fresh (seq 0 (S (List.length ms))).
Proof.
  unfold branch_events. rewrite map_app, tweak_events_stamps.
  rewrite seq_S, map_app. simpl. destruct (fresh (List.length ms)). reflexivity.
Qed.

Lemma tweak_events_no_valence (ms : list (string * R)) : forall i e,
  In e (tweak_events fresh i ms) -> dict_get "valence" (payload e) = None.
Proof.
  induction ms as [|m ms IH]; intros i e; simpl; [intros []|].
  intros [<-|H]; [reflexivity|apply (IH (S i)), H].
Qed.

Lemma branch_events_no_valence (ms : list (string * R)) (e : MemoryEvent) :
  In e (branch_events fresh ms) -> dict_get "valence" (payload e) = None.
Proof.
  unfold branch_events. intros H. apply in_app_or in H.
  destruct H as [H|[<-|[]]]; [apply (tweak_events_no_valence _ _ _ H)|reflexivity].
Qed.

Lemma valences_app (g : DiGraph) (evs : list MemoryEvent) (h : DiGraph) :
  nodes h = nodes g ++ map node_of evs ->
  (forall e, In e evs -> dict_get "valence" (payload e) = None) ->
  valences h = valences g.
Proof.
  intros Hn Hv. unfold valences. rewrite Hn, flat_map_app.
  rewrite <- (app_nil_r (flat_map _ (nodes g))) at 2. f_equal.
  clear Hn. revert Hv. induction evs as [|e evs IH]; intros Hv; [reflexivity|]. simpl.
  rewrite (Hv e) by (left; reflexivity). simpl.
  apply IH. intros e0 H0. apply Hv. right. exact H0.
Qed.

End BranchLemmas.

End CounterfactualFacts.

Import FieldDynamicsFacts GraphQueryFacts GraphShapeFacts BreadthFirstFacts DegreeFacts.
Import GraphGrowthFacts SaveFacts CacheFacts UserFilesFacts CounterfactualFacts.

(** ** The properties *)

Section FieldDynamicsExtras.
Local Open Scope R_scope.

(** X1. [activation] keeps the length of the weight vector and every
    activation lies strictly between 0 and 1 (over the reals, rounding
    idealised away). *)
Theorem activation_in_unit_interval (w : list R) :
  List.length (activation w) = List.length w
  /\ Forall (fun a => 0 < a < 1) (activation w).
Proof.
  unfold activation. split; [apply length_map|].
  apply Forall_forall. intros a Ha.
  apply in_map_iff in Ha. destruct Ha as (x & <- & _).
  apply sigmoid_range.
Qed.

(** X3. [np.argmax] raises on the empty array only; otherwise it returns an
    index of the array whose item no item exceeds and no earlier item
    reaches. *)
Theorem np_argmax_first_maximum (l : list R) :
  match np_argmax l with
  | None => l = []
  | Some i =>
      (i < List.length l)%nat
      /\ (forall j, (j < List.length l)%nat -> nth j l 0 <= nth i l 0)
      /\ (forall j, (j < i)%nat -> nth j l 0 < nth i l 0)
  end.
Proof.
  destruct l as [|x xs]; [reflexivity|].
  destruct (np_argmax_spec x xs) as (i & v & -> & Hi & Hall & Hb).
  assert (Hlt : (i < List.length (x :: xs))%nat)
    by (apply nth_error_Some; rewrite Hi; discriminate).
  rewrite (nth_error_nth _ _ 0 Hi).
  split; [exact Hlt|]. split.
  - intros j Hj. rewrite Forall_forall in Hall. apply Hall, nth_In, Hj.
  - intros j Hj. apply (Hb j); [exact Hj|].
    apply nth_error_nth'. lia.
Qed.

(** X4. [collapse_weights] with an index in [-n, n): the result has the
    length of [w], every weight is scaled by [1 - alpha], and [alpha] is
    added at position [collapsed_index mod n] (a negative index counts from
    the end). *)
Theorem collapse_weights_in_range (w : list R) (collapsed_index : Z) (alpha : R) :
  (- Z.of_nat (List.length w) <= collapsed_index < Z.of_nat (List.length w))%Z ->
  exists w_new,
    collapse_weights w collapsed_index alpha = Some w_new
    /\ List.length w_new = List.length w
    /\ forall j, (j < List.length w)%nat ->
         nth j w_new 0
         = (1 - alpha) * nth j w 0
           + (if (j =? Z.to_nat (collapsed_index mod Z.of_nat (List.length w)))%nat
              then alpha else 0).
Proof.
  intros Hr. unfold collapse_weights. rewrite length_map.
  destruct (np_index_in_range _ Hr) as [-> Hk].
  eexists. split; [reflexivity|].
  split; [rewrite length_add_at, length_map; reflexivity|].
  intros j Hj. rewrite nth_add_at by (rewrite length_map; exact Hk).
  f_equal.
  replace 0 with (Rmult (1 - alpha) 0) at 1 by lra.
  apply map_nth.
Qed.

Lemma collapse_weights_in_range_witness :
  (- Z.of_nat (List.length [1; 2; 3]) <= -1 < Z.of_nat (List.length [1; 2; 3]))%Z
  /\ exists w_new,
       collapse_weights [1; 2; 3] (-1) (1 / 2) = Some w_new
       /\ List.length w_new = List.length [1; 2; 3]
       /\ forall j, (j < List.length [1; 2; 3])%nat ->
            nth j w_new 0
            = (1 - 1 / 2) * nth j [1; 2; 3] 0
              + (if (j =? Z.to_nat (-1 mod Z.of_nat (List.length [1; 2; 3])))%nat
                 then 1 / 2 else 0).
Proof.
  split; [simpl; lia|].
  apply (@collapse_weights_in_range [1; 2; 3] (-1) (1 / 2)). simpl. lia.
Defined.

(** X5. [collapse_weights] raises [IndexError] exactly when the index lies
    outside [-n, n), whatever the weights and the rate; in particular on an
    empty weight vector. *)
Theorem collapse_weights_index_error (w : list R) (collapsed_index : Z) (alpha : R) :
  collapse_weights w collapsed_index alpha = None
  <-> (collapsed_index < - Z.of_nat (List.length w)
       \/ Z.of_nat (List.length w) <= collapsed_index)%Z.
Proof.
  unfold collapse_weights. rewrite length_map.
  rewrite <- np_index_out_of_range.
  destruct (np_index (List.length w) collapsed_index); split; congruence.
Qed.

(** X6. A collapse is a convex step toward a unit vector: the weights of the
    result sum to [(1 - alpha) * sum(w) + alpha], so weights that sum to one
    still do afterwards. *)
Theorem collapse_weights_sum (w w_new : list R) (collapsed_index : Z) (alpha : R) :
  collapse_weights w collapsed_index alpha = Some w_new ->
  np_sum w_new = (1 - alpha) * np_sum w + alpha
  /\ (np_sum w = 1 -> np_sum w_new = 1).
Proof.
  unfold collapse_weights. rewrite length_map.
  destruct (np_index (List.length w) collapsed_index) as [k|] eqn:Hk; [|discriminate].
  intros H. injection H as <-.
  assert (Hlt : (k < List.length w)%nat).
  { unfold np_index in Hk.
    destruct (0 <=? collapsed_index)%Z eqn:H0.
    - destruct (collapsed_index <? Z.of_nat (List.length w))%Z eqn:H1; [|discriminate].
      injection Hk as <-. apply Z.leb_le in H0. apply Z.ltb_lt in H1. lia.
    - destruct (- Z.of_nat (List.length w) <=? collapsed_index)%Z eqn:H1; [|discriminate].
      injection Hk as <-. apply Z.leb_gt in H0. apply Z.leb_le in H1. lia. }
  rewrite np_sum_add_at by (rewrite length_map; exact Hlt).
  rewrite np_sum_scale. split; [reflexivity|]. intros ->. lra.
Qed.

Lemma collapse_weights_sum_witness :
  collapse_weights [1 / 2; 1 / 2] 0 (1 / 2) = Some [1 / 4 + 1 / 2; 1 / 4]
  /\ np_sum [1 / 4 + 1 / 2; 1 / 4] = (1 - 1 / 2) * np_sum [1 / 2; 1 / 2] + 1 / 2.
Proof.
  assert (H : collapse_weights [1 / 2; 1 / 2] 0 (1 / 2) = Some [1 / 4 + 1 / 2; 1 / 4]).
  { unfold collapse_weights. simpl. f_equal. f_equal; [lra|]. f_equal. lra. }
  split; [exact H|]. exact (proj1 (collapse_weights_sum _ _ _ H)).
Defined.

(** X7. [softmax] does not change when a constant is added to every input:
    the maximum that is subtracted moves with the inputs. *)
Theorem softmax_shift_invariant (x : list R) (c : R) :
  softmax (map (fun xi => xi + c) x) = softmax x.
Proof.
  assert (Hmax : np_max (map (fun xi => xi + c) x)
                 = match np_max x with Some m => Some (m + c) | None => None end).
  { destruct x as [|x0 xs]; [reflexivity|].
    unfold np_max. cbn [map]. rewrite fold_left_Rmax_shift. reflexivity. }
  unfold softmax. rewrite Hmax.
  destruct (np_max x) as [m|]; [|reflexivity].
  assert (Hz : map (fun xi => xi - (m + c)) (map (fun xi => xi + c) x)
               = map (fun xi => xi - m) x).
  { rewrite map_map. apply map_ext. intros a. lra. }
  cbv zeta. rewrite Hz. reflexivity.
Qed.

(** X8. On a non-empty input [softmax] returns a vector of the same length
    whose components are positive and below one, and it keeps the order of
    the inputs: a larger input never gets a smaller share. *)
Theorem softmax_positive_monotone (x0 : R) (xs : list R) :
  exists p,
    softmax (x0 :: xs) = Some p
    /\ List.length p = List.length (x0 :: xs)
    /\ Forall (fun pi => 0 < pi < 1) p
    /\ forall i j, (i < List.length p)%nat -> (j < List.length p)%nat ->
         nth i (x0 :: xs) 0 <= nth j (x0 :: xs) 0 -> nth i p 0 <= nth j p 0.
Proof.
  destruct (np_max_spec x0 xs) as (m & Hm & Hin & Hall).
  unfold softmax. rewrite Hm. cbv zeta.
  set (x := x0 :: xs) in *.
  set (s := np_sum (map exp (map (fun xi => xi - m) x))).
  assert (Hs : 1 <= s) by (apply np_sum_exp_shift_ge_1; exact Hin).
  pose proof EPS_pos as He.
  eexists. split; [reflexivity|].
  split; [rewrite !length_map; reflexivity|].
  split.
  - apply Forall_forall. intros p Hp.
    apply in_map_iff in Hp. destruct Hp as (e & <- & Hp).
    apply in_map_iff in Hp. destruct Hp as (z & <- & Hp).
    apply in_map_iff in Hp. destruct Hp as (xi & <- & Hp).
    rewrite Forall_forall in Hall. specialize (Hall _ Hp).
    pose proof (exp_pos (xi - m)) as Hpos.
    assert (exp (xi - m) <= 1).
    { rewrite <- exp_0. destruct (Req_dec (xi - m) 0) as [->|Hne]; [lra|].
      apply Rlt_le, exp_increasing. lra. }
    split.
    + apply Rdiv_lt_0_compat; lra.
    + apply Rmult_lt_reg_r with (s + EPS); [lra|].
      unfold Rdiv. rewrite Rmult_assoc, Rinv_l by lra. lra.
  - intros i j Hi Hj Hle. rewrite !length_map in Hi, Hj.
    rewrite !map_map.
    set (f := fun xi => exp (xi - m) / (s + EPS)).
    rewrite (nth_indep _ 0 (f 0)) by (rewrite length_map; exact Hi).
    rewrite (nth_indep (map f x) 0 (f 0)) by (rewrite length_map; exact Hj).
    rewrite !map_nth. unfold f.
    apply Rmult_le_compat_r; [apply Rlt_le, Rinv_0_lt_compat; lra|].
    destruct (Req_dec (nth i x 0) (nth j x 0)) as [->|Hne]; [lra|].
    apply Rlt_le, exp_increasing. lra.
Qed.

(** X9. The numeric part of a [chat] turn, for any rounding [fl] of the
    sigmoid.  It returns when the weight vector is not empty, [W] is
    [N x N], [psi] is [N x D] and the feedback vectors have one length; it
    raises on an empty weight vector, on feedback vectors of different
    lengths and on a [W] that has not [N] rows.  When it returns, the
    collapsed index lies inside the vector and holds the first largest
    activation, so [collapse_weights] never raises [IndexError]; the new
    weights have the length of the old ones; the turn collapses exactly
    when the entropy it computed exceeds [S_crit]; without a collapse the
    weights are the old ones, and with one each is scaled by [1 - alpha],
    [alpha] being added at the collapsed index. *)
Theorem chat_field_turn (fl : R -> R) (D : nat) (st : FieldState) :
  let w := fs_w st in
  let N := List.length w in
  (w <> [] ->
   List.length (fs_W st) = N ->
   (forall row, In row (fs_W st) -> List.length row = N) ->
   List.length (fs_psi st) = N ->
   (forall row, In row (fs_psi st) -> List.length row = D) ->
   List.length (fs_lambda st) = List.length (fs_F st) ->
   exists t, chat_field fl D st = Some t)
  /\ (w = [] -> chat_field fl D st = None)
  /\ (List.length (fs_lambda st) <> List.length (fs_F st) ->
      chat_field fl D st = None)
  /\ (List.length (fs_W st) <> N -> chat_field fl D st = None)
  /\ forall t, chat_field fl D st = Some t ->
       let i := t_collapsed_index t in
       t_prev_w t = w
       /\ t_activation t = map fl w
       /\ (i < N)%nat
       /\ (forall j, (j < N)%nat -> fl (nth j w 0) <= fl (nth i w 0))
       /\ (forall j, (j < i)%nat -> fl (nth j w 0) < fl (nth i w 0))
       /\ List.length (t_new_w t) = N
       /\ t_entropy t = entropy (t_activation t)
       /\ (t_collapsed t = true <-> fs_S_crit st < t_entropy t)
       /\ (t_collapsed t = false -> t_new_w t = w)
       /\ (t_collapsed t = true ->
           forall j, (j < N)%nat ->
             nth j (t_new_w t) 0
             = (1 - fs_alpha st) * nth j w 0
               + (if (j =? i)%nat then fs_alpha st else 0)).
Proof.
  intros w N. split; [|split; [|split; [|split]]].
  - apply chat_field_some.
  - intros Hw. unfold chat_field. fold w. rewrite Hw. simpl.
    destruct (resonance [] (fs_W st)), (project_state D [] (fs_psi st)),
      (feedback_modulation (fs_lambda st) (fs_F st)); reflexivity.
  - intros Hf. unfold chat_field.
    rewrite (feedback_modulation_mismatch _ _ Hf).
    destruct (resonance (map fl (fs_w st)) (fs_W st)),
      (project_state D (map fl (fs_w st)) (fs_psi st)); reflexivity.
  - intros HW. unfold chat_field.
    rewrite resonance_rows_mismatch by (rewrite length_map; exact HW).
    reflexivity.
  - intros t Ht i.
    destruct (@chat_field_inv _ _ _ _ Ht) as (Hi & Hp & Ha & He & Hc & Hw).
    fold w i in Hi, Hp, Ha, He, Hc, Hw.
    pose proof (@np_argmax_in_range _ _ Hi) as Hlt. rewrite length_map in Hlt.
    fold N in Hlt.
    assert (Hnth : forall j, (j < N)%nat -> nth j (map fl w) 0 = fl (nth j w 0)).
    { intros j Hj. rewrite (nth_indep _ 0 (fl 0)) by (rewrite length_map; exact Hj).
      apply map_nth. }
    split; [exact Hp|]. split; [exact Ha|]. split; [exact Hlt|].
    split; [|split; [|split; [|split; [|split; [|split]]]]].
    + intros j Hj. rewrite <- !Hnth by assumption.
      apply (proj2 (@np_argmax_max _ _ Hi)). rewrite length_map. exact Hj.
    + intros j Hj. rewrite <- !Hnth by lia.
      apply (@np_argmax_first _ _ Hi). exact Hj.
    + destruct (t_collapsed t); [|rewrite Hw; reflexivity].
      rewrite (@collapse_weights_some _ _ _ Hlt) in Hw. injection Hw as <-.
      rewrite length_add_at, length_map. reflexivity.
    + rewrite He, Ha. reflexivity.
    + rewrite Hc. unfold check_collapse.
      destruct (Rlt_dec (fs_S_crit st) (t_entropy t));
        split; intros; (assumption || discriminate || reflexivity || contradiction).
    + intros Hf. rewrite Hf in Hw. exact Hw.
    + intros Ht' j Hj. rewrite Ht' in Hw.
      rewrite (@collapse_weights_some _ _ _ Hlt) in Hw. injection Hw as <-.
      rewrite nth_add_at by (rewrite length_map; exact Hlt).
      f_equal. replace 0 with (Rmult (1 - fs_alpha st) 0) at 1 by lra.
      apply map_nth.
Qed.

Lemma chat_field_turn_witness :
  let st := Build_FieldState [0; 0; 0] [[1]; [2]; [3]]
              [[0; 1; 0]; [1; 0; 1]; [0; 1; 0]]
              [12 / 100; 12 / 100; 12 / 100] [17 / 100; 17 / 100; 17 / 100]
              (73 / 1000) (179 / 100) in
  exists t, chat_field (fun x => 1 / (1 + exp (- x))) 1 st = Some t.
Proof.
  cbv zeta.
  apply (proj1 (@chat_field_turn (fun x => 1 / (1 + exp (- x))) 1
                  (Build_FieldState [0; 0; 0] [[1]; [2]; [3]]
                     [[0; 1; 0]; [1; 0; 1]; [0; 1; 0]]
                     [12 / 100; 12 / 100; 12 / 100] [17 / 100; 17 / 100; 17 / 100]
                     (73 / 1000) (179 / 100)))).
  - simpl. discriminate.
  - reflexivity.
  - simpl. intros row [<-|[<-|[<-|[]]]]; reflexivity.
  - reflexivity.
  - simpl. intros row [<-|[<-|[<-|[]]]]; reflexivity.
  - reflexivity.
Defined.

(** X11. [project_state] is the weighted sum of the basis vectors: for [N]
    activations and an [N x D] basis it returns a vector of [D] components,
    the [j]-th being the sum over [i] of [a_i * psi[i][j]]. *)
Theorem project_state_weighted_sum (D : nat) (a : list R) (psi : list (list R)) :
  List.length a = List.length psi ->
  (forall row, In row psi -> List.length row = D) ->
  exists out,
    project_state D a psi = Some out
    /\ List.length out = D
    /\ forall j, (j < D)%nat ->
         nth j out 0
         = np_sum (map (fun p => fst p * nth j (snd p) 0) (combine a psi)).
Proof.
  intros Hl Hrows. exists (weighted_rows D (combine a psi)).
  split; [apply project_state_rows; assumption|].
  apply (@sum_rows_spec D (combine a psi)).
  intros [c r] Hp. apply in_combine_r in Hp. apply Hrows, Hp.
Qed.

Lemma project_state_weighted_sum_witness :
  List.length [1; 2] = List.length [[3]; [4]]
  /\ exists out,
       project_state 1 [1; 2] [[3]; [4]] = Some out
       /\ List.length out = 1%nat
       /\ nth 0 out 0 = 1 * 3 + (2 * 4 + 0).
Proof.
  split; [reflexivity|].
  destruct (@project_state_weighted_sum 1 [1; 2] [[3]; [4]] eq_refl)
    as (out & Ho & Hl & Hn).
  - intros row [<-|[<-|[]]]; reflexivity.
  - exists out. split; [exact Ho|]. split; [exact Hl|].
    exact (Hn 0%nat (Nat.lt_0_succ 0)).
Defined.

(** X12. The entropy of a vector of [N] components never exceeds [N / e],
    whatever the components are; so a turn cannot collapse when the
    threshold [S_crit] is [N / e] or more. *)
Theorem entropy_upper_bound (a : list R) :
  entropy a <= INR (List.length a) * exp (- 1)
  /\ forall S_crit, INR (List.length a) * exp (- 1) <= S_crit ->
                    check_collapse (entropy a) S_crit = false.
Proof.
  assert (Hb : entropy a <= INR (List.length a) * exp (- 1)).
  { unfold entropy. cbv zeta. rewrite map_map.
    assert (Hneg : forall l : list R, - np_sum l = np_sum (map Ropp l)).
    { unfold np_sum. induction l as [|x l IH]; simpl; [lra|]. rewrite <- IH. lra. }
    rewrite Hneg, map_map.
    apply (@np_sum_le_each (fun ai => - (ai ^ 2 * ln (ai ^ 2 + EPS))) (exp (- 1)) a).
    intros x _. apply entropy_term_le. apply pow2_ge_0. }
  split; [exact Hb|].
  intros S_crit Hs. unfold check_collapse.
  destruct (Rlt_dec S_crit (entropy a)); [lra|reflexivity].
Qed.

End FieldDynamicsExtras.

Section GraphQueryExtras.
Local Open Scope string_scope.
Local Open Scope list_scope.

(** X13. [retrieve] on a graph whose timestamps can be ordered returns the
    matching events newest first: the result is the front of a list that
    holds exactly the events [filter_fn] accepts and is sorted by
    descending timestamp.  A non-negative [max_results] bounds the length
    of the result; a negative one leaves out that many of the oldest
    matches instead. *)
Theorem retrieve_newest_first (g : DiGraph) (filter_fn : MemoryEvent -> bool)
  (max_results : Z) :
  comparable g ->
  exists r rest,
    retrieve g filter_fn max_results = Returns r
    /\ Permutation (r ++ rest) (filter filter_fn (map snd (nodes g)))
    /\ StronglySorted
         (fun a b => (sort_instant (timestamp b) <= sort_instant (timestamp a))%Z)
         (r ++ rest)
    /\ ((0 <= max_results)%Z ->
        List.length r
        = Nat.min (Z.to_nat max_results)
                  (List.length (filter filter_fn (map snd (nodes g)))))
    /\ ((max_results < 0)%Z ->
        List.length rest
        = Nat.min (Z.to_nat (- max_results))
                  (List.length (filter filter_fn (map snd (nodes g))))).
Proof.
  intros Hc. unfold retrieve.
  set (matches := filter filter_fn (map snd (nodes g))).
  destruct (@sort_desc_by_ok _ timestamp matches) as (s & Hs & Hperm & Hsorted).
  { intros p q Hp Hq. unfold matches in Hp, Hq.
    apply filter_In in Hp, Hq. destruct Hp as [Hp _], Hq as [Hq _].
    apply in_map_iff in Hp, Hq.
    destruct Hp as (p' & <- & Hp), Hq as (q' & <- & Hq). apply Hc; assumption. }
  rewrite Hs. simpl.
  exists (slice_first max_results s).
  exists (skipn (List.length (slice_first max_results s)) s).
  assert (Hsplit : slice_first max_results s
                   ++ skipn (List.length (slice_first max_results s)) s = s).
  { unfold slice_first. rewrite length_firstn.
    set (k := Z.to_nat _).
    assert (Hk : (k <= List.length s)%nat).
    { unfold k. destruct (0 <=? max_results)%Z eqn:E;
        [apply Z.leb_le in E|apply Z.leb_gt in E]; lia. }
    rewrite Nat.min_l by exact Hk. apply firstn_skipn. }
  split; [reflexivity|]. rewrite Hsplit.
  split; [exact Hperm|]. split; [exact Hsorted|].
  pose proof (Permutation_length Hperm) as Hlen.
  split.
  - intros Hk. rewrite length_slice_first.
    destruct (0 <=? max_results)%Z eqn:E; [|apply Z.leb_gt in E; lia]. lia.
  - intros Hk. rewrite length_skipn, length_slice_first.
    destruct (0 <=? max_results)%Z eqn:E; [apply Z.leb_le in E; lia|]. lia.
Qed.

Lemma retrieve_newest_first_witness :
  comparable graph_ab
  /\ exists r rest,
       retrieve graph_ab (fun _ => true) 1 = Returns r
       /\ Permutation (r ++ rest) (filter (fun _ => true) (map snd (nodes graph_ab)))
       /\ StronglySorted
            (fun a b => (sort_instant (timestamp b) <= sort_instant (timestamp a))%Z)
            (r ++ rest)
       /\ ((0 <= 1)%Z ->
           List.length r
           = Nat.min (Z.to_nat 1)
               (List.length (filter (fun _ => true) (map snd (nodes graph_ab)))))
       /\ ((1 < 0)%Z ->
           List.length rest
           = Nat.min (Z.to_nat (- 1))
               (List.length (filter (fun _ => true) (map snd (nodes graph_ab))))).
Proof.
  assert (Hc : comparable graph_ab).
  { intros p q Hp Hq. rewrite graph_ab_nodes in Hp, Hq.
    destruct Hp as [<-|[<-|[]]], Hq as [<-|[<-|[]]]; reflexivity. }
  split; [exact Hc|].
  exact (@retrieve_newest_first graph_ab (fun _ => true) 1 Hc).
Defined.

(** X14. [retrieve] raises [TypeError] as soon as two of the matching events
    carry a naive and an aware timestamp, whatever [max_results] is: the
    sort compares them before the slice is taken. *)
Theorem retrieve_mixed_timestamps_raise (g : DiGraph)
  (filter_fn : MemoryEvent -> bool) (max_results : Z) (n m : string)
  (e1 e2 : MemoryEvent) :
  In (n, e1) (nodes g) -> In (m, e2) (nodes g) ->
  filter_fn e1 = true -> filter_fn e2 = true ->
  is_aware (timestamp e1) <> is_aware (timestamp e2) ->
  retrieve g filter_fn max_results = Raises TypeError.
Proof.
  intros H1 H2 F1 F2 Hne. unfold retrieve.
  rewrite (@sort_desc_by_mixed _ timestamp _ e1 e2); [reflexivity| | |exact Hne].
  - apply filter_In. split; [|exact F1].
    apply in_map_iff. exists (n, e1). split; [reflexivity|exact H1].
  - apply filter_In. split; [|exact F2].
    apply in_map_iff. exists (m, e2). split; [reflexivity|exact H2].
Qed.

Lemma retrieve_mixed_timestamps_raise_witness :
  In ("a", ev_a) (nodes graph_ac) /\ In ("c", ev_c) (nodes graph_ac)
  /\ is_aware (timestamp ev_a) <> is_aware (timestamp ev_c)
  /\ retrieve graph_ac (fun _ => true) 0 = Raises TypeError.
Proof.
  assert (H1 : In ("a", ev_a) (nodes graph_ac)) by (left; reflexivity).
  assert (H2 : In ("c", ev_c) (nodes graph_ac)) by (right; left; reflexivity).
  assert (Hne : is_aware (timestamp ev_a) <> is_aware (timestamp ev_c))
    by (simpl; discriminate).
  split; [exact H1|]. split; [exact H2|]. split; [exact Hne|].
  exact (@retrieve_mixed_timestamps_raise graph_ac (fun _ => true) 0 "a" "c"
           ev_a ev_c H1 H2 eq_refl eq_refl Hne).
Defined.

(** X15. [retrieve] and [add_event] agree on which event is the latest: on
    a non-empty graph with comparable timestamps, the single event
    [retrieve(lambda e: True, max_results=1)] returns is the event of the
    node from which [add_event] draws the [next_in_time] edge to a new
    event. *)
Theorem retrieve_latest_is_link_source (g : DiGraph) (ev : MemoryEvent) :
  nodes g <> [] -> comparable g -> has_node g (id ev) = false ->
  exists n ev0,
    In (n, ev0) (nodes g)
    /\ retrieve g (fun _ => true) 1 = Returns [ev0]
    /\ add_event g ev
       = (Returns tt, add_edge (add_node g (id ev) ev) n (id ev) "next_in_time").
Proof.
  intros Hne Hc Hfresh.
  destruct (@add_event_fresh_linked g ev Hne Hc Hfresh) as (n & ev0 & s' & Hs & Hin & Hadd).
  exists n, ev0. split; [exact Hin|]. split; [|exact Hadd].
  unfold retrieve.
  assert (Hall : filter (fun _ : MemoryEvent => true) (map snd (nodes g))
                 = map snd (nodes g)).
  { induction (map snd (nodes g)) as [|x l IH]; simpl; [reflexivity|].
    rewrite IH. reflexivity. }
  rewrite Hall.
  rewrite (@sort_desc_by_map _ _ (fun p : string * MemoryEvent => timestamp (snd p))
             timestamp snd (nodes g)) by reflexivity.
  rewrite Hs. cbn [bind map snd]. unfold slice_first.
  change (0 <=? 1)%Z with true. cbv iota.
  replace (Z.to_nat (Z.min 1 (Z.of_nat (List.length (ev0 :: map snd s')))))
    with 1%nat by (cbn [List.length]; lia).
  reflexivity.
Qed.

Lemma retrieve_latest_is_link_source_witness :
  nodes graph_a <> [] /\ comparable graph_a /\ has_node graph_a (id ev_b) = false
  /\ exists n ev0,
       In (n, ev0) (nodes graph_a)
       /\ retrieve graph_a (fun _ => true) 1 = Returns [ev0]
       /\ add_event graph_a ev_b
          = (Returns tt,
             add_edge (add_node graph_a (id ev_b) ev_b) n (id ev_b) "next_in_time").
Proof.
  assert (Hne : nodes graph_a <> []) by (simpl; discriminate).
  assert (Hc : comparable graph_a).
  { intros p q [<-|[]] [<-|[]]. reflexivity. }
  split; [exact Hne|]. split; [exact Hc|]. split; [reflexivity|].
  exact (@retrieve_latest_is_link_source graph_a ev_b Hne Hc eq_refl).
Defined.

End GraphQueryExtras.

Section RelatedExtras.
Local Open Scope string_scope.
Local Open Scope list_scope.

(** X16. [related] raises [KeyError] when the event is not in the graph.
    Otherwise it returns, once each, the events of exactly those nodes other
    than the root that a path of at most [depth] edges reaches from the
    root, following the edges forward; a depth of zero or less gives the
    empty list. *)
Theorem related_within_depth (g : DiGraph) (event_id : string) (depth : Z) :
  wf_graph g ->
  if has_node g event_id then
    exists ns r,
      related g event_id depth = Returns r
      /\ NoDup ns
      /\ (forall n, In n ns <->
                    n <> event_id /\ within g event_id (Z.to_nat depth) n)
      /\ Forall2 (fun n ev => In (n, ev) (nodes g)) ns r
  else related g event_id depth = Raises KeyError.
Proof.
  intros Hwf. unfold related.
  destruct (has_node g event_id) eqn:Hroot; [|reflexivity].
  unfold single_source_shortest_path_length.
  destruct (@bfs_levels_spec g event_id (Z.to_nat depth) 0 [event_id] [event_id]
              (bfs_inv_init g event_id)) as [Hnd Hin].
  set (lengths := bfs_levels g (Z.to_nat depth) [event_id] [event_id]) in *.
  set (ns := filter (fun n => negb (String.eqb n event_id)) lengths).
  assert (Hns : forall n, In n ns <->
                          n <> event_id /\ within g event_id (Z.to_nat depth) n).
  { intros n. unfold ns. rewrite filter_In, Hin. simpl.
    rewrite negb_true_iff, String.eqb_neq. tauto. }
  destruct (@events_at_ok g ns) as (r & Hr & Hall).
  { intros n Hn. apply Hns in Hn. destruct Hn as [_ Hn].
    apply (within_has_node Hwf Hroot Hn). }
  exists ns, r. split; [exact Hr|]. split; [apply NoDup_filter, Hnd|].
  split; [exact Hns|exact Hall].
Qed.

Lemma related_within_depth_witness :
  wf_graph graph_ab
  /\ if has_node graph_ab "a" then
       exists ns r,
         related graph_ab "a" 1 = Returns r
         /\ NoDup ns
         /\ (forall n, In n ns <-> n <> "a" /\ within graph_ab "a" (Z.to_nat 1) n)
         /\ Forall2 (fun n ev => In (n, ev) (nodes graph_ab)) ns r
     else related graph_ab "a" 1 = Raises KeyError.
Proof.
  assert (Hwf : wf_graph graph_ab).
  { apply wf_add_event, wf_add_event, wf_empty. }
  split; [exact Hwf|].
  exact (@related_within_depth graph_ab "a" 1 Hwf).
Defined.

(** X17. [related] follows edges forward only, and [add_event] draws its
    edge into the new node: right after an event with a fresh id was added,
    [related] finds nothing for it, at any depth. *)
Theorem related_of_newest_is_empty (g : DiGraph) (ev : MemoryEvent) (depth : Z) :
  wf_graph g -> has_node g (id ev) = false ->
  related (snd (add_event g ev)) (id ev) depth = Returns [].
Proof.
  intros Hwf Hfresh.
  set (g' := snd (add_event g ev)).
  assert (Hnode : has_node g' (id ev) = true).
  { unfold g'. destruct (add_event_graph_cases g ev) as [->|(l & _ & _ & ->)]; simpl.
    - rewrite has_node_add_node, String.eqb_refl. reflexivity.
    - change (has_node (add_node g (id ev) ev) (id ev) = true).
      rewrite has_node_add_node, String.eqb_refl. reflexivity. }
  assert (Hsucc : successors g' (id ev) = []).
  { apply successors_nil. intros e He Hsrc.
    assert (Hold : forall e, In e (edges g) -> fst (fst e) <> id ev).
    { intros [[u v] r] Hin Hu. simpl in Hu. subst u.
      apply (wf_closed Hwf) in Hin. destruct Hin as [Hin _]. congruence. }
    unfold g' in He.
    destruct (add_event_graph_cases g ev) as [Heq|(l & Hne & _ & Heq)];
      rewrite Heq in He; simpl in He.
    - apply (Hold e He Hsrc).
    - apply In_assoc_set in He. destruct He as [->|He].
      + simpl in Hsrc. contradiction.
      + apply (Hold e He Hsrc). }
  unfold related. rewrite Hnode.
  unfold single_source_shortest_path_length.
  rewrite (@bfs_levels_sink _ _ (Z.to_nat depth) Hsucc). simpl.
  rewrite String.eqb_refl. reflexivity.
Qed.

Lemma related_of_newest_is_empty_witness :
  wf_graph graph_a /\ has_node graph_a (id ev_b) = false
  /\ related (snd (add_event graph_a ev_b)) (id ev_b) 5 = Returns [].
Proof.
  assert (Hwf : wf_graph graph_a) by (apply wf_add_event, wf_empty).
  split; [exact Hwf|]. split; [reflexivity|].
  exact (@related_of_newest_is_empty graph_a ev_b 5 Hwf eq_refl).
Defined.

End RelatedExtras.

Section DegreeExtras.
Local Open Scope R_scope.

(** X18. [avg_degree] is [0.0] on a graph without nodes and otherwise twice
    the number of edges over the number of nodes: every edge counts once at
    its source and once at its target (a self-loop twice at its node). *)
Theorem avg_degree_handshake (g : DiGraph) :
  wf_graph g ->
  avg_degree g
  = if (node_count g =? 0)%nat then 0
    else 2 * INR (edge_count g) / INR (node_count g).
Proof.
  intros Hwf. unfold avg_degree.
  destruct (node_count g =? 0)%nat; [reflexivity|].
  change (fold_right Nat.add 0%nat (map (fun p => degree g (fst p)) (nodes g)))
    with (total (map (fun p => degree g (fst p)) (nodes g))).
  rewrite (total_degree Hwf), mult_INR.
  replace (INR 2) with 2 by (simpl; lra). reflexivity.
Qed.

Lemma avg_degree_handshake_witness :
  wf_graph graph_ab
  /\ avg_degree graph_ab
     = if (node_count graph_ab =? 0)%nat then 0
       else 2 * INR (edge_count graph_ab) / INR (node_count graph_ab).
Proof.
  assert (Hwf : wf_graph graph_ab).
  { apply wf_add_event, wf_add_event, wf_empty. }
  split; [exact Hwf|]. exact (@avg_degree_handshake graph_ab Hwf).
Defined.

End DegreeExtras.

Section GraphGrowthExtras.
Local Open Scope string_scope.
Local Open Scope list_scope.

(** X19. Events added one after the other to an empty store, with distinct
    ids and strictly increasing timestamps of one kind (all naive or all
    aware), form a chain: every call returns, the nodes are the events in
    the order they were added, and the edges are exactly the [next_in_time]
    edges from each event to the one added next. *)
Theorem add_events_chronological_chain (evs : list MemoryEvent) :
  NoDup (map id evs) ->
  (forall a b, In a evs -> In b evs ->
               is_aware (timestamp a) = is_aware (timestamp b)) ->
  StronglySorted
    (fun a b => (sort_instant (timestamp a) < sort_instant (timestamp b))%Z) evs ->
  add_events empty_graph evs
  = (Returns tt, {| nodes := map node_of evs; edges := chain evs |}).
Proof.
  intros Hnd Hkind Hs. destruct evs as [|e evs]; [reflexivity|].
  cbn [add_events]. rewrite add_event_empty.
  apply (@add_events_chain_from evs [] e); assumption.
Qed.

Lemma add_events_chronological_chain_witness :
  NoDup (map id [ev_a; ev_b])
  /\ add_events empty_graph [ev_a; ev_b]
     = (Returns tt, {| nodes := map node_of [ev_a; ev_b]; edges := chain [ev_a; ev_b] |}).
Proof.
  assert (Hnd : NoDup (map id [ev_a; ev_b])).
  { simpl. constructor; [intros [H|[]]; discriminate|].
    constructor; [intros []|constructor]. }
  split; [exact Hnd|].
  apply (@add_events_chronological_chain [ev_a; ev_b] Hnd).
  - intros a b [<-|[<-|[]]] [<-|[<-|[]]]; reflexivity.
  - repeat constructor.
Defined.

(** X20. [add_event] only ever appends: whether it returns or raises, the
    node ids of the old graph keep their order and the id of the event is
    appended when it is new; every other node keeps its event; the edge
    pairs of the old graph keep their order and at most one pair, ending at
    the new event, is appended. *)
Theorem add_event_append_only (g : DiGraph) (ev : MemoryEvent) :
  let g' := snd (add_event g ev) in
  map fst (nodes g')
  = map fst (nodes g) ++ (if has_node g (id ev) then [] else [id ev])
  /\ (forall n e, In (n, e) (nodes g) -> n <> id ev -> In (n, e) (nodes g'))
  /\ exists added,
       map fst (edges g') = map fst (edges g) ++ added
       /\ (List.length added <= 1)%nat
       /\ forall p, In p added -> snd p = id ev /\ fst p <> id ev.
Proof.
  intros g'.
  assert (Hn : forall h, nodes h = nodes (add_node g (id ev) ev) ->
     map fst (nodes h)
     = map fst (nodes g) ++ (if has_node g (id ev) then [] else [id ev])
     /\ (forall n e, In (n, e) (nodes g) -> n <> id ev -> In (n, e) (nodes h))).
  { intros h ->. split.
    - unfold add_node. simpl. rewrite (@assoc_set_keys _ _ String.eqb string_eqb_eq').
      unfold has_node. destruct (assoc_mem String.eqb (id ev) (nodes g));
        [rewrite app_nil_r|]; reflexivity.
    - intros n e Hin Hne. unfold add_node. simpl.
      apply In_assoc_set_other; [apply String.eqb_eq|exact Hne|exact Hin]. }
  unfold g'.
  destruct (add_event_graph_cases g ev) as [Heq|(l & Hne & Hl & Heq)]; rewrite Heq.
  - destruct (Hn _ eq_refl) as [H1 H2].
    split; [exact H1|]. split; [exact H2|].
    exists []. simpl. rewrite app_nil_r. split; [reflexivity|].
    split; [lia|intros p []].
  - destruct (Hn (add_edge (add_node g (id ev) ev) l (id ev) "next_in_time") eq_refl)
      as [H1 H2].
    split; [exact H1|]. split; [exact H2|].
    simpl. rewrite (@assoc_set_keys _ _ pair_eqb pair_eqb_eq).
    destruct (assoc_mem pair_eqb (l, id ev) (edges g)).
    + exists []. rewrite app_nil_r. split; [reflexivity|]. split; [simpl; lia|intros p []].
    + exists [(l, id ev)]. split; [reflexivity|]. split; [simpl; lia|].
      intros p [<-|[]]. simpl. split; [reflexivity|exact Hne].
Qed.

End GraphGrowthExtras.

Section SaveExtras.
Local Open Scope string_scope.
Local Open Scope list_scope.

(** X21. [save_json] raises exactly when the payload of some event of the
    graph is not JSON serialisable: one such payload makes the whole save
    fail, and nothing else does. *)
Theorem save_json_fails_on_payload_only (g : DiGraph) :
  save_json g = None
  <-> exists n ev, In (n, ev) (nodes g) /\ json_dump (PDict (payload ev)) = None.
Proof.
  unfold save_json, node_link_data.
  rewrite json_dump_dict, !dump_members_cons, !json_dump_list, !json_dump_bool.
  rewrite (json_dump_dict []), !dump_members_nil. cbn [json_key].
  destruct (dump_all_edges (edges g)) as (es & ->).
  destruct (dump_all (map node_to_py (nodes g))) as [js|] eqn:Hn.
  - split; [discriminate|]. intros (n & ev & Hin & Hd).
    assert (H : dump_all (map node_to_py (nodes g)) = None).
    { apply dump_all_nodes. exists (n, ev). split; assumption. }
    congruence.
  - split; [|reflexivity]. intros _.
    apply dump_all_nodes in Hn. destruct Hn as ([n ev] & Hin & Hd).
    exists n, ev. split; assumption.
Qed.

End SaveExtras.

Section CacheExtras.
Local Open Scope string_scope.
Local Open Scope list_scope.
Variable embedder : string -> list R.
Variable py_str : pydict -> string.
Variable np_argsort : list R -> list nat.

(** X22. The cache of [retrieve_semantic] never looks at the graph: once a
    call for [(text, k)] has returned, the next call for the same
    [(text, k)] returns the same list, whatever the graph holds by then
    (even nothing at all). *)
Theorem retrieve_semantic_stale_hit (c c' : cache) (g g' : DiGraph)
  (text : string) (k : Z) (res : list MemoryEvent) :
  retrieve_semantic embedder py_str np_argsort c g text k = (Returns res, c') ->
  fst (retrieve_semantic embedder py_str np_argsort c' g' text k) = Returns res.
Proof.
  unfold retrieve_semantic at 1.
  destruct (assoc_get key_eqb (text, k) c) as [hit|].
  - intros H. injection H as <- <-.
    unfold retrieve_semantic. cbn [assoc_get]. rewrite key_eqb_refl. reflexivity.
  - destruct (retrieve_semantic_body embedder py_str np_argsort g text k) as [r|e]; [|discriminate].
    intros H. injection H as <- <-.
    unfold retrieve_semantic. cbn [firstn assoc_get]. rewrite key_eqb_refl. reflexivity.
Qed.

(** X23. The cache of [retrieve_semantic] stays within its 128 entries and
    keeps one entry per [(text, k)], whether the call hits, misses or
    raises. *)
Theorem retrieve_semantic_cache_bounded (c : cache) (g : DiGraph)
  (text : string) (k : Z) :
  (List.length c <= 128)%nat -> NoDup (map fst c) ->
  let c' := snd (retrieve_semantic embedder py_str np_argsort c g text k) in
  (List.length c' <= 128)%nat /\ NoDup (map fst c').
Proof.
  intros Hlen Hnd. unfold retrieve_semantic.
  destruct (assoc_get key_eqb (text, k) c) as [hit|] eqn:Hget.
  - cbn [snd]. apply (@assoc_get_In _ _ key_eqb key_eqb_eq) in Hget.
    split.
    + cbn [List.length].
      pose proof (@length_filter_lt _ (fun e => negb (key_eqb (text, k) (fst e))) c
                    ((text, k), hit) Hget) as Hlt.
      cbn [fst] in Hlt. rewrite key_eqb_refl in Hlt. specialize (Hlt eq_refl). lia.
    + cbn [map fst]. constructor; [|apply NoDup_keys_filter, Hnd].
      intros Hin. apply in_map_iff in Hin. destruct Hin as ([key r] & Hk & Hin).
      simpl in Hk. subst key. apply filter_In in Hin. destruct Hin as [_ Hf].
      simpl in Hf. rewrite key_eqb_refl in Hf. discriminate.
  - apply (@assoc_get_None _ _ key_eqb key_eqb_eq) in Hget.
    destruct (retrieve_semantic_body embedder py_str np_argsort g text k) as [r|e]; cbn [snd].
    + split.
      * rewrite length_firstn. lia.
      * rewrite <- firstn_map. apply NoDup_firstn. cbn [map fst].
        constructor; assumption.
    + split; assumption.
Qed.

(** X24. While the graph does not change, the cache is transparent to
    [retrieve_semantic_batch]: with a cache that agrees with the graph (the
    empty cache does), the batch returns one result per text, each the list
    the body of [retrieve_semantic] computes for that text, or it raises
    what the body raises on one of the texts. *)
Theorem retrieve_semantic_batch_transparent (g : DiGraph) (texts : list string)
  (k : Z) : forall c,
  coherent embedder py_str np_argsort c g ->
  match fst (retrieve_semantic_batch embedder py_str np_argsort c g texts k) with
  | Returns results =>
      Forall2 (fun text res =>
                 retrieve_semantic_body embedder py_str np_argsort g text k = Returns res)
              texts results
  | Raises e =>
      exists text, In text texts
                   /\ retrieve_semantic_body embedder py_str np_argsort g text k = Raises e
  end.
Proof.
  induction texts as [|text rest IH]; intros c Hc; [constructor|].
  cbn [retrieve_semantic_batch].
  destruct (@retrieve_semantic_coherent embedder py_str np_argsort c g text k Hc) as [Hfst Hc1].
  destruct (retrieve_semantic embedder py_str np_argsort c g text k) as [[res|e] c1];
    cbn [fst snd] in Hfst, Hc1.
  - specialize (IH c1 Hc1).
    destruct (retrieve_semantic_batch embedder py_str np_argsort c1 g rest k) as [[more|e] c2];
      cbn [fst] in IH |- *.
    + constructor; [symmetry; exact Hfst|exact IH].
    + destruct IH as (t & Ht & Hb). exists t. split; [right; exact Ht|exact Hb].
  - exists text. split; [left; reflexivity|symmetry; exact Hfst].
Qed.

End CacheExtras.

Lemma retrieve_semantic_stale_hit_witness :
  retrieve_semantic zero_embedder no_repr stable_argsort [] graph_ab "q" 0
  = (Returns [ev_b; ev_a], [(("q", 0%Z), [ev_b; ev_a])])
  /\ fst (retrieve_semantic zero_embedder no_repr stable_argsort [(("q", 0%Z), [ev_b; ev_a])]
             empty_graph "q" 0)
     = Returns [ev_b; ev_a].
Proof.
  assert (H : retrieve_semantic zero_embedder no_repr stable_argsort [] graph_ab "q" 0
              = (Returns [ev_b; ev_a], [(("q", 0%Z), [ev_b; ev_a])])).
  { unfold retrieve_semantic. cbn [assoc_get]. rewrite k_zero_returns_all. reflexivity. }
  split; [exact H|].
  exact (@retrieve_semantic_stale_hit zero_embedder no_repr stable_argsort [] _ graph_ab empty_graph "q" 0 _ H).
Defined.

Lemma retrieve_semantic_cache_bounded_witness :
  (List.length (@nil ((string * Z) * list MemoryEvent)) <= 128)%nat
  /\ (List.length (snd (retrieve_semantic zero_embedder no_repr stable_argsort [] graph_ab "q" 1))
      <= 128)%nat.
Proof.
  split; [simpl; lia|].
  exact (proj1 (@retrieve_semantic_cache_bounded zero_embedder no_repr stable_argsort [] graph_ab "q" 1
                  (Nat.le_0_l 128) (NoDup_nil _))).
Defined.

Lemma retrieve_semantic_batch_transparent_witness :
  coherent zero_embedder no_repr stable_argsort [] graph_ab
  /\ match fst (retrieve_semantic_batch zero_embedder no_repr stable_argsort [] graph_ab ["q"; "q"] 0) with
     | Returns results =>
         Forall2 (fun text res =>
                    retrieve_semantic_body zero_embedder no_repr stable_argsort graph_ab text 0
                    = Returns res)
                 ["q"; "q"] results
     | Raises e =>
         exists text, In text ["q"; "q"]
                      /\ retrieve_semantic_body zero_embedder no_repr stable_argsort graph_ab text 0
                         = Raises e
     end.
Proof.
  assert (Hc : coherent zero_embedder no_repr stable_argsort [] graph_ab) by (intros key res []).
  split; [exact Hc|].
  exact (@retrieve_semantic_batch_transparent zero_embedder no_repr stable_argsort graph_ab
           ["q"; "q"] 0 [] Hc).
Defined.

Section UserFilesExtras.
Variable json_dumps : json -> string.
Variable json_loads : string -> option json.
Variable rng : Type.
Variable draw : rng -> R * rng.

(** X25. What [save_qpf_math_state] writes, [load_qpf_math_state] reads back:
    for a weight vector and two rectangular matrices the save returns, and,
    provided the JSON text written is not empty and parses back to the
    document it was written from, a load from the same user directory
    returns exactly the saved arrays, for any requested [N] and [D], without
    drawing from the generator. *)
Theorem save_then_load_state (fs : files) (user_dir : string)
  (w : list R) (psi W : list (list R)) (d n : nat) (N D : nat) (s : rng) :
  (forall r, In r psi -> List.length r = d) ->
  (forall r, In r W -> List.length r = n) ->
  (forall doc,
     json_dump (PDict [ (KStr "w", vec_py w); (KStr "psi", mat_py psi);
                        (KStr "W", mat_py W) ]) = Some doc ->
     json_dumps doc <> "" /\ json_loads (json_dumps doc) = Some doc) ->
  exists fs',
    save_qpf_math_state json_dumps fs user_dir w psi W = Some fs'
    /\ load_qpf_math_state fs' json_loads draw user_dir N D s
       = ((vec_py w, mat_py psi, mat_py W), s).
Proof.
  intros Hpsi HW Hjson.
  set (data := PDict [ (KStr "w", vec_py w); (KStr "psi", mat_py psi);
                       (KStr "W", mat_py W) ]) in *.
  assert (Hnat : json_native data = true).
  { unfold data. cbn [json_native forallb snd].
    rewrite json_native_vec, !json_native_mat. reflexivity. }
  destruct (json_roundtrip data Hnat) as (doc & Hdump & Hload).
  destruct (Hjson doc Hdump) as [Hne Hparse].
  unfold save_qpf_math_state. fold data. rewrite Hdump.
  eexists. split; [reflexivity|].
  unfold load_qpf_math_state, write_file. rewrite String.eqb_refl.
  replace (0 <? String.length (json_dumps doc))%nat with true.
  2:{ symmetry. apply Nat.ltb_lt.
      destruct (json_dumps doc); [contradiction|simpl; lia]. }
  rewrite (@read_state_stored json_loads (json_dumps doc) doc
             (vec_py w) (mat_py psi) (mat_py W)); try reflexivity.
  - exact Hparse.
  - rewrite Hload. reflexivity.
  - rewrite Hload. reflexivity.
  - rewrite Hload. reflexivity.
  - rewrite shape_of_vec. discriminate.
  - apply (@shape_of_mat psi d Hpsi).
  - apply (@shape_of_mat W n HW).
Qed.

(** X26. [ensure_user_files] never overwrites: every file that exists keeps
    its text.  Afterwards all the required files of the user directory
    exist, and running it again changes nothing. *)
Theorem ensure_user_files_idempotent (fs : files) (user_dir : string) :
  (forall p t, fs p = Some t -> ensure_user_files fs user_dir p = Some t)
  /\ (forall f, In f REQUIRED_FILES ->
                ensure_user_files fs user_dir (path_join user_dir f) <> None)
  /\ ensure_user_files (ensure_user_files fs user_dir) user_dir
     = ensure_user_files fs user_dir.
Proof.
  assert (Hall : forall f, In f REQUIRED_FILES ->
                   ensure_user_files fs user_dir (path_join user_dir f) <> None).
  { intros f Hf. destruct (@ensure_fold_creates user_dir REQUIRED_FILES fs f Hf) as (t & Ht).
    unfold ensure_user_files. rewrite Ht. discriminate. }
  split; [|split].
  - intros p t H. apply ensure_fold_keeps, H.
  - exact Hall.
  - apply ensure_fold_fixed. exact Hall.
Qed.

(** X27. A new user starts from a random state: when the user directory has
    no weights file, [ensure_user_files] creates it holding [{}], which is
    not empty and has no ["w"], so [load_qpf_math_state] falls back to the
    freshly drawn state, as if the file were missing. *)
Theorem load_after_ensure_is_fresh (fs : files) (user_dir : string)
  (N D : nat) (s : rng) :
  fs (path_join user_dir "qpf_weights.json") = None ->
  json_loads "{}" = Some (JObj []) ->
  ensure_user_files fs user_dir (path_join user_dir "qpf_weights.json") = Some "{}"
  /\ load_qpf_math_state (ensure_user_files fs user_dir) json_loads draw user_dir N D s
     = fresh_state draw N D s.
Proof.
  intros Hnone Hparse.
  assert (Hfile : ensure_user_files fs user_dir (path_join user_dir "qpf_weights.json")
                  = Some "{}").
  { unfold ensure_user_files.
    change REQUIRED_FILES with (removelast REQUIRED_FILES ++ ["qpf_weights.json"]).
    rewrite fold_left_app. cbn [fold_left]. unfold ensure_file at 1.
    rewrite ensure_fold_other by reflexivity.
    rewrite Hnone. unfold write_file. rewrite String.eqb_refl. reflexivity. }
  split; [exact Hfile|].
  unfold load_qpf_math_state. rewrite Hfile.
  cbn [String.length Nat.ltb Nat.leb]. unfold read_state. rewrite Hparse.
  reflexivity.
Qed.

End UserFilesExtras.

Lemma save_then_load_state_witness :
  exists fs',
    save_qpf_math_state one_text no_files "users/u1" w2 psi2 W2 = Some fs'
    /\ load_qpf_math_state fs' parse_state counter_draw "users/u1" 7 3 0%nat
       = ((vec_py w2, mat_py psi2, mat_py W2), 0%nat).
Proof.
  apply (@save_then_load_state one_text parse_state nat counter_draw no_files
           "users/u1" w2 psi2 W2 1 2 7 3 0%nat).
  - intros r [<-|[<-|[]]]; reflexivity.
  - intros r [<-|[<-|[]]]; reflexivity.
  - intros doc H. split; [discriminate|exact H].
Defined.

Lemma load_after_ensure_is_fresh_witness :
  no_files (path_join "users/u1" "qpf_weights.json") = None
  /\ ensure_user_files no_files "users/u1" (path_join "users/u1" "qpf_weights.json")
     = Some "{}"
  /\ load_qpf_math_state (ensure_user_files no_files "users/u1") parse_empty_object
       counter_draw "users/u1" 7 3 0%nat
     = fresh_state counter_draw 7 3 0%nat.
Proof.
  split; [reflexivity|].
  exact (@load_after_ensure_is_fresh parse_empty_object nat counter_draw no_files
           "users/u1" 7 3 0%nat eq_refl eq_refl).
Defined.

Section CounterfactualExtras.
Variable py_sum : list pyval -> outcome R.
Variable fresh : nat -> string * datetime.

(** X28. The score of a counterfactual branch does not depend on its
    modifiers.  On a store whose timestamps are naive, with new events that
    get naive timestamps and ids that are new and distinct, [run_branch]
    returns the valence average of the events the store already held, or
    raises what that average raises: the events the branch adds carry no
    ["valence"], so every branch of a batch gets the same score. *)
Theorem run_branch_score_ignores_modifiers (g : DiGraph)
  (modifiers : list (string * R)) :
  (forall p, In p (nodes g) -> is_aware (timestamp (snd p)) = false) ->
  (forall i, (i <= List.length modifiers)%nat ->
             is_aware (snd (fresh i)) = false /\ has_node g (fst (fresh i)) = false) ->
  (forall i j, (i < j <= List.length modifiers)%nat -> fst (fresh i) <> fst (fresh j)) ->
  run_branch py_sum fresh g modifiers = score py_sum g.
Proof.
  intros Hg Hfresh Hinj.
  set (evs := branch_events fresh modifiers).
  assert (Hst : forall e, In e evs ->
            exists i, (i <= List.length modifiers)%nat /\ (id e, timestamp e) = fresh i).
  { intros e He.
    assert (H : In (id e, timestamp e) (map (fun e => (id e, timestamp e)) evs))
      by (apply in_map_iff; exists e; split; [reflexivity|exact He]).
    unfold evs in H. rewrite branch_events_stamps in H.
    apply in_map_iff in H. destruct H as (i & Hi & Hin).
    apply in_seq in Hin. exists i. split; [lia|symmetry; exact Hi]. }
  assert (Hnd : NoDup (map id evs)).
  { assert (Hid : map id evs = map (fun i => fst (fresh i)) (seq 0 (S (List.length modifiers)))).
    { pose proof (branch_events_stamps fresh modifiers) as H.
      apply (f_equal (map fst)) in H. rewrite !map_map in H. exact H. }
    rewrite Hid. clear Hid Hst.
    assert (G : forall n k, (k + n <= S (List.length modifiers))%nat ->
                NoDup (map (fun i => fst (fresh i)) (seq k n))).
    { induction n as [|n IH]; intros k Hk; simpl; [constructor|].
      constructor; [|apply IH; lia].
      intros Hin. apply in_map_iff in Hin. destruct Hin as (j & Hj & Hin).
      apply in_seq in Hin. apply (Hinj k j); [lia|symmetry; exact Hj]. }
    apply G. lia. }
  destruct (@add_events_fresh evs g Hg) as [Hret Hnodes].
  - intros e He. destruct (Hst e He) as (i & Hi & Heq).
    replace (timestamp e) with (snd (fresh i)) by (rewrite <- Heq; reflexivity).
    apply Hfresh, Hi.
  - exact Hnd.
  - intros e He. destruct (Hst e He) as (i & Hi & Heq).
    replace (id e) with (fst (fresh i)) by (rewrite <- Heq; reflexivity).
    apply Hfresh, Hi.
  - unfold run_branch. fold evs.
    destruct (add_events g evs) as [[[]|e] h]; cbn [fst snd] in Hret, Hnodes;
      [|discriminate].
    unfold score.
    rewrite (@valences_app g evs h Hnodes (branch_events_no_valence fresh modifiers)).
    reflexivity.
Qed.

End CounterfactualExtras.

Lemma run_branch_score_ignores_modifiers_witness :
  run_branch float_sum two_stamps graph_ab [("calm", (1 / 2)%R)]
  = score float_sum graph_ab.
Proof.
  apply (@run_branch_score_ignores_modifiers float_sum two_stamps graph_ab
           [("calm", (1 / 2)%R)]).
  - intros p Hp. rewrite graph_ab_nodes in Hp.
    destruct Hp as [<-|[<-|[]]]; reflexivity.
  - intros [|[|i]] Hi; simpl in Hi; [split; reflexivity|split; reflexivity|lia].
  - intros [|i] [|[|j]] Hij; simpl in Hij; try lia. simpl. discriminate.
Defined.
